(** * Job-shop scheduler: the timeline allocator and the stage dispatch loop

    A shallow embedding of [src/schedule.hpp] (namespace [js]): the
    [interval] and [timeline] structures, [schedule::schedule_task],
    [schedule::add_task], [schedule::schedule_jobs],
    [schedule::longest_timeline] and [schedule::summary], followed by the
    properties the specification states about them. *)

From Stdlib Require Import ZArith Lia Bool String Ascii DecimalString Sorted.
From stdpp Require Import base tactics numbers option list.

Local Open Scope Z_scope.

(** ** The time type *)

(** Modelled from the spec: [time32_t] is declared in [dataset.hpp], which
    is not part of the sources at hand.  Its name fixes the width (32
    bits); its signedness is left as a parameter.  For an unsigned type the
    arithmetic below is the one the C++ standard defines; for a signed type
    it is the two's complement wrap-around the usual compilers produce. *)
Class TimeRep := { time_signed : bool }.

Section Time.
Context `{TimeRep}.

Definition time32_modulus : Z := 2 ^ 32.

Definition time32_min : Z := if time_signed then - 2 ^ 31 else 0.

(** [interval::infinity = std::numeric_limits<time32_t>::max()] *)
Definition infinity : Z := if time_signed then 2 ^ 31 - 1 else 2 ^ 32 - 1.

Definition wrap (z : Z) : Z :=
  (z - time32_min) mod time32_modulus + time32_min.

(** [a + b] and [a - b] at type [time32_t] *)
Definition tadd (a b : Z) : Z := wrap (a + b).
Definition tsub (a b : Z) : Z := wrap (a - b).
End Time.

(** ** Jobs and tasks

    [task], [job], [dataset] and [heuristic] are declared in
    [dataset.hpp], which is not part of the sources at hand; the records
    carry the fields [schedule.hpp] reads and writes. *)

(** Modelled from the spec: an operation, with its machine, its duration,
    its assigned start time and the back-reference [parent] to its job,
    which is the position of that job in [dataset::jobs]. *)
Record task := mk_task {
  machine_id : Z;
  duration : Z;
  scheduled_time : Z;
  parent : nat
}.

(** Modelled from the spec: a job, with its identifier ([id] in the
    source), its operations in order and its completion cursor. *)
Record job := mk_job {
  job_id : Z;
  sequence : list task;
  last_scheduled_time : Z
}.

(** Modelled from the spec: the problem instance. *)
Record dataset := mk_dataset {
  machine_count : nat;
  jobs : list job
}.

(** A pointer to a task: the position of its job in [dataset::jobs] and its
    own position in [job::sequence]. *)
Definition task_ptr : Type := nat * nat.

(** Modelled from the spec: [js::heuristic] compares two jobs at a stage
    index. *)
Definition heuristic : Type := job → job → Z → bool.

(** ** [struct interval] *)

Record interval := mk_interval {
  start : Z;
  end_ : Z;
  itask : option task_ptr
}.

Section Interval.
Context `{TimeRep}.

(** [interval::empty(start, end)] *)
Definition interval_empty (s e : Z) : interval := mk_interval s e None.

(** [interval::empty()] with both default arguments *)
Definition interval_empty_default : interval := interval_empty 0 infinity.

Definition occupied (i : interval) : bool :=
  match itask i with Some _ => true | None => false end.

(** [includes(time)] *)
Definition includes (i : interval) (time : Z) : bool :=
  (start i <=? time) && (time <=? end_ i).

(** [includes(from, duration)] *)
Definition includes_from (i : interval) (from dur : Z) : bool :=
  tsub (tadd (Z.max (start i) from) dur) 1 <=? end_ i.
End Interval.

(** ** [class timeline]

    The [std::list<interval>] is a list; an iterator into it is a position,
    [length] of the list standing for [end()].  Inserting before an
    iterator moves the element it designates one position up. *)

Abbreviation timeline := (list interval).

Section Timeline.
Context `{TimeRep}.

(** [std::find_if] over the intervals: the first position whose interval
    includes [time], the length of the list when there is none. *)
Fixpoint interval_at (tl : timeline) (time : Z) : nat :=
  match tl with
  | [] => O
  | i :: rest => if includes i time then O else S (interval_at rest time)
  end.

(** [timeline::length]; [back()] of an empty list has no defined result. *)
Definition timeline_length (tl : timeline) : option Z :=
  match last tl with
  | Some l => Some (if occupied l then tadd (end_ l) 1 else start l)
  | None => None
  end.

Definition timeline_add (tl : timeline) (i : interval) : timeline :=
  tl ++ [i].

Definition insert_before (tl : timeline) (it : nat) (i : interval) : timeline :=
  take it tl ++ i :: drop it tl.

Definition insert_after (tl : timeline) (it : nat) (i : interval) : timeline :=
  take (S it) tl ++ i :: drop (S it) tl.

(** [timeline::operator<] *)
Definition timeline_lt (a b : timeline) : option bool :=
  la ← timeline_length a; lb ← timeline_length b; Some (la <? lb).
End Timeline.

(** ** [std::sort] and [std::max_element]

    [std::sort] is library code.  Its contract (C++ standard,
    [alg.sorting]) is taken as an interface: for a comparator that is a
    strict weak ordering on the elements of the range, the result is a
    permutation of the range in which no element is ordered before an
    earlier one.  Nothing is promised for other comparators, and nothing
    about the order of equivalent elements. *)

Record strict_weak_order {A} (P : A → Prop) (cmp : A → A → bool) : Prop := {
  swo_irrefl : ∀ a, P a → cmp a a = false;
  swo_trans : ∀ a b c, P a → P b → P c →
    cmp a b = true → cmp b c = true → cmp a c = true;
  swo_incomp : ∀ a b c, P a → P b → P c →
    cmp a b = false → cmp b a = false →
    cmp b c = false → cmp c b = false →
    cmp a c = false ∧ cmp c a = false
}.

(** No element of the list is ordered before an element on its left. *)
Definition sorted_by {A} (cmp : A → A → bool) (l : list A) : Prop :=
  ∀ i j a b, (i < j)%nat → l !! i = Some a → l !! j = Some b → cmp b a = false.

Class StdSort := {
  sort : ∀ A : Type, (A → A → bool) → list A → list A;
  sort_spec : ∀ (A : Type) (cmp : A → A → bool) (l : list A),
    strict_weak_order (λ a, a ∈ l) cmp →
    sort A cmp l ≡ₚ l ∧ sorted_by cmp (sort A cmp l)
}.
Global Arguments sort {_ _} _ _.

(** ** [class schedule] *)

Record schedule := mk_schedule {
  table : list timeline;
  data : dataset
}.

Definition set_scheduled_time (v : Z) (t : task) : task :=
  mk_task (machine_id t) (duration t) v (parent t).

Definition set_sequence (f : list task → list task) (j : job) : job :=
  mk_job (job_id j) (f (sequence j)) (last_scheduled_time j).

Definition set_last_scheduled_time (v : Z) (j : job) : job :=
  mk_job (job_id j) (sequence j) v.

Definition set_jobs (f : list job → list job) (d : dataset) : dataset :=
  mk_dataset (machine_count d) (f (jobs d)).

(** [table[task.machine_id]]: a position in the machine table. *)
Definition machine_index (t : task) : option nat :=
  if machine_id t <? 0 then None else Some (Z.to_nat (machine_id t)).

Section Schedule.
Context `{TimeRep} `{StdSort}.

(** [schedule::schedule(dataset&)] *)
Definition schedule_new (d : dataset) : schedule :=
  mk_schedule
    ((λ tl, timeline_add tl interval_empty_default) <$> replicate (machine_count d) [])
    d.

(** The body of [schedule_task] on the timeline: the interval at [it]
    becomes the block of the task, then the free remainders are linked in
    before and after it. *)
Definition place_block (tl : timeline) (it : nat) (p : task_ptr)
    (st dur : Z) : option timeline :=
  iv ← tl !! it;
  let interval_start := start iv in
  let interval_end := end_ iv in
  let empty_before := interval_start <? st in
  let empty_after := tsub (tadd st dur) 1 <? interval_end in
  let tl1 := <[it := mk_interval st (tsub (tadd st dur) 1) (Some p)]> tl in
  let '(tl2, it2) :=
    if empty_before
    then (insert_before tl1 it (interval_empty interval_start (tsub st 1)), S it)
    else (tl1, it) in
  Some (if empty_after
        then insert_after tl2 it2 (interval_empty (tadd st dur) interval_end)
        else tl2).

(** [schedule::schedule_task]; [m] is the position of [timeline] in the
    table and [it] the iterator [interval]. *)
Definition schedule_task (s : schedule) (p : task_ptr) (m it : nat)
    (st : Z) : option schedule :=
  j ← jobs (data s) !! p.1;
  t ← sequence j !! p.2;
  tl ← table s !! m;
  tl' ← place_block tl it p st (duration t);
  let jobs1 :=
    alter (set_sequence (alter (set_scheduled_time st) p.2)) p.1 (jobs (data s)) in
  _ ← jobs1 !! parent t;
  let jobs2 :=
    alter (set_last_scheduled_time (tadd st (duration t))) (parent t) jobs1 in
  Some (mk_schedule (<[m := tl']> (table s)) (set_jobs (λ _, jobs2) (data s))).

(** The loop of [add_task]: advance the iterator while the interval is
    occupied or too short.  [rest] is the part of the list from the
    iterator on; reading through [end()] has no defined result. *)
Fixpoint scan (rest : list interval) (it : nat) (job_end dur : Z) : option nat :=
  match rest with
  | [] => None
  | i :: rest' =>
      if occupied i || negb (includes_from i job_end dur)
      then scan rest' (S it) job_end dur
      else Some it
  end.

Definition find_slot (tl : timeline) (job_end dur : Z) : option nat :=
  let it := interval_at tl job_end in
  scan (drop it tl) it job_end dur.

(** [schedule::add_task] *)
Definition add_task (s : schedule) (p : task_ptr) : option schedule :=
  j ← jobs (data s) !! p.1;
  t ← sequence j !! p.2;
  m ← machine_index t;
  tl ← table s !! m;
  pj ← jobs (data s) !! parent t;
  let job_end := last_scheduled_time pj in
  it ← find_slot tl job_end (duration t);
  iv ← tl !! it;
  schedule_task s p m it (Z.max (start iv) job_end).

(** [for (job* job : jobs_order) add_task(job->sequence[i])] *)
Fixpoint add_tasks (s : schedule) (i : nat) (jobs_order : list nat) : option schedule :=
  match jobs_order with
  | [] => Some s
  | k :: rest => s' ← add_task s (k, i); add_tasks s' i rest
  end.

(** The comparator handed to [std::sort] at stage [i]: the heuristic on
    the jobs the two pointers designate. *)
Definition stage_cmp (h : heuristic) (js : list job) (i : nat) (a b : nat) : bool :=
  match js !! a, js !! b with
  | Some ja, Some jb => h ja jb (Z.of_nat i)
  | _, _ => false
  end.

(** One round of the loop of [schedule_jobs]. *)
Definition stage (h : heuristic) (s : schedule) (i : nat) : option schedule :=
  let jobs_order := sort (stage_cmp h (jobs (data s)) i) (seq 0 (length (jobs (data s)))) in
  add_tasks s i jobs_order.

Fixpoint stages (h : heuristic) (s : schedule) (ix : list nat) : option schedule :=
  match ix with
  | [] => Some s
  | i :: rest => s' ← stage h s i; stages h s' rest
  end.

Definition id_less (a b : job) : bool := job_id a <? job_id b.

(** The comparator of the last [std::sort], on jobs that carry the position
    they had before it. *)
Definition tagged_id_less (a b : nat * job) : bool := id_less a.2 b.2.

(** Where the job that was at position [k] is after the sort; [sorted] is
    the sorted list of the jobs with their former positions. *)
Definition moved_to (sorted : list (nat * job)) (k : nat) : nat :=
  from_option fst k (list_find (λ x : nat * job, x.1 = k) sorted).

(** A [task*] keeps designating its task, which has moved with the
    [sequence] of its job. *)
Definition follow (sorted : list (nat * job)) (iv : interval) : interval :=
  mk_interval (start iv) (end_ iv)
    ((λ p : task_ptr, (moved_to sorted p.1, p.2)) <$> itask iv).

(** The last statement of [schedule_jobs]: [std::sort] of [data.jobs] by
    id.  The sort moves the job objects, and so the vectors of their tasks;
    to tell where each job went, the jobs are sorted together with the
    position they had.  The references [parent] of the tasks are to places
    of [data.jobs] and stay as they are. *)
Definition sort_jobs (s : schedule) : schedule :=
  let sorted := sort tagged_id_less (imap pair (jobs (data s))) in
  mk_schedule ((λ tl : timeline, follow sorted <$> tl) <$> table s)
    (set_jobs (λ _, sorted.*2) (data s)).

(** [schedule::schedule_jobs]; [data.jobs[0]] has no defined result when
    there is no job. *)
Definition schedule_jobs (h : heuristic) (s : schedule) : option schedule :=
  j0 ← jobs (data s) !! O;
  let sequence_length := length (sequence j0) in
  s' ← stages h s (seq 0 sequence_length);
  Some (sort_jobs s').

(** [std::max_element] with [operator<]: the first of the largest. *)
Fixpoint max_element_from (largest : timeline) (rest : list timeline) : option timeline :=
  match rest with
  | [] => Some largest
  | t :: rest' =>
      lt ← timeline_lt largest t;
      max_element_from (if lt : bool then t else largest) rest'
  end.

Definition max_element (l : list timeline) : option timeline :=
  match l with
  | [] => None
  | t :: rest => max_element_from t rest
  end.

(** [schedule::longest_timeline] *)
Definition longest_timeline (s : schedule) : option Z :=
  m ← max_element (table s); timeline_length m.

(** [operator<<] on a [time32_t]: its decimal digits. *)
Definition show_time (z : Z) : string := NilZero.string_of_int (Z.to_int z).

Definition newline_char : ascii := ascii_of_nat 10.
Definition space_char : ascii := ascii_of_nat 32.

(** The characters written one after the other to the stream. *)
Definition stream (parts : list string) : string :=
  foldr String.append EmptyString parts.

(** The inner loop of [summary]: every start time followed by a space. *)
Definition summary_line (j : job) : string :=
  stream ((λ t, String.append (show_time (scheduled_time t))
                  (String space_char EmptyString)) <$> sequence j).

Definition summary_job (j : job) : string :=
  String.append (summary_line j) (String newline_char EmptyString).

(** [schedule::summary] *)
Definition summary (s : schedule) : option string :=
  m ← longest_timeline s;
  Some (String.append
          (String.append (show_time m) (String newline_char EmptyString))
          (stream (summary_job <$> jobs (data s)))).
End Schedule.

(** ** The heuristic of [stachu_algorithm]: longer operation at this stage
    first. *)
Definition stachu_heuristic : heuristic := λ a b i,
  match sequence a !! Z.to_nat i, sequence b !! Z.to_nat i with
  | Some ta, Some tb => duration tb <? duration ta
  | _, _ => false
  end.

(** ** An instance of the [std::sort] interface: insertion sort, which is
    what the usual implementations run on short ranges. *)
Section Insertion.
Context {A : Type} (cmp : A → A → bool).

Fixpoint insert_sorted (x : A) (l : list A) : list A :=
  match l with
  | [] => [x]
  | y :: l' => if cmp x y then x :: l else y :: insert_sorted x l'
  end.

Definition insertion_sort (l : list A) : list A :=
  foldr insert_sorted [] l.

(** [b] is not ordered before [a]. *)
Definition not_before (a b : A) : Prop := cmp b a = false.
End Insertion.

Definition int32_time : TimeRep := {| time_signed := true |}.
Definition uint32_time : TimeRep := {| time_signed := false |}.

(** ** Specification-level notions *)

(** The invariant of a timeline, in the terms of the specification; the
    sentinel [infinity] stands for the unbounded future. *)
Record timeline_inv `{TimeRep} (tl : timeline) : Prop := {
  inv_nonempty : ∀ a, a ∈ tl → start a ≤ end_ a;
  inv_sorted : ∀ i j a b, (i < j)%nat →
    tl !! i = Some a → tl !! j = Some b → start a < start b;
  inv_contiguous : ∀ i a b,
    tl !! i = Some a → tl !! S i = Some b → end_ a + 1 = start b;
  inv_disjoint : ∀ i j a b, (i < j)%nat →
    tl !! i = Some a → tl !! j = Some b → end_ a < start b;
  inv_union : ∀ t, (∃ a, a ∈ tl ∧ includes a t = true) ↔ 0 ≤ t ≤ infinity;
  inv_last : ∃ l, last tl = Some l ∧ occupied l = false ∧ end_ l = infinity
}.

(** A contiguous run of non-empty intervals from [s] on, closed by the free
    interval that reaches [infinity]. *)
Inductive chain `{TimeRep} : Z → timeline → Prop :=
  | chain_last s :
      s ≤ infinity → chain s [mk_interval s infinity None]
  | chain_cons s e t rest :
      s ≤ e → chain (e + 1) rest → chain s (mk_interval s e t :: rest).

Section SlotNotions.
Context `{TimeRep}.

Definition skipped_by (job_end dur : Z) (i : interval) : Prop :=
  occupied i = true ∨ includes_from i job_end dur = false.

(** What the chosen interval [iv] is replaced by: the free prefix when there
    is one, the block, and the free suffix when there is one. *)
Definition split_block (iv : interval) (p : task_ptr) (st dur : Z) : list interval :=
  (if start iv <? st then [interval_empty (start iv) (tsub st 1)] else []) ++
  mk_interval st (tsub (tadd st dur) 1) (Some p) ::
  (if tsub (tadd st dur) 1 <? end_ iv
   then [interval_empty (tadd st dur) (end_ iv)] else []).

End SlotNotions.

(** ** Datasets and the state of a run *)

(** The task a pointer designates. *)
Definition task_at (d : dataset) (p : task_ptr) : option task :=
  j ← jobs d !! p.1; sequence j !! p.2.

Definition dur_of (d : dataset) (p : task_ptr) : Z :=
  from_option duration 0 (task_at d p).

Definition sum_durs (d : dataset) (l : list task_ptr) : Z :=
  foldr (λ p acc, dur_of d p + acc) 0 l.

(** Every pointer to a task of the dataset, job by job. *)
Definition all_ptrs (d : dataset) : list task_ptr :=
  k ← seq 0 (length (jobs d));
  (λ i, (k, i)) <$> seq 0 (length (from_option sequence [] (jobs d !! k))).

(** The sum of the durations of all the tasks. *)
Definition total_duration (d : dataset) : Z := sum_durs d (all_ptrs d).

(** What the loader guarantees and the scheduler never changes: every task
    refers back to its own job, has a positive duration and a machine of the
    table, and all the work fits below [infinity]. *)
Record static_ok `{TimeRep} (d : dataset) : Prop := {
  st_task : ∀ k j i t,
    jobs d !! k = Some j → sequence j !! i = Some t →
    parent t = k ∧ 0 < duration t ∧
    0 ≤ machine_id t ∧ (Z.to_nat (machine_id t) < machine_count d)%nat;
  st_total : total_duration d ≤ infinity
}.

(** A dataset as the scheduler expects it from the loader. *)
Record wf_dataset `{TimeRep} (d : dataset) : Prop := {
  wf_static : static_ok d;
  wf_cursor : ∀ j, j ∈ jobs d → last_scheduled_time j = 0
}.

(** All jobs have as many operations as the first one. *)
Definition uniform (d : dataset) (n : nat) : Prop :=
  jobs d ≠ [] ∧ ∀ j, j ∈ jobs d → length (sequence j) = n.

(** The range [start, start + duration - 1] of two tasks do not intersect. *)
Definition disjoint_tasks (t1 t2 : task) : Prop :=
  scheduled_time t1 + duration t1 - 1 < scheduled_time t2 ∨
  scheduled_time t2 + duration t2 - 1 < scheduled_time t1.

(** The state of a run in which the tasks of [done] have been placed. *)
Record sched_inv `{TimeRep} (done : list task_ptr) (s : schedule) : Prop := {
  si_static : static_ok (data s);
  si_table : length (table s) = machine_count (data s);
  si_chain : ∀ m tl, table s !! m = Some tl →
    chain 0 tl ∧ ∀ a, a ∈ tl → start a ≤ sum_durs (data s) done;
  si_cursor : ∀ k j, jobs (data s) !! k = Some j →
    0 ≤ last_scheduled_time j ≤ sum_durs (data s) done;
  si_nodup : NoDup done;
  si_valid : ∀ p, p ∈ done → is_Some (task_at (data s) p);
  si_block : ∀ p t, p ∈ done → task_at (data s) p = Some t →
    ∃ tl, table s !! Z.to_nat (machine_id t) = Some tl ∧
      mk_interval (scheduled_time t)
        (scheduled_time t + duration t - 1) (Some p) ∈ tl;
  si_order : ∀ k i j t, (k, i) ∈ done →
    jobs (data s) !! k = Some j → sequence j !! i = Some t →
    0 ≤ scheduled_time t ∧
    scheduled_time t + duration t ≤ last_scheduled_time j;
  si_prec : ∀ k i j t t', (k, S i) ∈ done →
    jobs (data s) !! k = Some j →
    sequence j !! i = Some t → sequence j !! S i = Some t' →
    (k, i) ∈ done ∧ scheduled_time t + duration t ≤ scheduled_time t'
}.

(** A sequence of calls of [add_task]: each task at most once, and no task
    before the task that precedes it in its job. *)
Inductive call_order (d : dataset) : list task_ptr → list task_ptr → Prop :=
  | call_order_nil done : call_order d done []
  | call_order_cons done k i rest :
      is_Some (task_at d (k, i)) →
      (k, i) ∉ done →
      (i = O ∨ (k, pred i) ∈ done) →
      call_order d ((k, i) :: done) rest →
      call_order d done ((k, i) :: rest).

Section Run.
Context `{TimeRep} `{StdSort}.

(** The calls of [add_task] of a run, one after the other. *)
Fixpoint run_tasks (s : schedule) (ps : list task_ptr) : option schedule :=
  match ps with
  | [] => Some s
  | p :: rest => s' ← add_task s p; run_tasks s' rest
  end.
End Run.

(** The dataset after task [i] of job [k] got start [st] and the job got
    completion time [fin]. *)
Definition update_task (d : dataset) (k i : nat) (j : job) (t : task)
    (st fin : Z) : dataset :=
  mk_dataset (machine_count d)
    (<[k := mk_job (job_id j) (<[i := set_scheduled_time st t]> (sequence j)) fin]>
       (jobs d)).

(** The number of operations of each job. *)
Definition shape (d : dataset) : list nat := (λ j, length (sequence j)) <$> jobs d.

(** What [std::sort] asks of the heuristic: at every stage it is a strict
    weak ordering of the jobs that have an operation at that stage. *)
Definition heuristic_ok (h : heuristic) : Prop :=
  ∀ i : nat,
    strict_weak_order (λ j, (i < length (sequence j))%nat)
      (λ a b, h a b (Z.of_nat i)).

(** The calls of one stage, in dispatch order. *)
Definition stage_ptrs (i : nat) (order : list nat) : list task_ptr :=
  (λ k, (k, i)) <$> order.

(** Among the tasks that satisfy [P], no two on the same machine have
    intersecting ranges. *)
Definition no_overlap_among (s : schedule) (P : task_ptr → Prop) : Prop :=
  ∀ p q t u, P p → P q → p ≠ q →
    task_at (data s) p = Some t → task_at (data s) q = Some u →
    machine_id t = machine_id u → disjoint_tasks t u.

(** Among the tasks that satisfy [P], no start is negative and every task
    starts after the task before it in its job has finished. *)
Definition job_order_among (s : schedule) (P : task_ptr → Prop) : Prop :=
  (∀ k i t, P (k, i) → task_at (data s) (k, i) = Some t →
     0 ≤ scheduled_time t) ∧
  (∀ k i t t', P (k, S i) →
     task_at (data s) (k, i) = Some t → task_at (data s) (k, S i) = Some t' →
     scheduled_time t + duration t ≤ scheduled_time t').

(** *** [timeline::quantized] *)

(** What an iteration of the inner loop pushes for an interval: [-1] when it
    is free, else [interval.task->parent.id]; following a pointer that
    designates nothing has no defined result.  Ids are integers here, as
    for [job_id]: the cell of a free interval is the literal [-1] of the
    source, which [gantt_chart] compares the cells with. *)
Definition cell_of (d : dataset) (iv : interval) : option Z :=
  match itask iv with
  | Some p => t ← task_at d p; j ← jobs d !! parent t; Some (job_id j)
  | None => Some (-1)
  end.

Section Quantized.
Context `{TimeRep}.

(** The inner loop of [quantized], from [i] on: one cell per round while
    [i <= interval.end and i < limit].  [fuel] bounds the number of rounds. *)
Fixpoint quantized_interval (fuel : nat) (d : dataset) (iv : interval)
    (limit i : Z) : option (list Z) :=
  match fuel with
  | O => Some []
  | S fuel' =>
      if (i <=? end_ iv) && (i <? limit)
      then c ← cell_of d iv;
           rest ← quantized_interval fuel' d iv limit (tadd i 1);
           Some (c :: rest)
      else Some []
  end.

(** The outer loop: what is pushed, interval after interval.  As [i] grows
    by one per round and stays below [limit], [limit - start] rounds are
    all an interval can take. *)
Fixpoint quantized_cells (d : dataset) (tl : timeline) (limit : Z) : option (list Z) :=
  match tl with
  | [] => Some []
  | iv :: rest =>
      c ← quantized_interval (Z.to_nat (limit - start iv)) d iv limit (start iv);
      r ← quantized_cells d rest limit;
      Some (c ++ r)
  end.

(** [timeline::quantized]: [result(limit)] is a vector of [limit] zeros, to
    which the cells are appended.  A negative [limit] is no size of a
    vector. *)
Definition quantized (d : dataset) (tl : timeline) (limit : Z) : option (list Z) :=
  if limit <? 0 then None
  else cells ← quantized_cells d tl limit;
       Some (replicate (Z.to_nat limit) 0 ++ cells).
End Quantized.

(** *** The layout of a timeline *)

(** No free interval follows a free one; [prev_free] tells whether the
    interval before the list is free. *)
Fixpoint alternating (prev_free : bool) (tl : timeline) : Prop :=
  match tl with
  | [] => True
  | a :: rest =>
      (prev_free = true → itask a ≠ None) ∧
      alternating (match itask a with Some _ => false | None => true end) rest
  end.

(** Of two neighbours in the list, one is occupied. *)
Definition no_adjacent_free (tl : timeline) : Prop :=
  ∀ i a b, tl !! i = Some a → tl !! S i = Some b →
    itask a ≠ None ∨ itask b ≠ None.

(** The machine is free at time [u]. *)
Definition free_at (tl : timeline) (u : Z) : Prop :=
  ∃ a, a ∈ tl ∧ start a ≤ u ≤ end_ a ∧ itask a = None.

(** The machine is busy at time [u]. *)
Definition busy_at (tl : timeline) (u : Z) : Prop :=
  ∃ a, a ∈ tl ∧ start a ≤ u ≤ end_ a ∧ itask a ≠ None.

(** What a run keeps besides [sched_inv]: free intervals are maximal, every
    occupied interval is the block of a placed task of that machine, and the
    cursor of a job is the completion time of its last placed task. *)
Record layout_inv (done : list task_ptr) (s : schedule) : Prop := {
  li_alternating : ∀ m tl, table s !! m = Some tl → alternating false tl;
  li_occupant : ∀ m tl a p,
    table s !! m = Some tl → a ∈ tl → itask a = Some p →
    p ∈ done ∧ ∃ t, task_at (data s) p = Some t ∧
      Z.to_nat (machine_id t) = m ∧ start a = scheduled_time t ∧
      end_ a = scheduled_time t + duration t - 1;
  li_cursor_fresh : ∀ k j,
    jobs (data s) !! k = Some j → (∀ i, (k, i) ∉ done) →
    last_scheduled_time j = 0;
  li_cursor_last : ∀ k i j t,
    (k, i) ∈ done → (k, S i) ∉ done →
    jobs (data s) !! k = Some j → sequence j !! i = Some t →
    last_scheduled_time j = scheduled_time t + duration t
}.

(** *** Texts *)

(** The fields of a text between the occurrences of a separator. *)
Fixpoint split_on (c : ascii) (s : string) : list string :=
  match s with
  | EmptyString => [EmptyString]
  | String x r =>
      if Ascii.eqb x c then EmptyString :: split_on c r
      else match split_on c r with
           | h :: t => String x h :: t
           | [] => [String x EmptyString]
           end
  end.

(** The character does not occur in the text. *)
Fixpoint free_of (c : ascii) (s : string) : Prop :=
  match s with
  | EmptyString => True
  | String x r => Ascii.eqb x c = false ∧ free_of c r
  end.

Definition is_separator (c : ascii) : Prop := c = newline_char ∨ c = space_char.

(** *** Checking a dataset *)

Definition check_task (d : dataset) (k : nat) (t : task) : bool :=
  (parent t =? k)%nat && (0 <? duration t) && (0 <=? machine_id t) &&
  (Z.to_nat (machine_id t) <? machine_count d)%nat.

Definition check_job (d : dataset) (k : nat) (j : job) : bool :=
  forallb (check_task d k) (sequence j) && (last_scheduled_time j =? 0).

(** The decidable form of [wf_dataset]. *)
Definition check_dataset `{TimeRep} (d : dataset) : bool :=
  forallb (λ kj, check_job d kj.1 kj.2) (imap pair (jobs d)) &&
  (total_duration d <=? infinity).

Definition check_uniform (d : dataset) (len : nat) : bool :=
  match jobs d with
  | [] => false
  | _ => forallb (λ j, (length (sequence j) =? len)%nat) (jobs d)
  end.

(** *** The scenario of the specification *)

(** Two jobs on two machines; the start times are still unset. *)
Definition scenario : dataset := mk_dataset 2
  [ mk_job 0 [mk_task 0 3 0 0; mk_task 1 2 0 0] 0;
    mk_job 1 [mk_task 0 2 0 1; mk_task 1 4 0 1] 0 ].

Definition scenario_summary : string :=
  stream [ "9"%string; String newline_char EmptyString;
           "0 3 "%string; String newline_char EmptyString;
           "3 5 "%string; String newline_char EmptyString ].

(** The scenario with the ids 5 and 2 for its jobs: the last sort of
    [schedule_jobs] exchanges them. *)
Definition shuffled : dataset := mk_dataset 2
  [ mk_job 5 [mk_task 0 3 0 0; mk_task 1 2 0 0] 0;
    mk_job 2 [mk_task 0 2 0 1; mk_task 1 4 0 1] 0 ].

(** A dataset whose second job has one operation more than the first. *)
Definition ragged : dataset := mk_dataset 2
  [ mk_job 0 [mk_task 0 3 0 0] 0;
    mk_job 1 [mk_task 0 2 0 1; mk_task 1 4 0 1] 0 ].

(** A state in which the cursor of the only job lies before time [0]. *)
Definition stray `{TimeRep} : schedule :=
  mk_schedule [ [mk_interval 0 infinity None] ]
    (mk_dataset 1 [ mk_job 0 [mk_task 0 1 0 0] (-1) ]).

(** The state after operation 0 of job 0 has been placed. *)
Definition scenario_first `{TimeRep} : schedule :=
  mk_schedule
    [ [mk_interval 0 2 (Some (0, 0)%nat); mk_interval 3 infinity None];
      [mk_interval 0 infinity None] ]
    (mk_dataset 2
       [ mk_job 0 [mk_task 0 3 0 0; mk_task 1 2 0 0] 3;
         mk_job 1 [mk_task 0 2 0 1; mk_task 1 4 0 1] 0 ]).

(** ** Arithmetic of [time32_t] *)
Section TimeFacts.
Context `{TimeRep}.

Lemma infinity_pos : 0 < infinity.
Proof. unfold infinity. destruct time_signed; lia. Qed.

Lemma time32_min_nonpos : time32_min ≤ 0.
Proof. unfold time32_min. destruct time_signed; lia. Qed.

Lemma wrap_range z : time32_min ≤ wrap z ≤ infinity.
Proof.
  unfold wrap, time32_min, infinity, time32_modulus.
  destruct time_signed.
  - pose proof (Z.mod_pos_bound (z - - 2 ^ 31) (2 ^ 32)). lia.
  - pose proof (Z.mod_pos_bound (z - 0) (2 ^ 32)). lia.
Qed.

Lemma wrap_id z : time32_min ≤ z ≤ infinity → wrap z = z.
Proof.
  unfold wrap, time32_min, infinity, time32_modulus.
  destruct time_signed; intros Hz; rewrite Z.mod_small; lia.
Qed.

Lemma wrap_small z : 0 ≤ z ≤ infinity → wrap z = z.
Proof. intros. apply wrap_id. pose proof time32_min_nonpos. lia. Qed.

Lemma tadd_small a b : 0 ≤ a + b ≤ infinity → tadd a b = a + b.
Proof. apply wrap_small. Qed.

Lemma tsub_small a b : 0 ≤ a - b ≤ infinity → tsub a b = a - b.
Proof. apply wrap_small. Qed.

(** The end of a block: [start + duration - 1] as the code computes it. *)
Lemma block_end_small st dur :
  0 ≤ st → 0 < dur → st + dur ≤ infinity →
  tsub (tadd st dur) 1 = st + dur - 1.
Proof. intros. rewrite tadd_small, tsub_small; lia. Qed.
End TimeFacts.

(** ** Chains and the timeline invariant *)
Section ChainFacts.
Context `{TimeRep}.

Lemma chain_start_le s tl : chain s tl → s ≤ infinity.
Proof. induction 1; lia. Qed.

Lemma chain_head s tl :
  chain s tl → ∃ e t rest, tl = mk_interval s e t :: rest ∧ s ≤ e ≤ infinity.
Proof.
  destruct 1 as [s Hs|s e t rest Hse Hrest].
  - exists infinity, None, []. split; [done|lia].
  - exists e, t, rest. split; [done|]. apply chain_start_le in Hrest. lia.
Qed.

Lemma chain_elem s tl a :
  chain s tl → a ∈ tl → s ≤ start a ∧ start a ≤ end_ a ∧ end_ a ≤ infinity.
Proof.
  induction 1 as [s Hs|s e t rest Hse Hrest IH]; intros Ha.
  - apply list_elem_of_singleton in Ha as ->. simpl. lia.
  - apply elem_of_cons in Ha as [->|Ha].
    + simpl. apply chain_start_le in Hrest. lia.
    + specialize (IH Ha). lia.
Qed.

Lemma chain_lookup_lt s tl i j a b :
  chain s tl → (i < j)%nat → tl !! i = Some a → tl !! j = Some b →
  end_ a < start b.
Proof.
  intros Hc. revert i j.
  induction Hc as [s Hs|s e t rest Hse Hrest IH]; intros i j Hij Hi Hj.
  - destruct i, j; simplify_eq/=; try lia; by destruct j.
  - destruct j as [|j]; [lia|]. simpl in Hj. destruct i as [|i].
    + simplify_eq/=. apply list_elem_of_lookup_2 in Hj.
      pose proof (chain_elem _ _ _ Hrest Hj). lia.
    + simpl in Hi. apply (IH i j); [lia|done..].
Qed.

Lemma chain_lookup_succ s tl i a b :
  chain s tl → tl !! i = Some a → tl !! S i = Some b → end_ a + 1 = start b.
Proof.
  intros Hc. revert i.
  induction Hc as [s Hs|s e t rest Hse Hrest IH]; intros i Hi Hj.
  - by destruct i.
  - destruct i as [|i].
    + simplify_eq/=. apply chain_head in Hrest as (e' & t' & r' & -> & _).
      by simplify_eq/=.
    + by apply (IH i).
Qed.

Lemma chain_union s tl t :
  chain s tl → (∃ a, a ∈ tl ∧ includes a t = true) ↔ s ≤ t ≤ infinity.
Proof.
  unfold includes.
  induction 1 as [s Hs|s e ta rest Hse Hrest IH].
  - split.
    + intros (a & ->%list_elem_of_singleton & Ha). simpl in Ha. lia.
    + intros Ht. eexists. split; [apply list_elem_of_singleton; done|]. simpl. lia.
  - split.
    + intros (a & [->|Ha]%elem_of_cons & Hin).
      * simpl in Hin. apply chain_start_le in Hrest. lia.
      * assert (e + 1 ≤ t ≤ infinity) by (apply IH; eauto). lia.
    + intros Ht. destruct (decide (t ≤ e)) as [Hte|Hte].
      * eexists. split; [apply elem_of_cons; left; done|]. simpl. lia.
      * destruct (proj2 IH) as (a & Ha & Hin); [lia|].
        exists a. split; [apply elem_of_cons; by right|done].
Qed.

Lemma chain_last_free s tl :
  chain s tl → ∃ l, last tl = Some l ∧ occupied l = false ∧ end_ l = infinity.
Proof.
  induction 1 as [s Hs|s e ta rest Hse Hrest (l & Hl & Hfree & Hend)].
  - by eexists.
  - exists l. split; [|done].
    destruct rest; [done|]. by rewrite last_cons_cons.
Qed.

Lemma chain_timeline_inv tl : chain 0 tl → timeline_inv tl.
Proof.
  intros Hc. split.
  - intros a Ha. pose proof (chain_elem _ _ _ Hc Ha). lia.
  - intros i j a b Hij Hi Hj.
    pose proof (chain_lookup_lt _ _ _ _ _ _ Hc Hij Hi Hj).
    apply list_elem_of_lookup_2 in Hi.
    pose proof (chain_elem _ _ _ Hc Hi). lia.
  - intros i a b. by eapply chain_lookup_succ.
  - intros i j a b. by eapply chain_lookup_lt.
  - intros t. by apply chain_union.
  - by eapply chain_last_free.
Qed.

Lemma chain_of_contiguous tl s :
  (∃ a, head tl = Some a ∧ start a = s) →
  (∀ a, a ∈ tl → start a ≤ end_ a) →
  (∀ i a b, tl !! i = Some a → tl !! S i = Some b → end_ a + 1 = start b) →
  (∃ l, last tl = Some l ∧ occupied l = false ∧ end_ l = infinity) →
  chain s tl.
Proof.
  revert s. induction tl as [|a tl IH]; intros s (a0 & Hhd & Hs) Hne Hcont Hlast.
  { done. }
  simpl in Hhd. simplify_eq. destruct a0 as [s0 e0 t0]. simpl in *.
  destruct tl as [|b tl].
  - destruct Hlast as (l & Hl & Hfree & Hend). simplify_eq/=.
    unfold occupied in Hfree. simpl in *. destruct t0; [done|].
    apply chain_last. apply (Hne (mk_interval s0 infinity None)), list_elem_of_here.
  - apply chain_cons.
    + apply (Hne (mk_interval s0 e0 t0)), list_elem_of_here.
    + apply IH.
      * exists b. split; [done|]. symmetry. by apply (Hcont O (mk_interval s0 e0 t0) b).
      * intros a Ha. apply Hne. by apply list_elem_of_further.
      * intros i a c Hi Hj. by apply (Hcont (S i)).
      * destruct Hlast as (l & Hl & Hfree & Hend). exists l. split; [|done].
        by rewrite last_cons_cons in Hl.
Qed.

Lemma timeline_inv_chain tl : timeline_inv tl → chain 0 tl.
Proof.
  intros [Hne Hsort Hcont Hdisj Hunion Hlast].
  apply chain_of_contiguous; [|done..].
  destruct tl as [|h tl].
  { destruct Hlast as (l & Hl & _). done. }
  exists h. split; [done|].
  assert (0 ≤ start h).
  { apply (Hunion (start h)). exists h. split; [apply list_elem_of_here|].
    unfold includes. pose proof (Hne h (list_elem_of_here _ _)). lia. }
  destruct (proj2 (Hunion 0)) as (a & Ha & Hin).
  { pose proof infinity_pos. lia. }
  unfold includes in Hin.
  apply list_elem_of_lookup_1 in Ha as [j Hj]. destruct j as [|j].
  - simplify_eq/=. lia.
  - pose proof (Hsort O (S j) h a ltac:(lia) eq_refl Hj). lia.
Qed.
End ChainFacts.

(** ** Looking up an interval and scanning for a slot *)
Section Search.
Context `{TimeRep} `{StdSort}.

Lemma interval_at_le tl t : (interval_at tl t ≤ length tl)%nat.
Proof. induction tl as [|a tl IH]; simpl; [lia|]. destruct (includes a t); simpl; lia. Qed.

Lemma interval_at_found tl t :
  (∃ a, a ∈ tl ∧ includes a t = true) →
  ∃ a, tl !! interval_at tl t = Some a ∧ includes a t = true.
Proof.
  induction tl as [|b tl IH]; intros (a & Ha & Hin).
  - by apply elem_of_nil in Ha.
  - simpl. destruct (includes b t) eqn:Hb; [by exists b|].
    apply IH. exists a. split; [|done].
    apply elem_of_cons in Ha as [->|Ha]; [congruence|done].
Qed.

Lemma interval_at_first tl t j b :
  (j < interval_at tl t)%nat → tl !! j = Some b → includes b t = false.
Proof.
  revert j. induction tl as [|a tl IH]; intros j Hj Hb; [done|].
  simpl in Hj. destruct (includes a t) eqn:Ha; [lia|].
  destruct j as [|j]; simplify_eq/=; [done|]. apply (IH j); [lia|done].
Qed.

Lemma scan_spec rest it job_end dur it' :
  scan rest it job_end dur = Some it' →
  ∃ skipped iv rest',
    rest = skipped ++ iv :: rest' ∧ it' = (it + length skipped)%nat ∧
    Forall (skipped_by job_end dur) skipped ∧
    occupied iv = false ∧ includes_from iv job_end dur = true.
Proof.
  revert it. induction rest as [|i rest IH]; intros it Hscan; [done|].
  simpl in Hscan.
  destruct (occupied i) eqn:Hocc; simpl in Hscan.
  - apply IH in Hscan as (sk & iv & r' & -> & -> & Hsk & Hiv).
    exists (i :: sk), iv, r'. split_and!; [done|simpl; lia| |apply Hiv..].
    constructor; [by left|done].
  - destruct (includes_from i job_end dur) eqn:Hinc; simpl in Hscan.
    + simplify_eq. exists [], i, rest. split_and!; [done|simpl; lia|constructor|done..].
    + apply IH in Hscan as (sk & iv & r' & -> & -> & Hsk & Hiv).
      exists (i :: sk), iv, r'. split_and!; [done|simpl; lia| |apply Hiv..].
      constructor; [by right|done].
Qed.

Lemma scan_chain s rest it job_end dur :
  chain s rest → is_Some (scan rest it job_end dur).
Proof.
  intros Hc. revert it.
  induction Hc as [s Hs|s e t rest Hse Hrest IH]; intros it; simpl.
  - unfold occupied, includes_from. simpl.
    destruct (Z.leb_spec (tsub (tadd (Z.max s job_end) dur) 1) infinity) as [|Hgt].
    + by eexists.
    + unfold tsub in Hgt. pose proof (wrap_range (tadd (Z.max s job_end) dur - 1)). lia.
  - destruct (_ || _); [apply IH|by eexists].
Qed.

Lemma chain_drop s tl n :
  chain s tl → (n < length tl)%nat → ∃ s', chain s' (drop n tl).
Proof.
  intros Hc. revert n.
  induction Hc as [s Hs|s e t rest Hse Hrest IH]; intros n Hn.
  - destruct n; [|simpl in Hn; lia]. exists s. by apply chain_last.
  - destruct n as [|n].
    + exists s. by apply chain_cons.
    + simpl in *. apply IH. lia.
Qed.

Lemma interval_at_chain tl t :
  chain 0 tl → 0 ≤ t ≤ infinity →
  ∃ a, tl !! interval_at tl t = Some a ∧ includes a t = true.
Proof. intros Hc Ht. apply interval_at_found. by apply (chain_union 0 tl t Hc). Qed.

Lemma find_slot_chain tl job_end dur :
  chain 0 tl → 0 ≤ job_end ≤ infinity → is_Some (find_slot tl job_end dur).
Proof.
  intros Hc Ht. unfold find_slot.
  destruct (interval_at_chain tl job_end Hc Ht) as (a & Ha & _).
  apply lookup_lt_Some in Ha.
  destruct (chain_drop _ _ _ Hc Ha) as [s' Hs']. by eapply scan_chain.
Qed.

Lemma find_slot_spec tl job_end dur it :
  find_slot tl job_end dur = Some it →
  ∃ l1 iv l2,
    tl = l1 ++ iv :: l2 ∧ length l1 = it ∧
    (interval_at tl job_end ≤ it)%nat ∧
    occupied iv = false ∧ includes_from iv job_end dur = true ∧
    ∀ j b, (interval_at tl job_end ≤ j < it)%nat → tl !! j = Some b →
           skipped_by job_end dur b.
Proof.
  unfold find_slot. intros Hscan.
  apply scan_spec in Hscan as (sk & iv & r' & Hdrop & -> & Hsk & Hfree & Hinc).
  pose proof (interval_at_le tl job_end) as Hle.
  set (p := interval_at tl job_end) in *.
  assert (Htl : tl = (take p tl ++ sk) ++ iv :: r').
  { rewrite <-(take_drop p tl) at 1. rewrite Hdrop. by rewrite <-app_assoc. }
  exists (take p tl ++ sk), iv, r'. split_and!; [done| |lia|done..|].
  - rewrite length_app, length_take. lia.
  - intros j b [Hpj Hj] Hb.
    assert (Hb' : drop p tl !! (j - p)%nat = Some b).
    { rewrite lookup_drop. by replace (p + (j - p))%nat with j by lia. }
    rewrite Hdrop, lookup_app_l in Hb' by lia.
    rewrite Forall_lookup in Hsk. by eapply Hsk.
Qed.
End Search.


(** ** Placing a block *)
Section Placement.
Context `{TimeRep} `{StdSort}.

Lemma place_block_middle l1 iv l2 p st dur :
  place_block (l1 ++ iv :: l2) (length l1) p st dur =
  Some (l1 ++ split_block iv p st dur ++ l2).
Proof.
  unfold place_block, split_block, insert_before, insert_after.
  rewrite list_lookup_middle by done. simpl.
  rewrite insert_app_r_alt by lia. rewrite Nat.sub_diag. simpl.
  f_equal.
  destruct (start iv <? st); destruct (_ <? end_ iv); simpl.
  - rewrite take_app_length, drop_app_length.
    rewrite (cons_middle _ l1), app_assoc.
    rewrite (cons_middle _ (l1 ++ _)), app_assoc.
    rewrite take_app_length', drop_app_length'
      by (rewrite !length_app; simpl; lia).
    by rewrite <-!app_assoc.
  - by rewrite take_app_length, drop_app_length.
  - rewrite (cons_middle _ l1), app_assoc.
    rewrite take_app_length', drop_app_length'
      by (rewrite !length_app; simpl; lia).
    by rewrite <-!app_assoc.
  - done.
Qed.

Lemma chain_replace l1 s iv l2 mids :
  chain s (l1 ++ iv :: l2) →
  (chain (start iv) (iv :: l2) → chain (start iv) (mids ++ l2)) →
  chain s (l1 ++ mids ++ l2).
Proof.
  revert s. induction l1 as [|a l1 IH]; intros s Hc Hmid; simpl in *.
  - destruct (chain_head _ _ Hc) as (e & t & r & Heq & _). simplify_eq/=. by apply Hmid.
  - inversion Hc as [|s' e t rest Hse Hrest]; simplify_eq.
    + by destruct l1.
    + apply chain_cons; [done|]. by apply IH.
Qed.

Lemma chain_split_block iv l2 p st dur :
  chain (start iv) (iv :: l2) →
  0 ≤ start iv ≤ st → 0 < dur →
  st + dur - 1 ≤ end_ iv → st + dur ≤ infinity →
  chain (start iv) (split_block iv p st dur ++ l2).
Proof.
  intros Hc Hst Hdur Hfit Hinf. unfold split_block, interval_empty.
  destruct iv as [s0 e0 t0]; simpl in *.
  rewrite block_end_small, (tadd_small st dur) by lia.
  assert (Hafter : chain (st + dur)
    ((if st + dur - 1 <? e0
      then [mk_interval (st + dur) (e0) None] else []) ++ l2)).
  { inversion Hc as [s Hs|s e t rest Hse Hrest]; simplify_eq/=.
    - destruct (Z.ltb_spec (st + dur - 1) infinity); [|lia].
      simpl. apply chain_last. lia.
    - destruct (Z.ltb_spec (st + dur - 1) e0); simpl.
      + apply chain_cons; [lia|done].
      + by replace (st + dur) with (e0 + 1) by lia. }
  assert (Hblock : chain st
    (mk_interval st (st + dur - 1) (Some p) ::
     (if st + dur - 1 <? e0
      then [mk_interval (st + dur) (e0) None] else []) ++ l2)).
  { apply chain_cons; [lia|]. by replace (st + dur - 1 + 1) with (st + dur) by lia. }
  destruct (Z.ltb_spec (s0) st); simpl.
  - rewrite tsub_small by (pose proof infinity_pos; lia).
    apply chain_cons; [lia|]. by replace (st - 1 + 1) with st by lia.
  - by replace (s0) with st by lia.
Qed.

Lemma split_block_start iv p st dur a B :
  a ∈ split_block iv p st dur →
  start iv ≤ B → 0 ≤ st ≤ B → 0 < dur → B + dur ≤ infinity →
  start a ≤ B + dur.
Proof.
  unfold split_block, interval_empty. intros Ha Hiv Hst Hdur HB.
  rewrite (tadd_small st dur) in Ha by lia.
  apply elem_of_app in Ha as [Ha|Ha].
  - destruct (_ <? st); [|by apply elem_of_nil in Ha].
    apply list_elem_of_singleton in Ha as ->. simpl. lia.
  - apply elem_of_cons in Ha as [->|Ha]; [simpl; lia|].
    destruct (_ <? end_ iv); [|by apply elem_of_nil in Ha].
    apply list_elem_of_singleton in Ha as ->. simpl. lia.
Qed.

Lemma split_block_block iv p st dur :
  mk_interval st (tsub (tadd st dur) 1) (Some p) ∈ split_block iv p st dur.
Proof. unfold split_block. apply elem_of_app. right. apply list_elem_of_here. Qed.
End Placement.


(** ** One placement on one timeline *)
Section TimelineStep.
Context `{TimeRep} `{StdSort}.

Lemma includes_from_fits iv job_end dur B :
  includes_from iv job_end dur = true →
  0 ≤ start iv ≤ B → 0 ≤ job_end ≤ B → 0 < dur → B + dur ≤ infinity →
  Z.max (start iv) job_end + dur - 1 ≤ end_ iv.
Proof.
  unfold includes_from. intros Hinc Hiv Hje Hdur HB.
  rewrite block_end_small in Hinc by lia. lia.
Qed.

Lemma place_chain tl job_end dur p B :
  chain 0 tl → (∀ a, a ∈ tl → start a ≤ B) →
  0 ≤ job_end ≤ B → 0 < dur → B + dur ≤ infinity →
  ∃ it iv l1 l2 tl',
    find_slot tl job_end dur = Some it ∧
    tl = l1 ++ iv :: l2 ∧ length l1 = it ∧ occupied iv = false ∧
    place_block tl it p (Z.max (start iv) job_end) dur = Some tl' ∧
    tl' = l1 ++ split_block iv p (Z.max (start iv) job_end) dur ++ l2 ∧
    chain 0 tl' ∧ (∀ a, a ∈ tl' → start a ≤ B + dur) ∧
    0 ≤ start iv ≤ B ∧
    mk_interval (Z.max (start iv) job_end)
      (Z.max (start iv) job_end + dur - 1) (Some p) ∈ tl'.
Proof.
  intros Hc Hbound Hje Hdur HB.
  destruct (find_slot_chain tl job_end dur Hc) as [it Hit]; [lia|].
  destruct (find_slot_spec _ _ _ _ Hit) as (l1 & iv & l2 & -> & Hlen & _ & Hfree & Hinc & _).
  assert (Hin : iv ∈ l1 ++ iv :: l2) by (apply elem_of_app; right; apply list_elem_of_here).
  pose proof (chain_elem _ _ _ Hc Hin) as Hiv.
  pose proof (Hbound _ Hin) as HivB.
  pose proof (includes_from_fits _ _ _ B Hinc ltac:(lia) Hje Hdur HB) as Hfit.
  set (st := Z.max (start iv) job_end) in *.
  exists it, iv, l1, l2, (l1 ++ split_block iv p st dur ++ l2).
  split; [done|]. split; [done|]. split; [done|]. split; [done|].
  split; [subst it; apply place_block_middle|]. split; [done|].
  split; [|split; [|split; [lia|]]].
  - apply (chain_replace l1 0 iv l2); [done|].
    intros Hc'. apply chain_split_block; [done|lia..].
  - intros a Ha. rewrite !elem_of_app in Ha. destruct Ha as [Ha|[Ha|Ha]].
    + assert (start a ≤ B); [|lia].
      apply Hbound. apply elem_of_app. by left.
    + eapply split_block_start; [done|lia..].
    + assert (start a ≤ B); [|lia].
      apply Hbound. apply elem_of_app. right. by apply list_elem_of_further.
  - rewrite !elem_of_app. right. left.
    fold st. rewrite <-(block_end_small st dur) by lia. apply split_block_block.
Qed.
End TimelineStep.

Section DataFacts.
Context `{TimeRep} `{StdSort}.

Lemma alter_lookup_insert {A} (f : A → A) (l : list A) i x :
  l !! i = Some x → alter f i l = <[i := f x]> l.
Proof.
  revert i. induction l as [|a l IH]; intros [|i] Hi; simplify_eq/=; [done|].
  f_equal. by apply IH.
Qed.

Section Update.
Context (d : dataset) (k i : nat) (j : job) (t : task) (st fin : Z).
Context (Hj : jobs d !! k = Some j) (Ht : sequence j !! i = Some t).
Let d' := update_task d k i j t st fin.

Lemma update_task_job_eq :
  jobs d' !! k =
  Some (mk_job (job_id j) (<[i := set_scheduled_time st t]> (sequence j)) fin).
Proof. simpl. apply list_lookup_insert_eq. by eapply lookup_lt_Some. Qed.

Lemma update_task_job_ne k' : k' ≠ k → jobs d' !! k' = jobs d !! k'.
Proof. intros. simpl. by apply list_lookup_insert_ne. Qed.

Lemma update_task_at_eq : task_at d' (k, i) = Some (set_scheduled_time st t).
Proof.
  unfold task_at. simpl fst. simpl snd. rewrite update_task_job_eq. simpl.
  apply list_lookup_insert_eq. by eapply lookup_lt_Some.
Qed.

Lemma update_task_at_ne p : p ≠ (k, i) → task_at d' p = task_at d p.
Proof.
  destruct p as [k' i']. intros Hne. unfold task_at. simpl fst. simpl snd.
  destruct (decide (k' = k)) as [->|Hk].
  - rewrite update_task_job_eq, Hj. simpl.
    apply list_lookup_insert_ne. congruence.
  - by rewrite update_task_job_ne.
Qed.

Lemma update_task_dur p : dur_of d' p = dur_of d p.
Proof.
  unfold dur_of. destruct (decide (p = (k, i))) as [->|Hne].
  - rewrite update_task_at_eq. unfold task_at. simpl fst. simpl snd.
    by rewrite Hj; simpl; rewrite Ht.
  - by rewrite update_task_at_ne.
Qed.

Lemma update_task_sum l : sum_durs d' l = sum_durs d l.
Proof. induction l as [|p l IH]; simpl; [done|]. by rewrite update_task_dur, IH. Qed.

Lemma update_task_length k' :
  length (from_option sequence [] (jobs d' !! k')) =
  length (from_option sequence [] (jobs d !! k')).
Proof.
  destruct (decide (k' = k)) as [->|Hk].
  - rewrite update_task_job_eq, Hj. simpl. by rewrite length_insert.
  - by rewrite update_task_job_ne.
Qed.

Lemma update_task_ptrs : all_ptrs d' = all_ptrs d.
Proof.
  unfold all_ptrs. replace (length (jobs d')) with (length (jobs d))
    by (simpl; by rewrite length_insert).
  induction (seq 0 (length (jobs d))) as [|a l IH]; [done|].
  cbn [mbind list_bind]. by rewrite IH, update_task_length.
Qed.

Lemma update_task_total : total_duration d' = total_duration d.
Proof. unfold total_duration. by rewrite update_task_ptrs, update_task_sum. Qed.

Lemma update_task_lookup k' j' i' t' :
  jobs d' !! k' = Some j' → sequence j' !! i' = Some t' →
  ∃ j0 t0, jobs d !! k' = Some j0 ∧ sequence j0 !! i' = Some t0 ∧
    machine_id t' = machine_id t0 ∧ duration t' = duration t0 ∧
    parent t' = parent t0 ∧
    ((k', i') ≠ (k, i) → t' = t0) ∧
    ((k', i') = (k, i) → t0 = t ∧ scheduled_time t' = st) ∧
    (k' ≠ k → j' = j0) ∧
    (k' = k → j0 = j ∧ last_scheduled_time j' = fin).
Proof.
  intros Hj' Ht'. destruct (decide (k' = k)) as [->|Hk].
  - rewrite update_task_job_eq in Hj'. simplify_eq/=.
    destruct (decide (i' = i)) as [->|Hi].
    + rewrite list_lookup_insert_eq in Ht' by (by eapply lookup_lt_Some).
      simplify_eq/=. exists j, t. naive_solver.
    + rewrite list_lookup_insert_ne in Ht' by done.
      exists j, t'. naive_solver.
  - rewrite update_task_job_ne in Hj' by done.
    exists j', t'. naive_solver.
Qed.

Lemma update_task_static : static_ok d → static_ok d'.
Proof.
  intros [Htask Htot]. split.
  - intros k' j' i' t' Hj' Ht'.
    destruct (update_task_lookup _ _ _ _ Hj' Ht')
      as (j0 & t0 & Hj0 & Ht0 & -> & -> & -> & _).
    apply (Htask _ _ _ _ Hj0 Ht0).
  - by rewrite update_task_total.
Qed.
End Update.

Lemma schedule_task_eq s p m it st j t tl tl' :
  jobs (data s) !! p.1 = Some j → sequence j !! p.2 = Some t →
  parent t = p.1 → table s !! m = Some tl →
  place_block tl it p st (duration t) = Some tl' →
  schedule_task s p m it st =
  Some (mk_schedule (<[m := tl']> (table s))
          (update_task (data s) p.1 p.2 j t st (tadd st (duration t)))).
Proof.
  intros Hj Ht Hpar Htl Hplace. unfold schedule_task.
  rewrite Hj. simpl. rewrite Ht. simpl. rewrite Htl. simpl.
  rewrite Hplace. simpl. rewrite Hpar.
  assert (Hlt : (p.1 < length (jobs (data s)))%nat) by (by eapply lookup_lt_Some).
  rewrite (alter_lookup_insert (set_sequence _) (jobs (data s)) p.1 j) by done.
  rewrite list_lookup_insert_eq by done. simpl.
  rewrite (alter_lookup_insert _ (<[p.1:=_]> _) p.1 (set_sequence _ j))
    by (by apply list_lookup_insert_eq).
  rewrite list_insert_insert_eq.
  unfold update_task, set_jobs, set_sequence, set_last_scheduled_time. simpl.
  by rewrite (alter_lookup_insert _ (sequence j) p.2 t).
Qed.
End DataFacts.


(** ** The budget of a run: the work placed so far *)
Section Budget.
Context `{TimeRep} `{StdSort}.

Lemma task_at_Some d k i t :
  task_at d (k, i) = Some t ↔
  ∃ j, jobs d !! k = Some j ∧ sequence j !! i = Some t.
Proof.
  unfold task_at. simpl. split.
  - intros Hb. destruct (jobs d !! k) as [j|] eqn:Hj; [|done]. by exists j.
  - intros (j & -> & Ht). done.
Qed.

Lemma elem_of_all_ptrs d p : p ∈ all_ptrs d ↔ is_Some (task_at d p).
Proof.
  destruct p as [k i]. unfold all_ptrs. rewrite list_elem_of_bind. split.
  - intros (k' & Hin & Hk'). apply list_elem_of_fmap in Hin as (i' & Heq & Hi').
    assert (k' = k) as -> by congruence. assert (i' = i) as -> by congruence.
    clear Heq. apply elem_of_seq in Hk', Hi'.
    destruct (lookup_lt_is_Some_2 (jobs d) k) as [j Hj]; [lia|].
    rewrite Hj in Hi'. simpl in Hi'.
    destruct (lookup_lt_is_Some_2 (sequence j) i) as [t Ht]; [lia|].
    exists t. apply task_at_Some. eauto.
  - intros [t (j & Hj & Ht)%task_at_Some]. exists k. split.
    + apply list_elem_of_fmap. exists i. split; [done|].
      rewrite Hj. simpl. apply elem_of_seq. apply lookup_lt_Some in Ht. lia.
    + apply elem_of_seq. apply lookup_lt_Some in Hj. lia.
Qed.

Lemma dur_of_task d p t : task_at d p = Some t → dur_of d p = duration t.
Proof. unfold dur_of. by intros ->. Qed.

Lemma dur_of_nonneg d p : static_ok d → 0 ≤ dur_of d p.
Proof.
  intros Hst. unfold dur_of. destruct (task_at d p) as [t|] eqn:Ht; simpl; [|lia].
  destruct p as [k i]. apply task_at_Some in Ht as (j & Hj & Ht).
  destruct (st_task d Hst _ _ _ _ Hj Ht) as (_ & ? & _). lia.
Qed.

Lemma sum_durs_cons d p l : sum_durs d (p :: l) = dur_of d p + sum_durs d l.
Proof. done. Qed.

Lemma sum_durs_submseteq d l l' :
  static_ok d → l ⊆+ l' → sum_durs d l ≤ sum_durs d l'.
Proof.
  intros Hst. induction 1 as [|x l1 l2 _ IH|x y l|x l1 l2 _ IH|l1 l2 l3 _ IH1 _ IH2]; simpl.
  - lia.
  - lia.
  - lia.
  - pose proof (dur_of_nonneg d x Hst). lia.
  - lia.
Qed.

Lemma sum_durs_le_total d l :
  static_ok d → NoDup l → (∀ p, p ∈ l → is_Some (task_at d p)) →
  sum_durs d l ≤ total_duration d.
Proof.
  intros Hst Hnd Hval. apply sum_durs_submseteq; [done|].
  apply NoDup_submseteq; [done|]. intros p Hp. apply elem_of_all_ptrs. auto.
Qed.

Lemma sum_durs_nonneg d l : static_ok d → 0 ≤ sum_durs d l.
Proof.
  intros Hst. induction l as [|p l IH]; simpl; [lia|].
  pose proof (dur_of_nonneg d p Hst). lia.
Qed.
End Budget.


(** ** One call of [add_task] *)
Section Step.
Context `{TimeRep} `{StdSort}.

Lemma occupied_elem_replace (l1 l2 mids : list interval) iv a :
  a ∈ l1 ++ iv :: l2 → occupied a = true → occupied iv = false →
  a ∈ l1 ++ mids ++ l2.
Proof.
  rewrite !elem_of_app, elem_of_cons. intros [?|[->|?]] Ha Hiv; [auto| |auto].
  congruence.
Qed.

Lemma add_task_step done s k i :
  sched_inv done s →
  is_Some (task_at (data s) (k, i)) →
  (k, i) ∉ done →
  (i = O ∨ (k, pred i) ∈ done) →
  ∃ j t tl it iv tl',
    jobs (data s) !! k = Some j ∧ sequence j !! i = Some t ∧
    table s !! Z.to_nat (machine_id t) = Some tl ∧
    find_slot tl (last_scheduled_time j) (duration t) = Some it ∧
    tl !! it = Some iv ∧
    add_task s (k, i) =
      Some (mk_schedule (<[Z.to_nat (machine_id t) := tl']> (table s))
              (update_task (data s) k i j t
                 (Z.max (start iv) (last_scheduled_time j))
                 (Z.max (start iv) (last_scheduled_time j) + duration t))) ∧
    sched_inv ((k, i) :: done)
      (mk_schedule (<[Z.to_nat (machine_id t) := tl']> (table s))
         (update_task (data s) k i j t
            (Z.max (start iv) (last_scheduled_time j))
            (Z.max (start iv) (last_scheduled_time j) + duration t))).
Proof.
  intros Hinv [t Ht0] Hnotin Hprev.
  pose proof Ht0 as Ht. apply task_at_Some in Ht as (j & Hj & Ht).
  destruct Hinv as [Hst Htab Hchain Hcur Hnd Hval Hblock Hord Hprec].
  destruct (st_task _ Hst _ _ _ _ Hj Ht) as (Hpar & Hdur & Hm0 & Hm).
  set (m := Z.to_nat (machine_id t)) in *.
  destruct (lookup_lt_is_Some_2 (table s) m) as [tl Htl]; [lia|].
  destruct (Hchain _ _ Htl) as [Hc Hb].
  pose proof (Hcur _ _ Hj) as Hje.
  assert (Hnd' : NoDup ((k, i) :: done)) by (by apply NoDup_cons).
  assert (Hval' : ∀ p, p ∈ (k, i) :: done → is_Some (task_at (data s) p)).
  { intros p [->|Hp]%elem_of_cons; [by eexists|auto]. }
  assert (HB : sum_durs (data s) done + duration t ≤ infinity).
  { pose proof (sum_durs_le_total (data s) _ Hst Hnd' Hval') as Hle.
    simpl in Hle. rewrite (dur_of_task _ _ _ Ht0) in Hle.
    pose proof (st_total _ Hst). lia. }
  set (B := sum_durs (data s) done) in *.
  destruct (place_chain tl (last_scheduled_time j) (duration t) (k, i) B
              Hc Hb Hje Hdur HB)
    as (it & iv & l1 & l2 & tl' & Hfind & Heq & Hlen & Hfree & Hplace & Htl'
        & Hc' & Hb' & HivB & Hblk).
  set (st := Z.max (start iv) (last_scheduled_time j)) in *.
  assert (Hit : tl !! it = Some iv).
  { rewrite Heq. by apply list_lookup_middle. }
  exists j, t, tl, it, iv, tl'.
  split; [done|]. split; [done|]. split; [done|]. split; [done|]. split; [done|].
  set (d' := update_task (data s) k i j t st (st + duration t)).
  split.
  { unfold add_task. simpl fst. simpl snd. rewrite Hj. simpl. rewrite Ht. simpl.
    unfold machine_index. destruct (Z.ltb_spec (machine_id t) 0); [lia|]. simpl.
    fold m. rewrite Htl. simpl. rewrite Hpar, Hj. simpl. rewrite Hfind. simpl.
    rewrite Hit. simpl. fold st.
    rewrite (schedule_task_eq s (k, i) m it st j t tl tl') by done.
    simpl. rewrite tadd_small by lia. done. }
  assert (Hsum : ∀ l, sum_durs d' l = sum_durs (data s) l).
  { intros l. by apply update_task_sum. }
  split; cbn [table data].
  - by apply update_task_static.
  - by rewrite length_insert.
  - intros m' tl0 Htl0. rewrite Hsum, sum_durs_cons, (dur_of_task _ _ _ Ht0). fold B.
    destruct (decide (m' = m)) as [->|Hne].
    + rewrite list_lookup_insert_eq in Htl0 by (by eapply lookup_lt_Some).
      simplify_eq. split; [done|]. intros a Ha. specialize (Hb' a Ha). lia.
    + rewrite list_lookup_insert_ne in Htl0 by done.
      destruct (Hchain _ _ Htl0) as [Hc0 Hb0]. split; [done|].
      intros a Ha. specialize (Hb0 a Ha). lia.
  - intros k' j' Hj'. rewrite Hsum, sum_durs_cons, (dur_of_task _ _ _ Ht0). fold B.
    destruct (decide (k' = k)) as [->|Hne].
    + unfold d' in Hj'. rewrite update_task_job_eq in Hj' by done.
      simplify_eq/=. lia.
    + unfold d' in Hj'. rewrite update_task_job_ne in Hj' by done.
      specialize (Hcur _ _ Hj'). lia.
  - done.
  - intros p Hp. destruct (decide (p = (k, i))) as [->|Hne].
    + unfold d'. rewrite update_task_at_eq by done. by eexists.
    + unfold d'. rewrite update_task_at_ne by done. apply Hval.
      apply elem_of_cons in Hp as [?|?]; [done|done].
  - intros p t' Hp Ht'. destruct (decide (p = (k, i))) as [->|Hne].
    + unfold d' in Ht'. rewrite update_task_at_eq in Ht' by done.
      injection Ht' as <-.
      cbn [set_scheduled_time machine_id scheduled_time duration]. fold st m.
      exists tl'. split; [|done].
      apply list_lookup_insert_eq. by eapply lookup_lt_Some.
    + unfold d' in Ht'. rewrite update_task_at_ne in Ht' by done.
      apply elem_of_cons in Hp as [?|Hp]; [done|].
      destruct (Hblock _ _ Hp Ht') as (tl0 & Htl0 & Hin0).
      destruct (decide (Z.to_nat (machine_id t') = m)) as [Hm'|Hm'].
      * rewrite Hm' in *. exists tl'. split.
        { apply list_lookup_insert_eq. by eapply lookup_lt_Some. }
        assert (tl0 = tl) as -> by congruence.
        rewrite Htl'. rewrite Heq in Hin0.
        by eapply occupied_elem_replace.
      * exists tl0. split; [|done]. by rewrite list_lookup_insert_ne.
  - intros k' i' j' t' Hp Hj' Ht'.
    destruct (update_task_lookup (data s) k i j t st (st + duration t) Hj Ht
                _ _ _ _ Hj' Ht')
      as (j0 & t0 & Hj0 & Ht0' & _ & Hd & _ & Hne & Heq' & Hjne & Hjeq).
    destruct (decide ((k', i') = (k, i))) as [Hpe|Hpe].
    + destruct (Heq' Hpe) as [-> Hs]. destruct (Hjeq ltac:(congruence)) as [_ Hl].
      rewrite Hs, Hl, Hd. lia.
    + apply elem_of_cons in Hp as [?|Hp]; [done|].
      rewrite (Hne Hpe). destruct (Hord _ _ _ _ Hp Hj0 Ht0') as [Hs0 Hl0].
      split; [done|]. destruct (decide (k' = k)) as [Hk|Hk].
      * destruct (Hjeq Hk) as [-> ->]. lia.
      * by rewrite (Hjne Hk).
  - intros k' i' j' ta tb Hp Hj' Hta Htb.
    destruct (update_task_lookup (data s) k i j t st (st + duration t) Hj Ht
                _ _ _ _ Hj' Hta)
      as (j0 & ta0 & Hj0 & Hta0 & _ & Hda & _ & Hnea & Heqa & _ & Hjeq).
    destruct (update_task_lookup (data s) k i j t st (st + duration t) Hj Ht
                _ _ _ _ Hj' Htb)
      as (j1 & tb0 & Hj1 & Htb0 & _ & Hdb & _ & Hneb & Heqb & _ & _).
    assert (j1 = j0) as -> by congruence.
    apply elem_of_cons in Hp as [Hp|Hp].
    + assert (k' = k) as -> by congruence. assert (i = S i') as -> by congruence.
      destruct Hprev as [?|Hprev]; [done|]. simpl in Hprev.
      assert (Hpa : (k, i') ≠ (k, S i')) by (intros [=]; lia).
      rewrite (Hnea Hpa). destruct (Heqb eq_refl) as [_ ->].
      destruct (Hjeq eq_refl) as [-> _].
      destruct (Hord _ _ _ _ Hprev Hj Hta0). split; [by apply list_elem_of_further|lia].
    + destruct (Hprec _ _ _ _ _ Hp Hj0 Hta0 Htb0) as [Hin Hle].
      split; [by apply list_elem_of_further|].
      assert (Hpa : (k', i') ≠ (k, i)) by (intros [= -> ->]; contradiction).
      assert (Hpb : (k', S i') ≠ (k, i)) by (intros [= -> <-]; contradiction).
      by rewrite (Hnea Hpa), (Hneb Hpb).
Qed.
End Step.


(** ** Runs: sequences of calls of [add_task] *)

Section RunFacts.
Context `{TimeRep} `{StdSort}.

Lemma valid_shape d k i :
  is_Some (task_at d (k, i)) ↔ ∃ n, shape d !! k = Some n ∧ (i < n)%nat.
Proof.
  unfold shape. rewrite list_lookup_fmap. split.
  - intros [t (j & Hj & Ht)%task_at_Some]. exists (length (sequence j)).
    rewrite Hj. split; [done|]. by eapply lookup_lt_Some.
  - intros (n & Hn & Hi). destruct (jobs d !! k) as [j|] eqn:Hj; simplify_eq/=.
    destruct (lookup_lt_is_Some_2 (sequence j) i) as [t Ht]; [lia|].
    exists t. apply task_at_Some. eauto.
Qed.

Lemma valid_same_shape d d' p :
  shape d = shape d' → is_Some (task_at d p) → is_Some (task_at d' p).
Proof. destruct p as [k i]. rewrite !valid_shape. by intros ->. Qed.

Lemma update_task_shape d k i j t st fin :
  jobs d !! k = Some j → sequence j !! i = Some t →
  shape (update_task d k i j t st fin) = shape d.
Proof.
  intros Hj Ht. unfold shape, update_task. simpl.
  rewrite list_fmap_insert. apply list_insert_id.
  rewrite list_lookup_fmap, Hj. simpl. by rewrite length_insert.
Qed.

Lemma call_order_shape d d' done ps :
  shape d = shape d' → call_order d done ps → call_order d' done ps.
Proof.
  intros Hsh. induction 1 as [|done k i rest Hval Hnot Hprev _ IH]; constructor; try done.
  by eapply valid_same_shape.
Qed.

Lemma call_order_app d done ps1 ps2 :
  call_order d done (ps1 ++ ps2) ↔
  call_order d done ps1 ∧ call_order d (reverse ps1 ++ done) ps2.
Proof.
  revert done. induction ps1 as [|[k i] ps1 IH]; intros done; simpl.
  - split; [intros; split; [constructor|done]|by intros [_ ?]].
  - rewrite reverse_cons, <-app_assoc. simpl. split.
    + inversion 1 as [|? ? ? ? Hval Hnot Hprev Hrest]; simplify_eq.
      apply IH in Hrest as [? ?]. split; [by constructor|done].
    + intros [Hc1 Hc2]. inversion Hc1 as [|? ? ? ? Hval Hnot Hprev Hrest]; simplify_eq.
      constructor; [done..|]. apply IH. done.
Qed.

Lemma run_tasks_app s ps1 ps2 :
  run_tasks s (ps1 ++ ps2) = s' ← run_tasks s ps1; run_tasks s' ps2.
Proof.
  revert s. induction ps1 as [|p ps1 IH]; intros s; simpl; [done|].
  destruct (add_task s p) as [s'|]; simpl; [apply IH|done].
Qed.

Lemma run_tasks_inv ps done s :
  sched_inv done s → call_order (data s) done ps →
  ∃ s', run_tasks s ps = Some s' ∧ sched_inv (reverse ps ++ done) s' ∧
        shape (data s') = shape (data s) ∧
        machine_count (data s') = machine_count (data s).
Proof.
  revert done s. induction ps as [|p ps IH]; intros done s Hinv Hco.
  - exists s. by simpl.
  - inversion Hco as [|? k i ? Hval Hnot Hprev Hrest]; simplify_eq.
    destruct (add_task_step done s k i Hinv Hval Hnot Hprev)
      as (j & t & tl & it & iv & tl' & Hj & Ht & _ & _ & _ & Hadd & Hinv').
    set (s1 := mk_schedule _ _) in *.
    assert (Hsh : shape (data s1) = shape (data s)) by (by apply update_task_shape).
    destruct (IH ((k, i) :: done) s1 Hinv') as (s' & Hrun & Hinv'' & Hsh' & Hmc).
    { eapply call_order_shape; [|done]. done. }
    exists s'. simpl. rewrite Hadd. simpl. rewrite reverse_cons, <-app_assoc. simpl.
    split; [done|]. split; [done|]. split; [congruence|]. by rewrite Hmc.
Qed.

Lemma schedule_new_inv d : wf_dataset d → sched_inv [] (schedule_new d).
Proof.
  intros [Hst Hcur]. split; simpl.
  - done.
  - by rewrite length_fmap, length_replicate.
  - intros m tl Htl. rewrite list_lookup_fmap in Htl.
    destruct (replicate (machine_count d) [] !! m) as [l|] eqn:Hl; [|done].
    apply lookup_replicate in Hl as [-> _]. simplify_eq/=.
    split.
    + apply chain_last. pose proof infinity_pos. lia.
    + intros a ->%list_elem_of_singleton. done.
  - intros k j Hj. rewrite (Hcur j); [done|]. by eapply list_elem_of_lookup_2.
  - constructor.
  - intros p Hp. by apply elem_of_nil in Hp.
  - intros p t Hp. by apply elem_of_nil in Hp.
  - intros k i j t Hp. by apply elem_of_nil in Hp.
  - intros k i j t t' Hp. by apply elem_of_nil in Hp.
Qed.
End RunFacts.


(** ** The dispatch loop as a run *)

Section Dispatch.
Context `{TimeRep} `{StdSort}.

Lemma add_tasks_run s i order :
  add_tasks s i order = run_tasks s (stage_ptrs i order).
Proof.
  revert s. induction order as [|k order IH]; intros s; simpl; [done|].
  destruct (add_task s (k, i)); simpl; [apply IH|done].
Qed.

Lemma stage_cmp_swo h js i :
  heuristic_ok h → (∀ j, j ∈ js → (i < length (sequence j))%nat) →
  strict_weak_order (λ k, k ∈ seq 0 (length js)) (stage_cmp h js i).
Proof.
  intros Hh Hlen.
  assert (Hjob : ∀ k, k ∈ seq 0 (length js) →
            ∃ j, js !! k = Some j ∧ (i < length (sequence j))%nat).
  { intros k Hk%elem_of_seq. destruct (lookup_lt_is_Some_2 js k) as [j Hj]; [lia|].
    exists j. split; [done|]. apply Hlen. by eapply list_elem_of_lookup_2. }
  destruct (Hh i) as [Hirr Htr Hinc]. unfold stage_cmp. split.
  - intros a (ja & -> & Ha)%Hjob. by apply Hirr.
  - intros a b c (ja & -> & Ha)%Hjob (jb & -> & Hb)%Hjob (jc & -> & Hc)%Hjob.
    by apply Htr.
  - intros a b c (ja & -> & Ha)%Hjob (jb & -> & Hb)%Hjob (jc & -> & Hc)%Hjob.
    by apply Hinc.
Qed.

Lemma stage_run h s i :
  heuristic_ok h →
  (∀ j, j ∈ jobs (data s) → (i < length (sequence j))%nat) →
  ∃ order, order ≡ₚ seq 0 (length (jobs (data s))) ∧
    stage h s i = run_tasks s (stage_ptrs i order).
Proof.
  intros Hh Hlen. unfold stage.
  destruct (sort_spec nat (stage_cmp h (jobs (data s)) i)
              (seq 0 (length (jobs (data s)))))
    as [Hperm _]; [by apply stage_cmp_swo|].
  eexists. split; [exact Hperm|]. apply add_tasks_run.
Qed.

Lemma stage_call_order d done i order :
  NoDup order →
  (∀ k, k ∈ order →
     is_Some (task_at d (k, i)) ∧ ((k, i) ∉ done) ∧
     (i = O ∨ (k, pred i) ∈ done)) →
  call_order d done (stage_ptrs i order).
Proof.
  revert done. induction order as [|k order IH]; intros done Hnd Hk; simpl.
  - constructor.
  - apply NoDup_cons in Hnd as [Hnotin Hnd].
    destruct (Hk k) as (Hval & Hnot & Hprev); [apply list_elem_of_here|].
    constructor; [done..|]. apply IH; [done|].
    intros k' Hk'. destruct (Hk k') as (Hval' & Hnot' & Hprev');
      [by apply list_elem_of_further|].
    split; [done|]. split.
    + intros [?|?]%elem_of_cons; [|done]. congruence.
    + destruct Hprev' as [?|?]; [by left|right; by apply list_elem_of_further].
Qed.

Lemma shape_replicate_job d n len j :
  shape d = replicate n len → j ∈ jobs d → length (sequence j) = len.
Proof.
  intros Hsh [k Hk]%list_elem_of_lookup_1.
  assert (Hl : shape d !! k = Some (length (sequence j))).
  { unfold shape. by rewrite list_lookup_fmap, Hk. }
  rewrite Hsh in Hl. by apply lookup_replicate in Hl as [-> _].
Qed.

Lemma shape_replicate_length d n len :
  shape d = replicate n len → length (jobs d) = n.
Proof.
  intros Hsh. assert (Hl : length (shape d) = n) by (by rewrite Hsh, length_replicate).
  unfold shape in Hl. by rewrite length_fmap in Hl.
Qed.

Lemma shape_replicate_valid d n len k i :
  shape d = replicate n len →
  is_Some (task_at d (k, i)) ↔ (k < n)%nat ∧ (i < len)%nat.
Proof.
  intros Hsh. rewrite valid_shape, Hsh. split.
  - intros (m & [-> ?]%lookup_replicate & ?). done.
  - intros [? ?]. exists len. split; [by apply lookup_replicate|done].
Qed.

Lemma stages_run h n len :
  heuristic_ok h →
  ∀ cnt i done s,
    (i + cnt = len)%nat →
    sched_inv done s →
    shape (data s) = replicate n len →
    (∀ k i', (k, i') ∈ done ↔ (k < n)%nat ∧ (i' < i)%nat) →
    ∃ ps s',
      stages h s (seq i cnt) = Some s' ∧
      run_tasks s ps = Some s' ∧
      call_order (data s) done ps ∧
      sched_inv (reverse ps ++ done) s' ∧
      shape (data s') = replicate n len ∧
      machine_count (data s') = machine_count (data s) ∧
      (∀ k i', (k, i') ∈ reverse ps ++ done ↔ (k < n)%nat ∧ (i' < i + cnt)%nat).
Proof.
  intros Hh. induction cnt as [|cnt IH]; intros i done s Hic Hinv Hsh Hdone.
  - exists [], s. simpl. split_and!; try done; [constructor|].
    intros k i'. rewrite Hdone. split; intros [? ?]; split; lia.
  - simpl.
    destruct (stage_run h s i Hh) as (order & Hperm & Hstage).
    { intros j Hj. rewrite (shape_replicate_job _ _ _ _ Hsh Hj). lia. }
    rewrite (shape_replicate_length _ _ _ Hsh) in Hperm.
    assert (Hnd : NoDup order) by (rewrite Hperm; apply NoDup_seq).
    assert (Hin : ∀ k, k ∈ order ↔ (k < n)%nat).
    { intros k. rewrite Hperm, elem_of_seq. lia. }
    assert (Hco : call_order (data s) done (stage_ptrs i order)).
    { apply stage_call_order; [done|]. intros k Hk%Hin. split_and!.
      - apply (shape_replicate_valid _ _ _ _ _ Hsh). lia.
      - rewrite Hdone. lia.
      - destruct i as [|i]; [by left|right]. apply Hdone. simpl. lia. }
    destruct (run_tasks_inv _ _ _ Hinv Hco) as (s1 & Hrun1 & Hinv1 & Hsh1 & Hmc1).
    rewrite Hstage, Hrun1. simpl.
    assert (Hdone1 : ∀ k i', (k, i') ∈ reverse (stage_ptrs i order) ++ done ↔
                             (k < n)%nat ∧ (i' < S i)%nat).
    { intros k i'. rewrite elem_of_app, elem_of_reverse, Hdone. unfold stage_ptrs.
      rewrite list_elem_of_fmap. split.
      - intros [(k' & [= -> ->] & Hk'%Hin)|[? ?]]; lia.
      - intros [Hk Hi']. destruct (decide (i' = i)) as [->|?].
        + left. exists k. split; [done|]. by apply Hin.
        + right. lia. }
    destruct (IH (S i) _ s1 ltac:(lia) Hinv1 ltac:(congruence) Hdone1)
      as (ps & s' & Hstages & Hrun & Hco' & Hinv' & Hsh' & Hmc' & Hdone').
    exists (stage_ptrs i order ++ ps), s'.
    split; [done|]. split; [by rewrite run_tasks_app, Hrun1|].
    split.
    { apply call_order_app. split; [done|].
      eapply call_order_shape; [|done]. done. }
    rewrite reverse_app, <-app_assoc.
    split; [done|]. split; [done|]. split; [congruence|].
    intros k i'. rewrite Hdone'. split; intros [? ?]; split; lia.
Qed.
End Dispatch.


(** ** [schedule_jobs] as a run *)
Section ScheduleJobs.
Context `{TimeRep} `{StdSort}.

Lemma uniform_shape d len :
  uniform d len → shape d = replicate (length (jobs d)) len.
Proof.
  intros [_ Hlen]. unfold shape.
  induction (jobs d) as [|j js IH]; simpl; [done|].
  rewrite (Hlen j) by apply list_elem_of_here. f_equal.
  apply IH. intros j' Hj'. apply Hlen. by apply list_elem_of_further.
Qed.

Lemma schedule_jobs_run d h len :
  wf_dataset d → uniform d len → heuristic_ok h →
  ∃ ps s,
    call_order d [] ps ∧
    (∀ p, p ∈ ps ↔ is_Some (task_at d p)) ∧
    run_tasks (schedule_new d) ps = Some s ∧
    sched_inv (reverse ps) s ∧
    shape (data s) = shape d ∧
    machine_count (data s) = machine_count d ∧
    stages h (schedule_new d) (seq 0 len) = Some s ∧
    schedule_jobs h (schedule_new d) = Some (sort_jobs s).
Proof.
  intros Hwf Huni Hh.
  pose proof (uniform_shape d len Huni) as Hsh.
  destruct (stages_run h (length (jobs d)) len Hh len O [] (schedule_new d))
    as (ps & s & Hstages & Hrun & Hco & Hinv & Hsh' & Hmc & Hdone).
  { lia. }
  { by apply schedule_new_inv. }
  { done. }
  { intros k i'. split; [by intros ?%elem_of_nil|lia]. }
  rewrite app_nil_r in Hinv, Hdone.
  exists ps, s. split; [done|]. split.
  { intros [k i]. rewrite <-elem_of_reverse, Hdone.
    by rewrite (shape_replicate_valid d _ len k i Hsh). }
  split; [done|]. split; [done|]. split; [by rewrite Hsh|]. split; [done|].
  split; [done|].
  unfold schedule_jobs. destruct Huni as [Hne Hlen].
  destruct (jobs d) as [|j0 js] eqn:Hjobs; [done|].
  cbn [schedule_new data jobs]. rewrite Hjobs. simpl lookup. cbn [mbind option_bind].
  rewrite (Hlen j0) by apply list_elem_of_here.
  by rewrite Hstages.
Qed.
End ScheduleJobs.

(** ** Strict weak orderings at hand *)
Section Orders.

Lemma id_less_swo (P : job → Prop) : strict_weak_order P id_less.
Proof.
  unfold id_less. split.
  - intros a _. apply Z.ltb_irrefl.
  - intros a b c _ _ _. rewrite !Z.ltb_lt. lia.
  - intros a b c _ _ _. rewrite !Z.ltb_ge. lia.
Qed.

Lemma stachu_heuristic_ok : heuristic_ok stachu_heuristic.
Proof.
  intros i. unfold stachu_heuristic. rewrite Nat2Z.id.
  assert (Hget : ∀ j, (i < length (sequence j))%nat →
            ∃ t, sequence j !! i = Some t).
  { intros j Hj. by apply lookup_lt_is_Some_2. }
  split.
  - intros a (t & ->)%Hget. apply Z.ltb_irrefl.
  - intros a b c (ta & ->)%Hget (tb & ->)%Hget (tc & ->)%Hget.
    rewrite !Z.ltb_lt. lia.
  - intros a b c (ta & ->)%Hget (tb & ->)%Hget (tc & ->)%Hget.
    rewrite !Z.ltb_ge. lia.
Qed.

Lemma strict_weak_order_asym {A} (P : A → Prop) cmp a b :
  strict_weak_order P cmp → P a → P b → cmp a b = true → cmp b a = false.
Proof.
  intros [Hirr Htr _] Ha Hb Hab. destruct (cmp b a) eqn:Hba; [|done].
  rewrite <-(Hirr a Ha). symmetry. by apply (Htr a b a).
Qed.
End Orders.

(** ** The last sort of [schedule_jobs] *)
Section FinalSort.
Context `{StdSort}.

Lemma tagged_id_less_swo (P : nat * job → Prop) :
  strict_weak_order P tagged_id_less.
Proof.
  destruct (id_less_swo (λ _, True)) as [Hirr Htr Hinc].
  unfold tagged_id_less. split.
  - intros a _. by apply Hirr.
  - intros a b c _ _ _. by apply Htr.
  - intros a b c _ _ _. by apply Hinc.
Qed.

Lemma imap_pair_lookup (js : list job) n k j :
  imap pair js !! n = Some (k, j) ↔ n = k ∧ js !! k = Some j.
Proof.
  rewrite list_lookup_imap. split.
  - destruct (js !! n) as [x|] eqn:Hx; [|done]. simpl. intros [= <- <-]. done.
  - intros [-> ->]. done.
Qed.

Lemma imap_pair_snd (js : list job) : (imap pair js).*2 = js.
Proof.
  apply list_eq. intros n. rewrite list_lookup_fmap, list_lookup_imap.
  by destruct (js !! n).
Qed.

Lemma imap_pair_fst (js : list job) : (imap pair js).*1 = seq 0 (length js).
Proof.
  apply list_eq. intros n. rewrite list_lookup_fmap, list_lookup_imap.
  destruct (js !! n) as [x|] eqn:Hx; simpl.
  - symmetry. apply lookup_seq. split; [done|]. by eapply lookup_lt_Some.
  - symmetry. apply lookup_seq_ge. by apply lookup_ge_None.
Qed.

Section Sorted.
Variable js : list job.
Let sorted := sort tagged_id_less (imap pair js).

Lemma sorted_perm : sorted ≡ₚ imap pair js.
Proof. by destruct (sort_spec _ tagged_id_less (imap pair js) (tagged_id_less_swo _)). Qed.

Lemma sorted_ascending i j a b :
  (i < j)%nat → sorted !! i = Some a → sorted !! j = Some b →
  job_id a.2 ≤ job_id b.2.
Proof.
  destruct (sort_spec _ tagged_id_less (imap pair js) (tagged_id_less_swo _))
    as [_ Hsorted].
  intros Hij Ha Hb. specialize (Hsorted i j a b Hij Ha Hb).
  unfold tagged_id_less, id_less in Hsorted. by apply Z.ltb_ge in Hsorted.
Qed.

Lemma sorted_jobs_perm : sorted.*2 ≡ₚ js.
Proof. rewrite sorted_perm. by rewrite imap_pair_snd. Qed.

Lemma sorted_length : length sorted = length js.
Proof. rewrite sorted_perm. by rewrite length_imap. Qed.

Lemma sorted_elem k j : (k, j) ∈ sorted ↔ js !! k = Some j.
Proof.
  rewrite sorted_perm, list_elem_of_lookup. split.
  - intros [n Hn]. by apply imap_pair_lookup in Hn as [_ ?].
  - intros Hj. exists k. by apply imap_pair_lookup.
Qed.

Lemma sorted_NoDup : NoDup sorted.*1.
Proof. rewrite sorted_perm, imap_pair_fst. apply NoDup_seq. Qed.

Lemma moved_to_lookup n k j : sorted !! n = Some (k, j) → moved_to sorted k = n.
Proof.
  intros Hn. unfold moved_to.
  destruct (list_find (λ x : nat * job, x.1 = k) sorted) as [[n' x]|] eqn:Hfind.
  - apply list_find_Some in Hfind as (Hn' & Hx & _). simpl.
    apply (NoDup_lookup _ n' n k sorted_NoDup).
    + by rewrite list_lookup_fmap, Hn', <-Hx.
    + by rewrite list_lookup_fmap, Hn.
  - apply list_find_None in Hfind. rewrite Forall_forall in Hfind.
    destruct (Hfind (k, j)); [by eapply list_elem_of_lookup_2|done].
Qed.

Lemma moved_to_valid k j :
  js !! k = Some j → sorted !! moved_to sorted k = Some (k, j).
Proof.
  intros Hj. apply sorted_elem, list_elem_of_lookup in Hj as [n Hn].
  by rewrite (moved_to_lookup n k j Hn).
Qed.

Lemma moved_to_invalid k : js !! k = None → moved_to sorted k = k.
Proof.
  intros Hk. unfold moved_to.
  destruct (list_find (λ x : nat * job, x.1 = k) sorted) as [[n [k' j']]|] eqn:Hfind;
    [|done].
  apply list_find_Some in Hfind as (Hn & Hx & _). simpl in Hx. subst k'.
  apply list_elem_of_lookup_2, sorted_elem in Hn. congruence.
Qed.

(** The job at the place a job has moved to is that job. *)
Lemma moved_to_job k : sorted.*2 !! moved_to sorted k = js !! k.
Proof.
  destruct (js !! k) as [j|] eqn:Hj.
  - by rewrite list_lookup_fmap, (moved_to_valid k j Hj).
  - rewrite moved_to_invalid by done. apply lookup_ge_None.
    rewrite length_fmap, sorted_length. by apply lookup_ge_None.
Qed.

Lemma moved_to_inj k k' :
  is_Some (js !! k) → moved_to sorted k = moved_to sorted k' → k = k'.
Proof.
  intros [j Hj] Heq. pose proof (moved_to_valid k j Hj) as Hk.
  destruct (js !! k') as [j'|] eqn:Hj'.
  - pose proof (moved_to_valid k' j' Hj') as Hk'. rewrite Heq in Hk. congruence.
  - rewrite (moved_to_invalid k' Hj') in Heq. rewrite Heq in Hk.
    apply lookup_lt_Some in Hk. rewrite sorted_length in Hk.
    apply lookup_ge_None in Hj'. lia.
Qed.
End Sorted.

Lemma follow_free sorted iv : itask (follow sorted iv) = None ↔ itask iv = None.
Proof. unfold follow. simpl. by destruct (itask iv). Qed.

Lemma chain_follow `{TimeRep} sorted st tl :
  chain st tl → chain st (follow sorted <$> tl).
Proof.
  induction 1 as [s Hs|s e t rest Hse Hrest IH]; simpl.
  - by apply chain_last.
  - by apply chain_cons.
Qed.

(** After the sort a pointer that has followed its task designates the task
    it designated before. *)
Lemma sort_jobs_task_at `{TimeRep} s p :
  task_at (data (sort_jobs s))
    (moved_to (sort tagged_id_less (imap pair (jobs (data s)))) p.1, p.2) =
  task_at (data s) p.
Proof. unfold task_at. simpl. by rewrite moved_to_job. Qed.

Lemma sort_jobs_table `{TimeRep} s m :
  table (sort_jobs s) !! m =
  (λ tl : timeline,
     follow (sort tagged_id_less (imap pair (jobs (data s)))) <$> tl)
  <$> table s !! m.
Proof. simpl. by rewrite list_lookup_fmap. Qed.

Lemma sort_jobs_ascending `{TimeRep} s i j a b :
  (i < j)%nat →
  jobs (data (sort_jobs s)) !! i = Some a →
  jobs (data (sort_jobs s)) !! j = Some b →
  job_id a ≤ job_id b.
Proof.
  simpl. rewrite !list_lookup_fmap. intros Hij Ha Hb.
  destruct (sort tagged_id_less (imap pair (jobs (data s))) !! i)
    as [x|] eqn:Hx; [|done].
  destruct (sort tagged_id_less (imap pair (jobs (data s))) !! j)
    as [y|] eqn:Hy; [|done].
  simpl in Ha, Hb. simplify_eq.
  by apply (sorted_ascending (jobs (data s)) i j).
Qed.
End FinalSort.

(** ** Insertion sort meets the contract of [std::sort] *)
Section InsertionFacts.
Context {A : Type} (cmp : A → A → bool).

Lemma insert_sorted_perm x l : insert_sorted cmp x l ≡ₚ x :: l.
Proof.
  induction l as [|y l IH]; simpl; [done|].
  destruct (cmp x y); [done|]. by rewrite IH, Permutation_swap.
Qed.

Lemma insertion_sort_perm l : insertion_sort cmp l ≡ₚ l.
Proof.
  induction l as [|x l IH]; simpl; [done|].
  by rewrite insert_sorted_perm, IH.
Qed.

Lemma insert_sorted_sorted (P : A → Prop) x l :
  strict_weak_order P cmp → P x → Forall P l →
  StronglySorted (not_before cmp) l →
  StronglySorted (not_before cmp) (insert_sorted cmp x l).
Proof.
  intros Hswo Hx. induction l as [|y l IH]; intros HP Hs; simpl.
  - repeat constructor.
  - apply Forall_cons in HP as [Hy HP].
    apply StronglySorted_inv in Hs as [Hs Hy'].
    destruct (cmp x y) eqn:Hxy.
    + constructor; [by constructor|]. constructor.
      * by eapply strict_weak_order_asym.
      * rewrite Forall_forall in Hy', HP. apply Forall_forall. intros z Hz.
        unfold not_before in *. destruct (cmp z x) eqn:Hzx; [|done].
        rewrite <-(Hy' z Hz). symmetry.
        apply (swo_trans P cmp Hswo z x y); auto.
    + constructor; [by apply IH|].
      rewrite insert_sorted_perm. by constructor.
Qed.

Lemma insertion_sort_sorted (P : A → Prop) l :
  strict_weak_order P cmp → Forall P l →
  StronglySorted (not_before cmp) (insertion_sort cmp l).
Proof.
  intros Hswo. induction l as [|x l IH]; intros HP; simpl.
  - constructor.
  - apply Forall_cons in HP as [Hx HP].
    apply (insert_sorted_sorted P); [done..| |by apply IH].
    by rewrite insertion_sort_perm.
Qed.

Lemma StronglySorted_sorted_by l :
  StronglySorted (not_before cmp) l → sorted_by cmp l.
Proof.
  induction 1 as [|a l Hs IH Ha]; intros i j x y Hij Hi Hj; [done|].
  destruct j as [|j]; [lia|]. simpl in Hj. destruct i as [|i].
  - simplify_eq/=. rewrite Forall_forall in Ha. apply Ha.
    by eapply list_elem_of_lookup_2.
  - simpl in Hi. apply (IH i j); [lia|done..].
Qed.
End InsertionFacts.

Lemma insertion_sort_spec (A : Type) (cmp : A → A → bool) (l : list A) :
  strict_weak_order (λ a, a ∈ l) cmp →
  insertion_sort cmp l ≡ₚ l ∧ sorted_by cmp (insertion_sort cmp l).
Proof.
  intros Hswo. split; [apply insertion_sort_perm|].
  apply StronglySorted_sorted_by.
  apply (insertion_sort_sorted cmp (λ a, a ∈ l)); [done|].
  by apply Forall_forall.
Qed.

Definition insertion_StdSort : StdSort :=
  {| sort := @insertion_sort; sort_spec := insertion_sort_spec |}.


(** ** Properties of the schedule under construction *)

Section RunProperties.
Context `{TimeRep} `{StdSort}.

Lemma add_task_table s p s' :
  add_task s p = Some s' →
  ∃ t pj m tl it iv tl',
    task_at (data s) p = Some t ∧ jobs (data s) !! parent t = Some pj ∧
    machine_index t = Some m ∧ table s !! m = Some tl ∧
    find_slot tl (last_scheduled_time pj) (duration t) = Some it ∧
    tl !! it = Some iv ∧
    place_block tl it p (Z.max (start iv) (last_scheduled_time pj)) (duration t)
      = Some tl' ∧
    table s' = <[m := tl']> (table s).
Proof.
  unfold add_task. intros Hadd.
  destruct (jobs (data s) !! p.1) as [j|] eqn:Hj; [|done]. simpl in Hadd.
  destruct (sequence j !! p.2) as [t|] eqn:Ht; [|done]. simpl in Hadd.
  destruct (machine_index t) as [m|] eqn:Hm; [|done]. simpl in Hadd.
  destruct (table s !! m) as [tl|] eqn:Htl; [|done]. simpl in Hadd.
  destruct (jobs (data s) !! parent t) as [pj|] eqn:Hpj; [|done]. simpl in Hadd.
  destruct (find_slot tl (last_scheduled_time pj) (duration t)) as [it|] eqn:Hfind;
    [|done]. simpl in Hadd.
  destruct (tl !! it) as [iv|] eqn:Hiv; [|done]. simpl in Hadd.
  unfold schedule_task in Hadd. rewrite Hj in Hadd. simpl in Hadd.
  rewrite Ht in Hadd. simpl in Hadd. rewrite Htl in Hadd. simpl in Hadd.
  destruct (place_block tl it p _ (duration t)) as [tl'|] eqn:Hplace; [|done].
  simpl in Hadd.
  destruct (alter _ p.1 (jobs (data s)) !! parent t); [|done].
  simpl in Hadd. simplify_eq.
  exists t, pj, m, tl, it, iv, tl'. split; [|done].
  unfold task_at. by rewrite Hj.
Qed.

Lemma add_task_keeps_timelines s p s' t pj :
  add_task s p = Some s' →
  task_at (data s) p = Some t → jobs (data s) !! parent t = Some pj →
  0 < duration t → 0 ≤ last_scheduled_time pj →
  (∀ m tl a, machine_index t = Some m → table s !! m = Some tl → a ∈ tl →
     Z.max (start a) (last_scheduled_time pj) + duration t ≤ infinity) →
  (∀ tl, tl ∈ table s → timeline_inv tl) →
  ∀ tl, tl ∈ table s' → timeline_inv tl.
Proof.
  intros Hadd Ht Hpj Hdur Hje Hfit Hinv.
  destruct (add_task_table s p s' Hadd)
    as (t' & pj' & m & tl & it & iv & tl' & Ht' & Hpj' & Hm & Htl & Hfind & Hiv
        & Hplace & Htab).
  assert (t' = t) as -> by congruence. assert (pj' = pj) as -> by congruence.
  assert (Hc : chain 0 tl).
  { apply timeline_inv_chain, Hinv. by eapply list_elem_of_lookup_2. }
  set (B := infinity - duration t).
  assert (Hb : ∀ a, a ∈ tl → start a ≤ B).
  { intros a Ha. specialize (Hfit m tl a Hm Htl Ha). unfold B. lia. }
  assert (HjeB : 0 ≤ last_scheduled_time pj ≤ B).
  { destruct (chain_head _ _ Hc) as (e & o & rest & Heq & _).
    specialize (Hfit m tl (mk_interval 0 e o) Hm Htl).
    rewrite Heq in Hfit. specialize (Hfit (list_elem_of_here _ _)).
    unfold B. lia. }
  destruct (place_chain tl (last_scheduled_time pj) (duration t) p B
              Hc Hb HjeB Hdur ltac:(unfold B; lia))
    as (it0 & iv0 & l1 & l2 & tl0 & Hfind0 & Heq & Hlen & _ & Hplace0 & _ & Hc0 & _).
  assert (it0 = it) as -> by congruence.
  assert (iv0 = iv) as ->.
  { rewrite Heq, list_lookup_middle in Hiv by done. congruence. }
  assert (tl0 = tl') as -> by congruence.
  intros tl1 [i Hi]%list_elem_of_lookup_1. rewrite Htab in Hi.
  apply list_lookup_insert_Some in Hi as [(-> & <- & _)|[_ Hi]].
  - by apply chain_timeline_inv.
  - apply Hinv. by eapply list_elem_of_lookup_2.
Qed.

Lemma chain_disjoint s tl a b :
  chain s tl → a ∈ tl → b ∈ tl → a ≠ b →
  end_ a < start b ∨ end_ b < start a.
Proof.
  intros Hc [i Hi]%list_elem_of_lookup_1 [j Hj]%list_elem_of_lookup_1 Hne.
  destruct (Nat.lt_trichotomy i j) as [Hij|[->|Hij]].
  - left. by eapply chain_lookup_lt.
  - congruence.
  - right. by eapply chain_lookup_lt.
Qed.

Lemma sched_inv_no_overlap done s :
  sched_inv done s → no_overlap_among s (λ p, p ∈ done).
Proof.
  intros Hinv p q t u Hp Hq Hne Ht Hu Hm.
  destruct (si_block _ _ Hinv p t Hp Ht) as (tl & Htl & Ha).
  destruct (si_block _ _ Hinv q u Hq Hu) as (tl' & Htl' & Hb).
  rewrite <-Hm, Htl in Htl'. simplify_eq.
  destruct (si_chain _ _ Hinv _ _ Htl) as [Hc _].
  destruct (chain_disjoint _ _ _ _ Hc Ha Hb) as [Hlt|Hlt].
  - intros [=]. by destruct Hne.
  - left. simpl in Hlt. done.
  - right. simpl in Hlt. done.
Qed.

Lemma sched_inv_job_order done s :
  sched_inv done s → job_order_among s (λ p, p ∈ done).
Proof.
  intros Hinv. split.
  - intros k i t Hp (j & Hj & Ht)%task_at_Some.
    by destruct (si_order _ _ Hinv k i j t Hp Hj Ht).
  - intros k i t t' Hp (j & Hj & Ht)%task_at_Some (j' & Hj' & Ht')%task_at_Some.
    simplify_eq. by destruct (si_prec _ _ Hinv k i j t t' Hp Hj Ht Ht').
Qed.

Lemma run_from_new d ps :
  wf_dataset d → call_order d [] ps →
  ∃ s, run_tasks (schedule_new d) ps = Some s ∧ sched_inv (reverse ps) s ∧
       shape (data s) = shape d.
Proof.
  intros Hwf Hco.
  destruct (run_tasks_inv ps [] (schedule_new d)) as (s & Hrun & Hinv & Hsh & _);
    [by apply schedule_new_inv|done|].
  rewrite app_nil_r in Hinv. by exists s.
Qed.

(** The final [std::sort] of the jobs moves whole jobs: the task at a
    position after it is the task at the image of that position before. *)
Lemma sorted_jobs_task_at s :
  ∃ f : nat → nat, Inj (=) (=) f ∧
    ∀ k i, task_at (data (sort_jobs s)) (k, i) = task_at (data s) (f k, i).
Proof.
  pose proof (sorted_jobs_perm (jobs (data s))) as Hperm.
  apply Permutation_inj in Hperm as (_ & f & Hf & Hlook).
  exists f. split; [done|]. intros k i. unfold task_at. simpl.
  by rewrite Hlook.
Qed.

Lemma schedule_jobs_all d h len :
  wf_dataset d → uniform d len → heuristic_ok h →
  ∃ ps s0 s,
    call_order d [] ps ∧ (∀ p, p ∈ ps ↔ is_Some (task_at d p)) ∧
    run_tasks (schedule_new d) ps = Some s0 ∧
    stages h (schedule_new d) (seq 0 len) = Some s0 ∧
    schedule_jobs h (schedule_new d) = Some s ∧
    no_overlap_among s (λ _, True) ∧ job_order_among s (λ _, True) ∧
    (∀ tl, tl ∈ table s → timeline_inv tl).
Proof.
  intros Hwf Huni Hh.
  destruct (schedule_jobs_run d h len Hwf Huni Hh)
    as (ps & s & Hco & Hall & Hrun & Hinv & Hsh & Hmc & Hstages & Hsj).
  exists ps, s. eexists. split; [done|]. split; [done|]. split; [done|].
  split; [done|]. split; [exact Hsj|].
  destruct (sorted_jobs_task_at s) as (f & Hf & Hlook).
  assert (Hdone : ∀ p t, task_at (data s) p = Some t → p ∈ reverse ps).
  { intros p t Hp. apply elem_of_reverse, Hall.
    eapply valid_same_shape; [exact Hsh|]. by eexists. }
  split; [|split].
  - intros [k1 i1] [k2 i2] t u _ _ Hne Ht Hu Hm.
    rewrite Hlook in Ht, Hu.
    apply (sched_inv_no_overlap _ _ Hinv (f k1, i1) (f k2, i2)); eauto.
    intros [= Hk ->]. apply Hf in Hk. congruence.
  - destruct (sched_inv_job_order _ _ Hinv) as [Hnn Hord]. split.
    + intros k i t _ Ht. rewrite Hlook in Ht. eauto.
    + intros k i t t' _ Ht Ht'. rewrite Hlook in Ht, Ht'. eauto.
  - intros tl [m Hm]%list_elem_of_lookup_1.
    rewrite sort_jobs_table in Hm.
    destruct (table s !! m) as [tl0|] eqn:Hm0; [|done].
    simpl in Hm. injection Hm as <-.
    apply chain_timeline_inv, chain_follow.
    by destruct (si_chain _ _ Hinv m tl0 Hm0).
Qed.

(** C1.  The timeline invariant: the intervals are non-empty, sorted,
    contiguous and pairwise disjoint, they cover exactly the times from [0]
    to [infinity], and the last one is free and ends at [infinity].  For a
    dataset as the loader delivers it (positive durations, all the work
    below [infinity]) it holds of the timeline of every machine when the
    scheduler is constructed.  Every call of the placement routine
    preserves it, for a task of positive duration and a cursor that is not
    negative, as long as the block ends below [infinity] wherever it is
    put.  So it holds after every call of a run, and when [schedule_jobs]
    returns. *)
Theorem timeline_partition_invariant d :
  wf_dataset d →
  (∀ tl, tl ∈ table (schedule_new d) → timeline_inv tl) ∧
  (∀ s p s' t pj,
     add_task s p = Some s' →
     task_at (data s) p = Some t → jobs (data s) !! parent t = Some pj →
     0 < duration t → 0 ≤ last_scheduled_time pj →
     (∀ m tl a, machine_index t = Some m → table s !! m = Some tl → a ∈ tl →
        Z.max (start a) (last_scheduled_time pj) + duration t ≤ infinity) →
     (∀ tl, tl ∈ table s → timeline_inv tl) →
     ∀ tl, tl ∈ table s' → timeline_inv tl) ∧
  (∀ ps, call_order d [] ps →
     ∃ s, run_tasks (schedule_new d) ps = Some s ∧
          ∀ tl, tl ∈ table s → timeline_inv tl) ∧
  (∀ h len, uniform d len → heuristic_ok h →
     ∃ s, schedule_jobs h (schedule_new d) = Some s ∧
          ∀ tl, tl ∈ table s → timeline_inv tl).
Proof.
  intros Hwf.
  assert (Hrun : ∀ ps, call_order d [] ps →
     ∃ s, run_tasks (schedule_new d) ps = Some s ∧
          ∀ tl, tl ∈ table s → timeline_inv tl).
  { intros ps Hco. destruct (run_from_new d ps Hwf Hco) as (s & Hrun & Hinv & _).
    exists s. split; [done|]. intros tl [m Hm]%list_elem_of_lookup_1.
    apply chain_timeline_inv. by destruct (si_chain _ _ Hinv m tl Hm). }
  split; [|split; [|split; [done|]]].
  - destruct (Hrun []) as (s & Hs & Hinv); [constructor|].
    simpl in Hs. by simplify_eq.
  - apply add_task_keeps_timelines.
  - intros h len Huni Hh.
    destruct (schedule_jobs_all d h len Hwf Huni Hh)
      as (_ & _ & s & _ & _ & _ & _ & Hs & _ & _ & Hinv).
    by exists s.
Qed.

(** C2.  In a run on a dataset as the loader delivers it, after every call
    of the placement routine any two distinct tasks placed so far on the
    same machine have disjoint ranges [start, start + duration - 1].  The
    calls [schedule_jobs] makes form such a run, which places every task,
    and when it returns any two distinct tasks of the same machine have
    disjoint ranges. *)
Theorem no_overlap d :
  wf_dataset d →
  (∀ ps, call_order d [] ps →
     ∃ s, run_tasks (schedule_new d) ps = Some s ∧
          no_overlap_among s (λ p, p ∈ ps)) ∧
  (∀ h len, uniform d len → heuristic_ok h →
     ∃ ps s0 s,
       call_order d [] ps ∧ (∀ p, p ∈ ps ↔ is_Some (task_at d p)) ∧
       run_tasks (schedule_new d) ps = Some s0 ∧
       stages h (schedule_new d) (seq 0 len) = Some s0 ∧
       schedule_jobs h (schedule_new d) = Some s ∧
       no_overlap_among s (λ _, True)).
Proof.
  intros Hwf. split.
  - intros ps Hco. destruct (run_from_new d ps Hwf Hco) as (s & Hrun & Hinv & _).
    exists s. split; [done|]. intros p q t u Hp Hq.
    apply (sched_inv_no_overlap _ _ Hinv); by apply elem_of_reverse.
  - intros h len Huni Hh.
    destruct (schedule_jobs_all d h len Hwf Huni Hh)
      as (ps & s0 & s & Hco & Hall & Hrun & Hst & Hs & Hno & _).
    by exists ps, s0, s.
Qed.
(** C3.  In a run on a dataset as the loader delivers it: the completion
    cursor of every job starts at [0]; every call of the placement routine
    gives its task a start that is at least the cursor of its job and moves
    the cursor to that start plus the duration; hence, after every call, no
    start is negative and each placed task starts no earlier than the start
    plus the duration of the task before it in its job.  The same holds for
    all tasks when [schedule_jobs] returns. *)
Theorem job_order_preserved d :
  wf_dataset d →
  (∀ j, j ∈ jobs (data (schedule_new d)) → last_scheduled_time j = 0) ∧
  (∀ ps k i, call_order d [] (ps ++ [(k, i)]) →
     ∃ s s' j j' t',
       run_tasks (schedule_new d) ps = Some s ∧
       add_task s (k, i) = Some s' ∧
       jobs (data s) !! k = Some j ∧ jobs (data s') !! k = Some j' ∧
       sequence j' !! i = Some t' ∧
       last_scheduled_time j ≤ scheduled_time t' ∧
       last_scheduled_time j' = scheduled_time t' + duration t') ∧
  (∀ ps, call_order d [] ps →
     ∃ s, run_tasks (schedule_new d) ps = Some s ∧
          job_order_among s (λ p, p ∈ ps)) ∧
  (∀ h len, uniform d len → heuristic_ok h →
     ∃ s, schedule_jobs h (schedule_new d) = Some s ∧
          job_order_among s (λ _, True)).
Proof.
  intros Hwf. split; [|split; [|split]].
  - intros j Hj. by apply (wf_cursor d Hwf).
  - intros ps k i [Hco1 Hco2]%call_order_app.
    destruct (run_from_new d ps Hwf Hco1) as (s & Hrun & Hinv & Hsh).
    inversion Hco2 as [|? ? ? ? Hval Hnot Hprev _]; simplify_eq.
    rewrite app_nil_r in Hnot, Hprev.
    assert (Hval' : is_Some (task_at (data s) (k, i)))
      by (by eapply valid_same_shape).
    destruct (add_task_step _ s k i Hinv Hval' Hnot Hprev)
      as (j & t & tl & it & iv & tl' & Hj & Ht & _ & _ & _ & Hadd & _).
    eexists s, _, j, _, _. split; [done|]. split; [exact Hadd|].
    split; [done|]. cbn [data].
    split; [by apply update_task_job_eq|]. cbn [sequence].
    split; [apply list_lookup_insert_eq; by eapply lookup_lt_Some|].
    cbn [scheduled_time set_scheduled_time duration last_scheduled_time].
    split; [lia|done].
  - intros ps Hco. destruct (run_from_new d ps Hwf Hco) as (s & Hrun & Hinv & _).
    exists s. split; [done|].
    destruct (sched_inv_job_order _ _ Hinv) as [Hnn Hord]. split.
    + intros k i t Hp. apply Hnn. by apply elem_of_reverse.
    + intros k i t t' Hp. apply Hord. by apply elem_of_reverse.
  - intros h len Huni Hh.
    destruct (schedule_jobs_all d h len Hwf Huni Hh)
      as (_ & _ & s & _ & _ & _ & _ & Hs & _ & Hjo & _).
    by exists s.
Qed.
End RunProperties.


(** ** The placement routine on its own *)
Section PlacementRoutine.
Context `{TimeRep} `{StdSort}.

Lemma interval_at_includes tl t a :
  tl !! interval_at tl t = Some a → includes a t = true.
Proof.
  induction tl as [|b tl IH]; simpl; [done|].
  destruct (includes b t) eqn:Hb; simpl; [by intros [= <-]|done].
Qed.

Lemma includes_from_false b e dur :
  includes_from b e dur = false ↔
  end_ b < tsub (tadd (Z.max (start b) e) dur) 1.
Proof. unfold includes_from. apply Z.leb_gt. Qed.

Lemma includes_from_false_plain b e dur :
  0 ≤ Z.max (start b) e → 0 < dur → Z.max (start b) e + dur ≤ infinity →
  includes_from b e dur = false ↔ Z.max (start b) e + dur - 1 > end_ b.
Proof.
  intros. rewrite includes_from_false, block_end_small by done. lia.
Qed.

Lemma schedule_task_start s p m it st s' :
  schedule_task s p m it st = Some s' →
  ∃ t, task_at (data s) p = Some t ∧
       task_at (data s') p = Some (set_scheduled_time st t).
Proof.
  unfold schedule_task, task_at. intros Hs.
  destruct (jobs (data s) !! p.1) as [j|] eqn:Hj; [|done]. simpl in *.
  destruct (sequence j !! p.2) as [t|] eqn:Ht; [|done]. simpl in *.
  destruct (table s !! m) as [tl|]; [|done]. simpl in *.
  destruct (place_block tl it p st (duration t)) as [tl'|]; [|done]. simpl in *.
  destruct (alter _ p.1 (jobs (data s)) !! parent t) as [pj|]; [|done].
  simpl in Hs. simplify_eq. exists t. split; [done|]. simpl.
  destruct (decide (parent t = p.1)) as [->|Hne].
  - rewrite list_lookup_alter_eq, list_lookup_alter_eq, Hj. simpl.
    by rewrite list_lookup_alter_eq, Ht.
  - rewrite list_lookup_alter_ne by done.
    rewrite list_lookup_alter_eq, Hj. simpl.
    by rewrite list_lookup_alter_eq, Ht.
Qed.

(** C4.  A successful call of [add_task] is a first-fit search: with
    [earliest] the completion cursor of the job, the scan starts at the
    first interval that contains [earliest], passes exactly the intervals
    that are occupied or fail [includes(earliest, duration)], and takes the
    first interval that is free and passes it; the task starts at
    [max(start of that interval, earliest)].  The test fails exactly when
    [max(start, earliest) + duration - 1] exceeds the end of the interval,
    the sum being the one the code computes (which is the plain sum when it
    is below [infinity]). *)
Theorem add_task_first_fit s p s' :
  add_task s p = Some s' →
  ∃ t pj m tl a0 it iv t',
    let earliest := last_scheduled_time pj in
    let first := interval_at tl earliest in
    task_at (data s) p = Some t ∧
    jobs (data s) !! parent t = Some pj ∧
    machine_index t = Some m ∧ table s !! m = Some tl ∧
    tl !! first = Some a0 ∧ includes a0 earliest = true ∧
    (∀ i b, (i < first)%nat → tl !! i = Some b → includes b earliest = false) ∧
    (first ≤ it)%nat ∧
    (∀ i b, (first ≤ i < it)%nat → tl !! i = Some b →
       occupied b = true ∨ includes_from b earliest (duration t) = false) ∧
    tl !! it = Some iv ∧ occupied iv = false ∧
    includes_from iv earliest (duration t) = true ∧
    task_at (data s') p = Some t' ∧
    scheduled_time t' = Z.max (start iv) earliest ∧
    (∀ b, includes_from b earliest (duration t) = false ↔
          end_ b < tsub (tadd (Z.max (start b) earliest) (duration t)) 1) ∧
    (∀ b, 0 ≤ Z.max (start b) earliest → 0 < duration t →
          Z.max (start b) earliest + duration t ≤ infinity →
          includes_from b earliest (duration t) = false ↔
          Z.max (start b) earliest + duration t - 1 > end_ b).
Proof.
  unfold add_task. intros Hadd.
  destruct (jobs (data s) !! p.1) as [j|] eqn:Hj; [|done]. simpl in Hadd.
  destruct (sequence j !! p.2) as [t|] eqn:Ht; [|done]. simpl in Hadd.
  destruct (machine_index t) as [m|] eqn:Hm; [|done]. simpl in Hadd.
  destruct (table s !! m) as [tl|] eqn:Htl; [|done]. simpl in Hadd.
  destruct (jobs (data s) !! parent t) as [pj|] eqn:Hpj; [|done]. simpl in Hadd.
  destruct (find_slot tl (last_scheduled_time pj) (duration t)) as [it|] eqn:Hfind;
    [|done]. simpl in Hadd.
  destruct (tl !! it) as [iv|] eqn:Hiv; [|done]. simpl in Hadd.
  destruct (find_slot_spec _ _ _ _ Hfind)
    as (l1 & iv' & l2 & Heq & Hlen & Hle & Hfree & Hinc & Hskip).
  assert (iv' = iv) as ->.
  { rewrite Heq, list_lookup_middle in Hiv by done. congruence. }
  destruct (lookup_lt_is_Some_2 tl (interval_at tl (last_scheduled_time pj)))
    as [a0 Ha0].
  { apply lookup_lt_Some in Hiv. lia. }
  destruct (schedule_task_start _ _ _ _ _ _ Hadd) as (t0 & Ht0 & Ht').
  exists t, pj, m, tl, a0, it, iv, (set_scheduled_time (Z.max (start iv) (last_scheduled_time pj)) t0).
  cbn zeta. split.
  { unfold task_at. by rewrite Hj. }
  split; [done|]. split; [done|]. split; [done|]. split; [done|].
  split; [by eapply interval_at_includes|].
  split; [intros i b; by apply interval_at_first|].
  split; [done|]. split; [done|]. split; [done|]. split; [done|]. split; [done|].
  split; [done|]. split; [done|].
  split; [intros b; apply includes_from_false|].
  intros b. apply includes_from_false_plain.
Qed.

(** C5.  [schedule_task] rewrites only the timeline it is given, and in it
    only the chosen interval [iv]: the intervals before and after it stay
    as they are and in place, [iv] becomes the block
    [start, start + duration - 1] of the task, a free interval
    [iv.start, start - 1] is linked in before the block exactly when
    [start > iv.start], and a free interval [start + duration, iv.end]
    after it exactly when [start + duration - 1 < iv.end]; the sums are the
    ones the code computes. *)
Theorem schedule_task_split s p m it st s' :
  schedule_task s p m it st = Some s' →
  ∃ t tl l1 iv l2 before after,
    let block_end := tsub (tadd st (duration t)) 1 in
    task_at (data s) p = Some t ∧
    table s !! m = Some tl ∧
    tl = l1 ++ iv :: l2 ∧ length l1 = it ∧
    table s' =
      <[m := l1 ++ before ++ mk_interval st block_end (Some p) :: after ++ l2]>
        (table s) ∧
    (start iv < st ∧ before = [mk_interval (start iv) (tsub st 1) None] ∨
     st ≤ start iv ∧ before = []) ∧
    (block_end < end_ iv ∧
       after = [mk_interval (tadd st (duration t)) (end_ iv) None] ∨
     end_ iv ≤ block_end ∧ after = []).
Proof.
  unfold schedule_task. intros Hs.
  destruct (jobs (data s) !! p.1) as [j|] eqn:Hj; [|done]. simpl in Hs.
  destruct (sequence j !! p.2) as [t|] eqn:Ht; [|done]. simpl in Hs.
  destruct (table s !! m) as [tl|] eqn:Htl; [|done]. simpl in Hs.
  destruct (place_block tl it p st (duration t)) as [tl'|] eqn:Hplace; [|done].
  simpl in Hs.
  destruct (alter _ p.1 (jobs (data s)) !! parent t) as [pj|]; [|done].
  simpl in Hs. simplify_eq.
  assert (Hiv : is_Some (tl !! it)).
  { unfold place_block in Hplace. destruct (tl !! it); [by eexists|done]. }
  destruct Hiv as [iv Hiv].
  destruct (list_elem_of_split_length _ _ _ Hiv) as (l1 & l2 & -> & ->).
  rewrite place_block_middle in Hplace. simplify_eq. unfold split_block.
  exists t, (l1 ++ iv :: l2), l1, iv, l2.
  eexists _, _. cbn zeta.
  split; [unfold task_at; by rewrite Hj|]. split; [done|]. split; [done|].
  split; [done|]. split.
  { simpl. by rewrite <-app_assoc. }
  unfold interval_empty. split.
  - destruct (Z.ltb_spec (start iv) st); [left|right]; done.
  - destruct (Z.ltb_spec (tsub (tadd st (duration t)) 1) (end_ iv)); [left|right]; done.
Qed.
End PlacementRoutine.


(** ** Searching never runs off the end *)
Section SearchTotal.
Context `{TimeRep} `{StdSort}.

(** C7.  On a timeline that satisfies the invariant, [interval_at] finds,
    for every time from [0] to [infinity], an interval that contains it and
    so never returns [end()]; the last interval is free and passes the
    capacity test [includes(job_end, duration)] for every duration, so the
    scan of [add_task] started at a time of that range stops at an interval
    of the list that is free and passes the test. *)
Theorem search_never_falls_off tl :
  timeline_inv tl →
  (∀ time, 0 ≤ time ≤ infinity →
     (interval_at tl time < length tl)%nat ∧
     ∃ a, tl !! interval_at tl time = Some a ∧ includes a time = true) ∧
  (∃ l, last tl = Some l ∧ occupied l = false ∧
        ∀ job_end dur, includes_from l job_end dur = true) ∧
  (∀ job_end dur, 0 ≤ job_end ≤ infinity →
     ∃ it iv, find_slot tl job_end dur = Some it ∧ (it < length tl)%nat ∧
       tl !! it = Some iv ∧ occupied iv = false ∧
       includes_from iv job_end dur = true).
Proof.
  intros Hc%timeline_inv_chain. split; [|split].
  - intros time Ht. destruct (interval_at_chain tl time Hc Ht) as (a & Ha & Hin).
    split; [by eapply lookup_lt_Some|by exists a].
  - destruct (chain_last_free _ _ Hc) as (l & Hl & Hfree & Hend).
    exists l. split; [done|]. split; [done|]. intros job_end dur.
    unfold includes_from. rewrite Hend. apply Z.leb_le.
    unfold tsub. apply wrap_range.
  - intros job_end dur Hje.
    destruct (find_slot_chain tl job_end dur Hc Hje) as [it Hit].
    destruct (find_slot_spec _ _ _ _ Hit)
      as (l1 & iv & l2 & Heq & Hlen & _ & Hfree & Hinc & _).
    exists it, iv. split; [done|].
    assert (Hiv : tl !! it = Some iv) by (rewrite Heq; by apply list_lookup_middle).
    split; [by eapply lookup_lt_Some|done].
Qed.
End SearchTotal.

(** ** The length of a timeline and the order on timelines *)
Section Length.
Context `{TimeRep} `{StdSort}.

Lemma timeline_length_some tl : tl ≠ [] → is_Some (timeline_length tl).
Proof.
  intros Hne. unfold timeline_length.
  destruct (last tl) eqn:Hl; [by eexists|]. by apply last_None in Hl.
Qed.

(** C8.  [length()] of a timeline with last interval [l] is [l.end + 1]
    (at type [time32_t]; the plain sum when [l.end] is below [infinity])
    when [l] is occupied, and [l.start] otherwise.  [operator<] compares
    the lengths, and this orders the timelines totally by length: it is
    irreflexive and transitive, and of two timelines one is smaller or they
    have the same length. *)
Theorem timeline_length_order :
  (∀ tl l, last tl = Some l →
     timeline_length tl = Some (if occupied l then tadd (end_ l) 1 else start l) ∧
     (occupied l = true → 0 ≤ end_ l < infinity →
        timeline_length tl = Some (end_ l + 1)) ∧
     (occupied l = false → timeline_length tl = Some (start l))) ∧
  (∀ a b la lb, timeline_length a = Some la → timeline_length b = Some lb →
     timeline_lt a b = Some (la <? lb)) ∧
  (∀ a, timeline_lt a a ≠ Some true) ∧
  (∀ a b c, timeline_lt a b = Some true → timeline_lt b c = Some true →
     timeline_lt a c = Some true) ∧
  (∀ a b, a ≠ [] → b ≠ [] →
     timeline_lt a b = Some true ∨ timeline_lt b a = Some true ∨
     timeline_length a = timeline_length b).
Proof.
  assert (Hlt : ∀ a b, timeline_lt a b = Some true ↔
            ∃ la lb, timeline_length a = Some la ∧
                     timeline_length b = Some lb ∧ la < lb).
  { intros a b. unfold timeline_lt. split.
    - destruct (timeline_length a) as [la|]; [|done].
      destruct (timeline_length b) as [lb|]; [|done]. simpl.
      intros [= Hl%Z.ltb_lt]. by exists la, lb.
    - intros (la & lb & -> & -> & Hl). simpl. f_equal. by apply Z.ltb_lt. }
  split; [|split; [|split; [|split]]].
  - intros tl l Hl. unfold timeline_length. rewrite Hl. split; [done|]. split.
    + intros -> Hend. by rewrite tadd_small by lia.
    + by intros ->.
  - intros a b la lb Ha Hb. unfold timeline_lt. by rewrite Ha, Hb.
  - intros a (la & lb & Ha & Hb & Hl)%Hlt. simplify_eq. lia.
  - intros a b c (la & lb & Ha & Hb & Hl)%Hlt (lb' & lc & Hb' & Hc & Hl')%Hlt.
    simplify_eq. apply Hlt. exists la, lc. split; [done|]. split; [done|]. lia.
  - intros a b [la Ha]%timeline_length_some [lb Hb]%timeline_length_some.
    destruct (Z.lt_trichotomy la lb) as [Hl|[->|Hl]].
    + left. apply Hlt. by exists la, lb.
    + right. right. by rewrite Ha, Hb.
    + right. left. apply Hlt. by exists lb, la.
Qed.
End Length.


(** ** The makespan and the summary *)

Section Summary.
Context `{TimeRep} `{StdSort}.

Lemma split_on_free c a : free_of c a → split_on c a = [a].
Proof.
  induction a as [|x a IH]; simpl; [done|].
  intros [-> Ha]. by rewrite IH.
Qed.

Lemma split_on_sep c a b :
  free_of c a → split_on c (String.append a (String c b)) = a :: split_on c b.
Proof.
  induction a as [|x a IH]; simpl.
  - intros _. by rewrite Ascii.eqb_refl.
  - intros [-> Ha]. by rewrite IH.
Qed.

Lemma free_of_append c a b :
  free_of c a → free_of c b → free_of c (String.append a b).
Proof. induction a as [|x a IH]; simpl; [done|]. intros [? ?] ?. auto. Qed.

Lemma append_assoc (a b c : string) :
  String.append (String.append a b) c = String.append a (String.append b c).
Proof. induction a as [|x a IH]; simpl; [done|]. by rewrite IH. Qed.

Lemma stream_cons x l : stream (x :: l) = String.append x (stream l).
Proof. done. Qed.

Lemma append_char c r : String.append (String c EmptyString) r = String c r.
Proof. done. Qed.

Lemma free_of_uint c d : is_separator c → free_of c (NilEmpty.string_of_uint d).
Proof.
  intros [-> | ->]; induction d; simpl; auto.
Qed.

Lemma free_of_show_time c z : is_separator c → free_of c (show_time z).
Proof.
  intros Hc. unfold show_time, NilZero.string_of_int.
  assert (Hu : ∀ d, free_of c (NilZero.string_of_uint d)).
  { intros d. unfold NilZero.string_of_uint.
    destruct d; try apply (free_of_uint c _ Hc).
    destruct Hc as [-> | ->]; simpl; auto. }
  destruct (Z.to_int z); [apply Hu|].
  simpl. split; [|apply Hu]. by destruct Hc as [-> | ->].
Qed.

Lemma summary_line_free j : free_of newline_char (summary_line j).
Proof.
  unfold summary_line. induction (sequence j) as [|t l IH]; [done|].
  rewrite fmap_cons, stream_cons, append_assoc, append_char.
  apply free_of_append; [apply free_of_show_time; by left|].
  split; [done|apply IH].
Qed.

Lemma summary_line_fields j :
  split_on space_char (summary_line j) =
  (show_time ∘ scheduled_time <$> sequence j) ++ [EmptyString].
Proof.
  unfold summary_line. induction (sequence j) as [|t l IH]; [done|].
  rewrite !fmap_cons, stream_cons, append_assoc, append_char.
  rewrite split_on_sep, IH; [done|].
  apply free_of_show_time. by right.
Qed.

Lemma summary_jobs_lines js :
  split_on newline_char (stream (summary_job <$> js)) =
  (summary_line <$> js) ++ [EmptyString].
Proof.
  induction js as [|j js IH]; [done|].
  rewrite !fmap_cons, stream_cons. unfold summary_job at 1.
  rewrite append_assoc, append_char.
  rewrite split_on_sep, IH; [done|]. apply summary_line_free.
Qed.

Lemma max_element_from_spec largest rest m v :
  max_element_from largest rest = Some m → timeline_length m = Some v →
  m ∈ largest :: rest ∧
  ∀ tl, tl ∈ largest :: rest → ∃ l, timeline_length tl = Some l ∧ l ≤ v.
Proof.
  revert largest. induction rest as [|t rest IH]; intros largest Hmax Hv; simpl in Hmax.
  - simplify_eq. split; [apply list_elem_of_here|].
    intros tl ->%list_elem_of_singleton. exists v. split; [done|lia].
  - unfold timeline_lt in Hmax.
    destruct (timeline_length largest) as [ll|] eqn:Hll; [|done].
    destruct (timeline_length t) as [lt|] eqn:Hlt; [|done]. simpl in Hmax.
    destruct (IH _ Hmax Hv) as [Hin Hle].
    assert (Hnew : ∃ l, timeline_length (if ll <? lt then t else largest) = Some l
                        ∧ l ≤ v) by (apply Hle, list_elem_of_here).
    destruct Hnew as (l & Hl & Hlv).
    split.
    + apply elem_of_cons in Hin as [->|Hin].
      * destruct (ll <? lt); [apply list_elem_of_further, list_elem_of_here
                             |apply list_elem_of_here].
      * by do 2 apply list_elem_of_further.
    + intros tl [->|[->|Htl]%elem_of_cons]%elem_of_cons.
      * exists ll. split; [done|].
        destruct (Z.ltb_spec ll lt); simplify_eq; lia.
      * exists lt. split; [done|].
        destruct (Z.ltb_spec ll lt); simplify_eq; lia.
      * apply Hle. by apply list_elem_of_further.
Qed.

Lemma max_element_from_defined largest rest :
  (∀ tl, tl ∈ largest :: rest → is_Some (timeline_length tl)) →
  ∃ m, max_element_from largest rest = Some m ∧ is_Some (timeline_length m).
Proof.
  revert largest. induction rest as [|t rest IH]; intros largest Hall; simpl.
  - exists largest. split; [done|]. apply Hall, list_elem_of_here.
  - destruct (Hall largest (list_elem_of_here _ _)) as [ll Hll].
    destruct (Hall t (list_elem_of_further _ _ _ (list_elem_of_here _ _))) as [lt Hlt].
    unfold timeline_lt. rewrite Hll, Hlt. simpl. apply IH.
    intros tl [->|Htl]%elem_of_cons.
    + destruct (ll <? lt); by eexists.
    + apply Hall. by do 2 apply list_elem_of_further.
Qed.

Lemma longest_timeline_defined s :
  table s ≠ [] → (∀ tl, tl ∈ table s → tl ≠ []) → is_Some (longest_timeline s).
Proof.
  intros Hne Hall. unfold longest_timeline, max_element.
  destruct (table s) as [|t rest]; [done|].
  destruct (max_element_from_defined t rest) as (m & -> & Hm).
  { intros tl Htl. apply timeline_length_some. by apply Hall. }
  done.
Qed.

Lemma chain_nonempty st tl : chain st tl → tl ≠ [].
Proof. by destruct 1. Qed.

Lemma summary_lines s out :
  summary s = Some out →
  ∃ m, longest_timeline s = Some m ∧
    split_on newline_char out =
      show_time m :: (summary_line <$> jobs (data s)) ++ [EmptyString].
Proof.
  unfold summary. intros Hsum.
  destruct (longest_timeline s) as [m|] eqn:Hm; [|done]. simpl in Hsum.
  simplify_eq. exists m. split; [done|].
  rewrite append_assoc, append_char.
  rewrite split_on_sep, summary_jobs_lines; [done|].
  apply free_of_show_time. by left.
Qed.

(** C9.  When [summary] returns a text, [longest_timeline] returned the
    makespan [m]: the [length()] of one of the timelines of the table, and
    no timeline of the table is longer.  The lines of the text (its fields
    between newlines) are the decimal digits of [m], then one line per job
    in the order of [data.jobs], and nothing after the last newline; the
    line of a job holds its start times in sequence order, each followed by
    one space. *)
Theorem summary_reports_makespan s out :
  summary s = Some out →
  ∃ m,
    longest_timeline s = Some m ∧
    (∃ tl, tl ∈ table s ∧ timeline_length tl = Some m) ∧
    (∀ tl, tl ∈ table s → ∃ l, timeline_length tl = Some l ∧ l ≤ m) ∧
    split_on newline_char out =
      show_time m :: (summary_line <$> jobs (data s)) ++ [EmptyString] ∧
    (∀ j, split_on space_char (summary_line j) =
          (show_time ∘ scheduled_time <$> sequence j) ++ [EmptyString]).
Proof.
  intros Hsum. destruct (summary_lines s out Hsum) as (m & Hm & Hlines).
  exists m. split; [done|].
  unfold longest_timeline, max_element in Hm.
  destruct (table s) as [|t rest]; [done|].
  destruct (max_element_from t rest) as [mx|] eqn:Hmax; [|done]. simpl in Hm.
  destruct (max_element_from_spec _ _ _ _ Hmax Hm) as [Hin Hle].
  split; [by exists mx|]. split; [done|]. split; [done|].
  apply summary_line_fields.
Qed.

(** C10.  When [schedule_jobs] returns, whatever the heuristic, the jobs
    are the jobs the stages left, rearranged in ascending order of their
    ids.  [summary] then returns a text whenever the table has a makespan,
    as it has after [schedule_jobs] on the initial schedule of a dataset as
    the loader delivers it with at least one machine, and the text lists
    the lines of the jobs in that order. *)
Theorem jobs_sorted_by_id h s s' :
  schedule_jobs h s = Some s' →
  (∃ j0 s1,
     jobs (data s) !! O = Some j0 ∧
     stages h s (seq 0 (length (sequence j0))) = Some s1 ∧
     jobs (data s') ≡ₚ jobs (data s1)) ∧
  (∀ i j a b, (i < j)%nat →
     jobs (data s') !! i = Some a → jobs (data s') !! j = Some b →
     job_id a ≤ job_id b) ∧
  (∀ m, longest_timeline s' = Some m →
     ∃ out, summary s' = Some out ∧
       split_on newline_char out =
         show_time m :: (summary_line <$> jobs (data s')) ++ [EmptyString]) ∧
  (∀ d len, s = schedule_new d →
     wf_dataset d → uniform d len → heuristic_ok h →
     (0 < machine_count d)%nat →
     ∃ m out, longest_timeline s' = Some m ∧ summary s' = Some out ∧
       split_on newline_char out =
         show_time m :: (summary_line <$> jobs (data s')) ++ [EmptyString]).
Proof.
  intros Hs.
  assert (Hsum : ∀ m, longest_timeline s' = Some m →
     ∃ out, summary s' = Some out ∧
       split_on newline_char out =
         show_time m :: (summary_line <$> jobs (data s')) ++ [EmptyString]).
  { intros m Hm.
    destruct (summary s') as [out|] eqn:Hout.
    - exists out. split; [done|].
      destruct (summary_lines s' out Hout) as (m' & Hm' & Hlines). congruence.
    - unfold summary in Hout. by rewrite Hm in Hout. }
  split; [|split; [|split; [exact Hsum|]]].
  - unfold schedule_jobs in Hs.
    destruct (jobs (data s) !! O) as [j0|] eqn:Hj0; [|done]. simpl in Hs.
    destruct (stages h s (seq 0 (length (sequence j0)))) as [s1|] eqn:Hst; [|done].
    simpl in Hs. injection Hs as <-. exists j0, s1.
    split; [done|]. split; [done|]. apply sorted_jobs_perm.
  - unfold schedule_jobs in Hs.
    destruct (jobs (data s) !! O) as [j0|]; [|done]. simpl in Hs.
    destruct (stages h s (seq 0 (length (sequence j0)))) as [s1|]; [|done].
    simpl in Hs. injection Hs as <-. apply sort_jobs_ascending.
  - intros d len -> Hwf Huni Hh Hmc.
    destruct (schedule_jobs_run d h len Hwf Huni Hh)
      as (ps & s1 & _ & _ & _ & Hinv & _ & Hmc1 & _ & Hsj).
    assert (s' = sort_jobs s1) as Heq by congruence.
    destruct (longest_timeline_defined s') as [m Hm].
    { rewrite Heq. simpl. intros Hnil%fmap_nil_inv.
      pose proof (si_table _ _ Hinv) as Hlen. rewrite Hnil in Hlen.
      simpl in Hlen. lia. }
    { intros tl [i Hi]%list_elem_of_lookup_1. rewrite Heq, sort_jobs_table in Hi.
      destruct (table s1 !! i) as [tl0|] eqn:Hi0; [|done].
      simpl in Hi. injection Hi as <-.
      eapply chain_nonempty, chain_follow.
      by destruct (si_chain _ _ Hinv i tl0 Hi0). }
    destruct (Hsum m Hm) as (out & Hout & Hlines). by exists m, out.
Qed.
End Summary.


(** ** The scenario of the specification *)

Section Scenario.
Context `{StdSort}.

Lemma sort_pair {A} (cmp : A → A → bool) (a b : A) :
  strict_weak_order (λ x, x ∈ [a; b]) cmp →
  (cmp a b = true → sort cmp [a; b] = [a; b]) ∧
  (cmp b a = true → sort cmp [a; b] = [b; a]).
Proof.
  intros Hswo. destruct (sort_spec A cmp [a; b] Hswo) as [Hperm Hsorted].
  symmetry in Hperm. apply Permutation_length_2_inv in Hperm.
  split; intros Hcmp; destruct Hperm as [Heq|Heq]; try done; exfalso.
  - rewrite Heq in Hsorted.
    specialize (Hsorted 0%nat 1%nat b a ltac:(lia) eq_refl eq_refl). congruence.
  - rewrite Heq in Hsorted.
    specialize (Hsorted 0%nat 1%nat a b ltac:(lia) eq_refl eq_refl). congruence.
Qed.

Lemma stage_pair `{TimeRep} h s i j0 j1 :
  heuristic_ok h → jobs (data s) = [j0; j1] →
  (i < length (sequence j0))%nat → (i < length (sequence j1))%nat →
  (h j0 j1 (Z.of_nat i) = true → stage h s i = add_tasks s i [0; 1]%nat) ∧
  (h j1 j0 (Z.of_nat i) = true → stage h s i = add_tasks s i [1; 0]%nat).
Proof.
  intros Hh Hjobs Hlen0 Hlen1. unfold stage. rewrite Hjobs.
  destruct (sort_pair (stage_cmp h [j0; j1] i) 0%nat 1%nat) as [Hlt Hgt].
  { apply (stage_cmp_swo h [j0; j1] i Hh).
    intros j [->|[->|[]%elem_of_nil]%elem_of_cons]%elem_of_cons; done. }
  split; intros Hcmp; simpl length; simpl seq.
  - by rewrite Hlt.
  - by rewrite Hgt.
Qed.
End Scenario.

(** C6.  On the scenario of the specification, under the
    longest-operation-first heuristic, whatever the signedness of the time
    type and whatever conforming [std::sort]: the calls are, in this order,
    operation 0 of job 0, operation 0 of job 1, operation 1 of job 1 and
    operation 1 of job 0; job 0 gets the starts 0 and 3 and job 1 the
    starts 3 and 5; machine 0 is occupied over 0-2 and 3-4 and machine 1
    over 3-4 and 5-8; the makespan is 9. *)
Theorem scenario_schedule `{TimeRep} `{StdSort} :
  stages stachu_heuristic (schedule_new scenario) [0; 1]%nat =
    run_tasks (schedule_new scenario) [(0, 0); (1, 0); (1, 1); (0, 1)]%nat ∧
  ∃ s,
    schedule_jobs stachu_heuristic (schedule_new scenario) = Some s ∧
    job_id <$> jobs (data s) = [0; 1] ∧
    (λ j, scheduled_time <$> sequence j) <$> jobs (data s) = [[0; 3]; [3; 5]] ∧
    table s =
      [ [ mk_interval 0 2 (Some (0, 0)%nat); mk_interval 3 4 (Some (1, 0)%nat);
          mk_interval 5 infinity None ];
        [ mk_interval 0 2 None; mk_interval 3 4 (Some (0, 1)%nat);
          mk_interval 5 8 (Some (1, 1)%nat); mk_interval 9 infinity None ] ] ∧
    longest_timeline s = Some 9 ∧
    summary s = Some scenario_summary.
Proof.
  pose proof stachu_heuristic_ok as Hh.
  destruct H as [signed]. set (HT := {| time_signed := signed |}).
  set (s0 := schedule_new scenario).
  destruct (stage_pair stachu_heuristic s0 0
              (mk_job 0 [mk_task 0 3 0 0; mk_task 1 2 0 0] 0)
              (mk_job 1 [mk_task 0 2 0 1; mk_task 1 4 0 1] 0) Hh)
    as [Hst0 _]; [done|simpl; lia|simpl; lia|].
  specialize (Hst0 eq_refl).
  destruct (add_tasks s0 0 [0; 1]%nat) as [s2|] eqn:Hs2;
    (destruct signed; vm_compute in Hs2; try discriminate).
  all: injection Hs2 as <-.
  all: match type of Hst0 with _ = Some ?x => set (s2 := x) in * end.
  all: destruct (stage_pair stachu_heuristic s2 1
              (mk_job 0 [mk_task 0 3 0 0; mk_task 1 2 0 0] 3)
              (mk_job 1 [mk_task 0 2 3 1; mk_task 1 4 0 1] 5) Hh)
    as [_ Hst1]; [done|simpl; lia|simpl; lia|].
  all: specialize (Hst1 eq_refl).
  all: split; [cbn [stages]; rewrite Hst0; cbn [mbind option_bind];
               rewrite Hst1; by vm_compute|].
  all: destruct (add_tasks s2 1 [1; 0]%nat) as [s4|] eqn:Hs4;
    (vm_compute in Hs4; try discriminate).
  all: injection Hs4 as <-.
  all: match type of Hst1 with _ = Some ?x => set (s4 := x) in * end.
  all: destruct (sort_pair tagged_id_less
              (0%nat, mk_job 0 [mk_task 0 3 0 0; mk_task 1 2 3 0] 5)
              (1%nat, mk_job 1 [mk_task 0 2 3 1; mk_task 1 4 5 1] 9))
    as [Hid _]; [apply tagged_id_less_swo|].
  all: specialize (Hid eq_refl).
  all: eexists; split;
    [ unfold schedule_jobs; cbn [s0 schedule_new scenario data jobs];
      simpl lookup; cbn [mbind option_bind sequence length seq stages];
      fold s0; rewrite Hst0; cbn [mbind option_bind]; rewrite Hst1;
      cbn [mbind option_bind]; unfold sort_jobs;
      change (imap pair (jobs (data s4))) with
        [ (0%nat, mk_job 0 [mk_task 0 3 0 0; mk_task 1 2 3 0] 5);
          (1%nat, mk_job 1 [mk_task 0 2 3 1; mk_task 1 4 5 1] 9) ];
      rewrite Hid; reflexivity
    | vm_compute; repeat split ].
Qed.


(** ** Checking a dataset *)

Section Check.
Context `{TimeRep}.

Lemma forallb_elem {A} (f : A → bool) l x :
  forallb f l = true → x ∈ l → f x = true.
Proof.
  intros Hall Hx. rewrite forallb_forall in Hall. apply Hall.
  by apply list_elem_of_In.
Qed.

Lemma check_dataset_sound d : check_dataset d = true → wf_dataset d.
Proof.
  unfold check_dataset. intros [Hjobs Htot%Z.leb_le]%andb_prop.
  assert (Hjob : ∀ k j, jobs d !! k = Some j → check_job d k j = true).
  { intros k j Hj. apply (forallb_elem _ _ (k, j) Hjobs).
    apply list_elem_of_lookup. exists k. by rewrite list_lookup_imap, Hj. }
  split; [split|].
  - intros k j i t Hj Ht. apply Hjob in Hj. unfold check_job in Hj.
    apply andb_prop in Hj as [Hseq _].
    apply (forallb_elem _ _ t) in Hseq; [|by eapply list_elem_of_lookup_2].
    unfold check_task in Hseq.
    apply andb_prop in Hseq as [Hseq Hm]. apply andb_prop in Hseq as [Hseq Hm0].
    apply andb_prop in Hseq as [Hp Hd].
    apply Nat.eqb_eq in Hp. apply Z.ltb_lt in Hd. apply Z.leb_le in Hm0.
    apply Nat.ltb_lt in Hm. done.
  - done.
  - intros j [k Hj]%list_elem_of_lookup_1. apply Hjob in Hj.
    unfold check_job in Hj. apply andb_prop in Hj as [_ Hc]. by apply Z.eqb_eq.
Qed.

Lemma check_uniform_sound d len : check_uniform d len = true → uniform d len.
Proof.
  unfold check_uniform, uniform. destruct (jobs d) as [|j0 js] eqn:Hjobs; [done|].
  intros Hall. split; [done|]. intros j Hj.
  apply Nat.eqb_eq. by apply (forallb_elem _ _ j Hall).
Qed.
End Check.


(** ** What a placement leaves alone *)
Section Frame.
Context `{TimeRep} `{StdSort}.

Lemma add_task_data s p s' :
  add_task s p = Some s' →
  ∃ t st fin,
    task_at (data s) p = Some t ∧
    machine_count (data s') = machine_count (data s) ∧
    jobs (data s') =
      alter (set_last_scheduled_time fin) (parent t)
        (alter (set_sequence (alter (set_scheduled_time st) p.2)) p.1
           (jobs (data s))).
Proof.
  unfold add_task. intros Hadd.
  destruct (jobs (data s) !! p.1) as [j|] eqn:Hj; [|done]. simpl in Hadd.
  destruct (sequence j !! p.2) as [t|] eqn:Ht; [|done]. simpl in Hadd.
  destruct (machine_index t) as [m|] eqn:Hm; [|done]. simpl in Hadd.
  destruct (table s !! m) as [tl|] eqn:Htl; [|done]. simpl in Hadd.
  destruct (jobs (data s) !! parent t) as [pj|] eqn:Hpj; [|done]. simpl in Hadd.
  destruct (find_slot tl (last_scheduled_time pj) (duration t)) as [it|] eqn:Hfind;
    [|done]. simpl in Hadd.
  destruct (tl !! it) as [iv|] eqn:Hiv; [|done]. simpl in Hadd.
  unfold schedule_task in Hadd. rewrite Hj in Hadd. simpl in Hadd.
  rewrite Ht in Hadd. simpl in Hadd. rewrite Htl in Hadd. simpl in Hadd.
  destruct (place_block tl it p _ (duration t)) as [tl'|] eqn:Hplace; [|done].
  simpl in Hadd.
  destruct (alter _ p.1 (jobs (data s)) !! parent t); [|done].
  simpl in Hadd. simplify_eq.
  eexists t, _, _. split; [unfold task_at; by rewrite Hj|]. by split.
Qed.

Lemma split_block_length iv p st dur :
  (1 ≤ length (split_block iv p st dur) ≤ 3)%nat.
Proof.
  unfold split_block. rewrite length_app. simpl.
  destruct (_ <? st); destruct (_ <? end_ iv); simpl; lia.
Qed.

Lemma add_task_lookups s p s' :
  add_task s p = Some s' →
  ∃ t st fin,
    task_at (data s) p = Some t ∧
    machine_count (data s') = machine_count (data s) ∧
    (∀ k, jobs (data s') !! k =
       (if decide (k = parent t) then set_last_scheduled_time fin else id) <$>
       ((if decide (k = p.1)
         then set_sequence (alter (set_scheduled_time st) p.2) else id) <$>
        jobs (data s) !! k)) ∧
    (∀ q, task_at (data s') q =
       (if decide (q = p) then set_scheduled_time st else id)
       <$> task_at (data s) q).
Proof.
  intros Hadd.
  destruct (add_task_data s p s' Hadd) as (t & st & fin & Ht & Hmc & Hjobs).
  exists t, st, fin. split; [done|]. split; [done|].
  assert (Hjob : ∀ k, jobs (data s') !! k =
       (if decide (k = parent t) then set_last_scheduled_time fin else id) <$>
       ((if decide (k = p.1)
         then set_sequence (alter (set_scheduled_time st) p.2) else id) <$>
        jobs (data s) !! k)).
  { intros k. rewrite Hjobs.
    destruct (decide (k = parent t)) as [->|Hk2].
    - rewrite list_lookup_alter_eq. f_equal.
      destruct (decide (parent t = p.1)) as [->|Hk1].
      + by rewrite list_lookup_alter_eq.
      + rewrite list_lookup_alter_ne by done. by rewrite option_fmap_id.
    - rewrite list_lookup_alter_ne by done. rewrite option_fmap_id.
      destruct (decide (k = p.1)) as [->|Hk1].
      + by rewrite list_lookup_alter_eq.
      + rewrite list_lookup_alter_ne by done. by rewrite option_fmap_id. }
  split; [done|].
  intros [k i]. unfold task_at. simpl fst. simpl snd. rewrite Hjob.
  destruct (jobs (data s) !! k) as [j|]; [|by case_decide]. simpl.
  assert (Hseq : ∀ x : job,
            sequence ((if decide (k = parent t)
                       then set_last_scheduled_time fin else id) x) = sequence x).
  { intros x. by case_decide. }
  rewrite Hseq. destruct p as [pk pi]. simpl.
  destruct (decide (k = pk)) as [->|Hk].
  - simpl. destruct (decide (i = pi)) as [->|Hi].
    + rewrite list_lookup_alter_eq. by rewrite decide_True.
    + rewrite list_lookup_alter_ne by done.
      rewrite decide_False by congruence. by rewrite option_fmap_id.
  - rewrite decide_False by congruence. by rewrite option_fmap_id.
Qed.

Lemma run_tasks_untouched ps s s' :
  run_tasks s ps = Some s' →
  ∀ q, q ∉ ps → task_at (data s') q = task_at (data s) q.
Proof.
  revert s. induction ps as [|p ps IH]; intros s Hrun q Hq; simpl in Hrun.
  - by simplify_eq.
  - destruct (add_task s p) as [s1|] eqn:Hadd; [|done]. simpl in Hrun.
    apply not_elem_of_cons in Hq as [Hqp Hq].
    rewrite (IH s1 Hrun q Hq).
    destruct (add_task_lookups s p s1 Hadd) as (t & st & fin & _ & _ & _ & Htask).
    rewrite Htask, decide_False by done. by rewrite option_fmap_id.
Qed.

Lemma add_task_start s p s' :
  add_task s p = Some s' →
  ∃ t pj m tl it iv,
    task_at (data s) p = Some t ∧ jobs (data s) !! parent t = Some pj ∧
    machine_index t = Some m ∧ table s !! m = Some tl ∧
    find_slot tl (last_scheduled_time pj) (duration t) = Some it ∧
    tl !! it = Some iv ∧
    task_at (data s') p =
      Some (set_scheduled_time (Z.max (start iv) (last_scheduled_time pj)) t).
Proof.
  unfold add_task. intros Hadd.
  destruct (jobs (data s) !! p.1) as [j|] eqn:Hj; [|done]. simpl in Hadd.
  destruct (sequence j !! p.2) as [t|] eqn:Ht; [|done]. simpl in Hadd.
  destruct (machine_index t) as [m|] eqn:Hm; [|done]. simpl in Hadd.
  destruct (table s !! m) as [tl|] eqn:Htl; [|done]. simpl in Hadd.
  destruct (jobs (data s) !! parent t) as [pj|] eqn:Hpj; [|done]. simpl in Hadd.
  destruct (find_slot tl (last_scheduled_time pj) (duration t)) as [it|] eqn:Hfind;
    [|done]. simpl in Hadd.
  destruct (tl !! it) as [iv|] eqn:Hiv; [|done]. simpl in Hadd.
  destruct (schedule_task_start _ _ _ _ _ _ Hadd) as (t0 & Ht0 & Ht').
  assert (Hp : task_at (data s) p = Some t) by (unfold task_at; by rewrite Hj).
  assert (t0 = t) as -> by congruence.
  by exists t, pj, m, tl, it, iv.
Qed.

(** X1.  A successful call of [add_task] for a task [p] of machine [m]
    changes nothing but: the timeline of [m], in which the intervals before
    and after the chosen one stay as they are and in place, and the chosen
    interval, which was free, is replaced by the block of [p] with at most
    one free interval before it and at most one after it; the start time of
    [p]; and the cursor of the job [p] refers to.  The other timelines, the
    number of machines, the ids of the jobs, the machine, duration and
    back-reference of every task, the start time of every other task and
    the cursor of every other job are as before. *)
Theorem add_task_frame s p s' :
  add_task s p = Some s' →
  ∃ t t' m l1 iv l2 before after,
    task_at (data s) p = Some t ∧ machine_index t = Some m ∧
    table s !! m = Some (l1 ++ iv :: l2) ∧ occupied iv = false ∧
    table s' =
      <[m := l1 ++ before ++
             mk_interval (scheduled_time t')
               (tsub (tadd (scheduled_time t') (duration t)) 1) (Some p)
             :: after ++ l2]> (table s) ∧
    (length before ≤ 1)%nat ∧ (length after ≤ 1)%nat ∧
    (∀ a, a ∈ before ++ after → occupied a = false) ∧
    machine_count (data s') = machine_count (data s) ∧
    task_at (data s') p = Some t' ∧
    machine_id t' = machine_id t ∧ duration t' = duration t ∧
    parent t' = parent t ∧
    (∀ q, q ≠ p → task_at (data s') q = task_at (data s) q) ∧
    job_id <$> jobs (data s') = job_id <$> jobs (data s) ∧
    (∀ k, k ≠ parent t →
       last_scheduled_time <$> jobs (data s') !! k =
       last_scheduled_time <$> jobs (data s) !! k).
Proof.
  intros Hadd.
  destruct (add_task_table s p s' Hadd)
    as (t & pj & m & tl & it & iv & tl' & Ht & Hpj & Hm & Htl & Hfind & Hiv
        & Hplace & Htab).
  destruct (add_task_start s p s' Hadd)
    as (t1 & pj1 & m1 & tl1 & it1 & iv1 & Ht1 & Hpj1 & Hm1 & Htl1 & Hfind1 & Hiv1
        & Hstart).
  assert (t1 = t) as -> by congruence.
  assert (pj1 = pj) as -> by congruence.
  assert (m1 = m) as -> by congruence.
  assert (tl1 = tl) as -> by congruence.
  assert (it1 = it) as -> by congruence.
  assert (iv1 = iv) as -> by congruence.
  destruct (add_task_lookups s p s' Hadd)
    as (t0 & st & fin & Ht0 & Hmc & Hjob & Htask).
  assert (t0 = t) as -> by congruence.
  destruct (find_slot_spec _ _ _ _ Hfind)
    as (l1 & iv' & l2 & Heq & Hlen & _ & Hfree & _).
  subst tl it.
  assert (iv' = iv) as ->.
  { rewrite list_lookup_middle in Hiv by done. congruence. }
  rewrite place_block_middle in Hplace. injection Hplace as <-.
  set (st' := Z.max (start iv) (last_scheduled_time pj)) in *.
  exists t, (set_scheduled_time st' t), m, l1, iv, l2,
    (if start iv <? st' then [interval_empty (start iv) (tsub st' 1)] else []),
    (if tsub (tadd st' (duration t)) 1 <? end_ iv
     then [interval_empty (tadd st' (duration t)) (end_ iv)] else []).
  split; [done|]. split; [done|]. split; [done|]. split; [done|].
  split.
  { rewrite Htab. unfold split_block. cbn [scheduled_time set_scheduled_time].
    by rewrite <-!app_assoc. }
  split; [destruct (_ <? st'); simpl; lia|].
  split; [destruct (_ <? end_ iv); simpl; lia|].
  split.
  { intros a Ha. apply elem_of_app in Ha as [Ha|Ha].
    - destruct (_ <? st'); [|by apply elem_of_nil in Ha].
      by apply list_elem_of_singleton in Ha as ->.
    - destruct (_ <? end_ iv); [|by apply elem_of_nil in Ha].
      by apply list_elem_of_singleton in Ha as ->. }
  split; [done|]. split; [done|].
  split; [done|]. split; [done|]. split; [done|]. split.
  { intros q Hq. rewrite Htask, decide_False by done. by rewrite option_fmap_id. }
  split.
  - apply list_eq. intros k. rewrite !list_lookup_fmap, Hjob.
    destruct (jobs (data s) !! k) as [j|]; [|done]. simpl. f_equal.
    by repeat case_decide.
  - intros k Hk. rewrite Hjob. destruct (jobs (data s) !! k) as [j|]; [|done].
    simpl. f_equal. rewrite decide_False by done.
    by case_decide.
Qed.
End Frame.

(** ** The layout a run keeps *)
Section Layout.
Context `{TimeRep} `{StdSort}.

Lemma occupied_false iv : occupied iv = false ↔ itask iv = None.
Proof. unfold occupied. by destruct (itask iv). Qed.

Lemma occupied_true iv : occupied iv = true ↔ itask iv ≠ None.
Proof. unfold occupied. by destruct (itask iv). Qed.

Lemma alternating_weaken b tl : alternating b tl → alternating false tl.
Proof. destruct tl as [|a tl]; simpl; [done|]. intros [_ ?]. by split. Qed.

Lemma alternating_split pf l1 iv l2 p st dur :
  alternating pf (l1 ++ iv :: l2) → itask iv = None →
  alternating pf (l1 ++ split_block iv p st dur ++ l2).
Proof.
  intros Halt Hfree. revert pf Halt.
  induction l1 as [|a l1 IH]; intros pf Halt; simpl in *.
  - destruct Halt as [Hpf Hrest]. rewrite Hfree in Hpf, Hrest.
    assert (Hpf' : pf = false) by (destruct pf; [by destruct Hpf|done]).
    subst pf. unfold split_block, interval_empty.
    destruct (_ <? st); destruct (_ <? end_ iv); simpl;
      repeat split; try done; by eapply alternating_weaken.
  - destruct Halt as [Hpf Hrest]. split; [done|]. by apply IH.
Qed.

Lemma alternating_no_adjacent_free pf tl :
  alternating pf tl → no_adjacent_free tl.
Proof.
  revert pf. induction tl as [|a tl IH]; intros pf Halt i x y Hx Hy; [done|].
  destruct Halt as [_ Halt]. destruct i as [|i].
  - simplify_eq/=. destruct tl as [|b tl]; simplify_eq/=.
    destruct Halt as [Hb _]. destruct (itask x); [by left|right; by apply Hb].
  - simpl in Hx, Hy. by apply (IH _ Halt i).
Qed.

Lemma sched_inv_downward done s k a b :
  sched_inv done s → (k, b) ∈ done → (a ≤ b)%nat → (k, a) ∈ done.
Proof.
  intros Hinv Hb Hab. induction Hab as [|b Hab IH]; [done|].
  apply IH.
  destruct (si_valid _ _ Hinv _ Hb) as [tb (j & Hj & Htb)%task_at_Some].
  destruct (lookup_lt_is_Some_2 (sequence j) b) as [ta Hta].
  { apply lookup_lt_Some in Htb. lia. }
  by destruct (si_prec _ _ Hinv k b j ta tb Hb Hj Hta Htb).
Qed.

Lemma add_task_step_explicit done s k i :
  sched_inv done s → is_Some (task_at (data s) (k, i)) → (k, i) ∉ done →
  ∃ j t tl l1 iv l2,
    jobs (data s) !! k = Some j ∧ sequence j !! i = Some t ∧
    parent t = k ∧ 0 < duration t ∧
    table s !! Z.to_nat (machine_id t) = Some tl ∧ chain 0 tl ∧
    tl = l1 ++ iv :: l2 ∧ itask iv = None ∧
    find_slot tl (last_scheduled_time j) (duration t) = Some (length l1) ∧
    0 ≤ last_scheduled_time j ≤ sum_durs (data s) done ∧
    0 ≤ start iv ≤ sum_durs (data s) done ∧
    (∀ a, a ∈ tl → start a ≤ sum_durs (data s) done) ∧
    sum_durs (data s) done + duration t ≤ infinity ∧
    Z.max (start iv) (last_scheduled_time j) + duration t - 1 ≤ end_ iv ∧
    add_task s (k, i) =
      Some (mk_schedule
              (<[Z.to_nat (machine_id t) :=
                   l1 ++ split_block iv (k, i)
                           (Z.max (start iv) (last_scheduled_time j)) (duration t)
                      ++ l2]> (table s))
              (update_task (data s) k i j t
                 (Z.max (start iv) (last_scheduled_time j))
                 (Z.max (start iv) (last_scheduled_time j) + duration t))).
Proof.
  intros Hinv [t Ht0] Hnotin.
  pose proof Ht0 as Ht. apply task_at_Some in Ht as (j & Hj & Ht).
  destruct Hinv as [Hst Htab Hchain Hcur Hnd Hval Hblock Hord Hprec].
  destruct (st_task _ Hst _ _ _ _ Hj Ht) as (Hpar & Hdur & Hm0 & Hm).
  set (m := Z.to_nat (machine_id t)) in *.
  destruct (lookup_lt_is_Some_2 (table s) m) as [tl Htl]; [lia|].
  destruct (Hchain _ _ Htl) as [Hc Hb].
  pose proof (Hcur _ _ Hj) as Hje.
  assert (Hnd' : NoDup ((k, i) :: done)) by (by apply NoDup_cons).
  assert (Hval' : ∀ p, p ∈ (k, i) :: done → is_Some (task_at (data s) p)).
  { intros p [->|Hp]%elem_of_cons; [by eexists|auto]. }
  assert (HB : sum_durs (data s) done + duration t ≤ infinity).
  { pose proof (sum_durs_le_total (data s) _ Hst Hnd' Hval') as Hle.
    rewrite sum_durs_cons, (dur_of_task _ _ _ Ht0) in Hle.
    pose proof (st_total _ Hst). lia. }
  set (B := sum_durs (data s) done) in *.
  destruct (find_slot_chain tl (last_scheduled_time j) (duration t) Hc)
    as [it Hfind]; [lia|].
  destruct (find_slot_spec _ _ _ _ Hfind)
    as (l1 & iv & l2 & Heq & Hlen & _ & Hfree & Hinc & _).
  assert (Hin : iv ∈ tl).
  { rewrite Heq. apply elem_of_app. right. apply list_elem_of_here. }
  pose proof (chain_elem _ _ _ Hc Hin) as Hiv.
  pose proof (Hb _ Hin) as HivB.
  pose proof (includes_from_fits _ _ _ B Hinc ltac:(lia) Hje Hdur HB) as Hfit.
  exists j, t, tl, l1, iv, l2.
  split; [done|]. split; [done|]. split; [done|]. split; [done|].
  split; [done|]. split; [done|]. split; [done|].
  split; [by apply occupied_false|]. split; [by rewrite Hlen|].
  split; [done|]. split; [lia|]. split; [done|]. split; [done|]. split; [done|].
  unfold add_task. simpl fst. simpl snd. rewrite Hj. simpl. rewrite Ht. simpl.
  unfold machine_index. destruct (Z.ltb_spec (machine_id t) 0); [lia|]. simpl.
  fold m. rewrite Htl. simpl. rewrite Hpar, Hj. simpl. rewrite Hfind. simpl.
  assert (Hit : tl !! it = Some iv) by (rewrite Heq; by apply list_lookup_middle).
  rewrite Hit. simpl.
  rewrite (schedule_task_eq s (k, i) m it _ j t tl
             (l1 ++ split_block iv (k, i)
                      (Z.max (start iv) (last_scheduled_time j)) (duration t) ++ l2));
    [|done..|].
  - simpl. by rewrite tadd_small by lia.
  - rewrite Heq, <-Hlen. apply place_block_middle.
Qed.

Lemma add_task_step_layout done s k i s' :
  sched_inv done s → layout_inv done s →
  is_Some (task_at (data s) (k, i)) → (k, i) ∉ done →
  (i = O ∨ (k, pred i) ∈ done) →
  add_task s (k, i) = Some s' →
  layout_inv ((k, i) :: done) s'.
Proof.
  intros Hinv Hlay Hval Hnotin Hprev Hadd.
  destruct (add_task_step_explicit done s k i Hinv Hval Hnotin)
    as (j & t & tl & l1 & iv & l2 & Hj & Ht & Hpar & Hdur & Htl & Hc & Heq & Hfree
        & Hfind & Hje & HivB & _ & HB & Hfit & Hadd').
  rewrite Hadd in Hadd'. injection Hadd' as ->.
  set (st := Z.max (start iv) (last_scheduled_time j)) in *.
  set (m := Z.to_nat (machine_id t)) in *.
  destruct Hlay as [Halt Hocc Hfresh Hlast].
  assert (Hmlt : (m < length (table s))%nat) by (by eapply lookup_lt_Some).
  assert (Htask_ne : ∀ q, q ∈ done →
            task_at (update_task (data s) k i j t st (st + duration t)) q =
            task_at (data s) q).
  { intros q Hq. apply update_task_at_ne; [done..|]. by intros ->. }
  split; cbn [table data].
  - intros m' tl0 Htl0. destruct (decide (m' = m)) as [->|Hne].
    + rewrite list_lookup_insert_eq in Htl0 by done. injection Htl0 as <-.
      apply alternating_split; [|done]. rewrite <-Heq. by eapply Halt.
    + rewrite list_lookup_insert_ne in Htl0 by done. by eapply Halt.
  - intros m' tl0 a q Htl0 Ha Hq.
    assert (Hold : ∀ tl1, table s !! m' = Some tl1 → a ∈ tl1 →
              q ∈ (k, i) :: done ∧
              ∃ t0, task_at (update_task (data s) k i j t st (st + duration t)) q
                      = Some t0 ∧
                Z.to_nat (machine_id t0) = m' ∧ start a = scheduled_time t0 ∧
                end_ a = scheduled_time t0 + duration t0 - 1).
    { intros tl1 Htl1 Ha1.
      destruct (Hocc m' tl1 a q Htl1 Ha1 Hq) as (Hqd & t0 & Ht0 & Hrest).
      split; [by apply list_elem_of_further|].
      exists t0. by rewrite Htask_ne. }
    destruct (decide (m' = m)) as [->|Hne].
    + rewrite list_lookup_insert_eq in Htl0 by done. injection Htl0 as <-.
      rewrite !elem_of_app in Ha. destruct Ha as [Ha|[Ha|Ha]].
      * apply (Hold tl Htl). rewrite Heq. apply elem_of_app. by left.
      * unfold split_block, interval_empty in Ha.
        rewrite block_end_small in Ha by (unfold st; lia).
        apply elem_of_app in Ha as [Ha|Ha].
        { destruct (_ <? st); [|by apply elem_of_nil in Ha].
          apply list_elem_of_singleton in Ha as ->. done. }
        apply elem_of_cons in Ha as [->|Ha].
        { simpl in Hq. injection Hq as <-. split; [apply list_elem_of_here|].
          exists (set_scheduled_time st t).
          split; [by apply update_task_at_eq|]. done. }
        destruct (_ <? end_ iv); [|by apply elem_of_nil in Ha].
        apply list_elem_of_singleton in Ha as ->. done.
      * apply (Hold tl Htl). rewrite Heq. apply elem_of_app. right.
        by apply list_elem_of_further.
    + rewrite list_lookup_insert_ne in Htl0 by done. by apply (Hold tl0).
  - intros k' j' Hj' Hnone.
    assert (k' ≠ k).
    { intros ->. apply (Hnone i). apply list_elem_of_here. }
    rewrite update_task_job_ne in Hj' by done.
    apply (Hfresh k' j' Hj'). intros i' Hi'.
    apply (Hnone i'). by apply list_elem_of_further.
  - intros k' i' j' t' Hin Hnext Hj' Ht'.
    destruct (update_task_lookup (data s) k i j t st (st + duration t) Hj Ht
                _ _ _ _ Hj' Ht')
      as (j0 & t0 & Hj0 & Ht0 & _ & Hd & _ & Hne & Heq' & Hjne & Hjeq).
    destruct (decide (k' = k)) as [->|Hk].
    + destruct (decide (i' = i)) as [->|Hi].
      * destruct (Heq' eq_refl) as [-> Hs]. destruct (Hjeq eq_refl) as [_ Hl].
        rewrite Hs, Hl, Hd. done.
      * exfalso. apply elem_of_cons in Hin as [?|Hin]; [congruence|].
        assert (Hn : (k, S i') ∉ done).
        { intros ?. apply Hnext. by apply list_elem_of_further. }
        assert (S i' ≠ i).
        { intros <-. apply Hnext. apply list_elem_of_here. }
        destruct Hprev as [->|Hprev].
        { apply Hnotin. apply (sched_inv_downward done s k 0 i'); [done..|lia]. }
        destruct (Nat.lt_ge_cases i' i) as [Hlt|Hge].
        { apply Hn. apply (sched_inv_downward done s k (S i') (pred i)); [done..|lia]. }
        apply Hnotin. by apply (sched_inv_downward done s k i i').
    + apply elem_of_cons in Hin as [?|Hin]; [congruence|].
      rewrite (Hne ltac:(congruence)). rewrite (Hjne Hk).
      apply (Hlast k' i' j0 t0); [done| |done..].
      intros ?. apply Hnext. by apply list_elem_of_further.
Qed.

Lemma schedule_new_layout d : wf_dataset d → layout_inv [] (schedule_new d).
Proof.
  intros [Hst Hcur]. split; simpl.
  - intros m tl Htl. rewrite list_lookup_fmap in Htl.
    destruct (replicate (machine_count d) [] !! m) as [l|] eqn:Hl; [|done].
    apply lookup_replicate in Hl as [-> _]. simplify_eq/=. done.
  - intros m tl a p Htl Ha Hp. rewrite list_lookup_fmap in Htl.
    destruct (replicate (machine_count d) [] !! m) as [l|] eqn:Hl; [|done].
    apply lookup_replicate in Hl as [-> _]. simplify_eq/=.
    apply list_elem_of_singleton in Ha as ->. done.
  - intros k j Hj _. apply Hcur. by eapply list_elem_of_lookup_2.
  - intros k i j t Hin. by apply elem_of_nil in Hin.
Qed.

Lemma run_tasks_layout ps done s :
  sched_inv done s → layout_inv done s → call_order (data s) done ps →
  ∃ s', run_tasks s ps = Some s' ∧ sched_inv (reverse ps ++ done) s' ∧
        layout_inv (reverse ps ++ done) s' ∧
        shape (data s') = shape (data s) ∧
        length (table s') = length (table s) ∧
        (∀ q, q ∈ done → task_at (data s') q = task_at (data s) q) ∧
        (∀ q, dur_of (data s') q = dur_of (data s) q).
Proof.
  revert done s. induction ps as [|p ps IH]; intros done s Hinv Hlay Hco.
  - exists s. by simpl.
  - inversion Hco as [|? k i ? Hval Hnot Hprev Hrest]; simplify_eq.
    destruct (add_task_step done s k i Hinv Hval Hnot Hprev)
      as (j & t & tl & it & iv & tl' & Hj & Ht & Htl & _ & _ & Hadd & Hinv').
    pose proof (add_task_step_layout done s k i _ Hinv Hlay Hval Hnot Hprev Hadd)
      as Hlay'.
    set (s1 := mk_schedule _ _) in *.
    assert (Hsh : shape (data s1) = shape (data s)) by (by apply update_task_shape).
    destruct (IH ((k, i) :: done) s1 Hinv' Hlay')
      as (s' & Hrun & Hinv'' & Hlay'' & Hsh' & Hlen & Hkeep & Hdur).
    { eapply call_order_shape; [|done]. done. }
    exists s'. simpl. rewrite Hadd. simpl. rewrite reverse_cons, <-app_assoc. simpl.
    split; [done|]. split; [done|]. split; [done|]. split; [congruence|].
    split; [rewrite Hlen; unfold s1; simpl; by rewrite length_insert|].
    split.
    + intros q Hq. rewrite Hkeep by (by apply list_elem_of_further).
      unfold s1. simpl. apply update_task_at_ne; [done..|]. by intros ->.
    + intros q. rewrite Hdur. unfold s1. simpl. by apply update_task_dur.
Qed.

Lemma run_from_new_layout d ps :
  wf_dataset d → call_order d [] ps →
  ∃ s, run_tasks (schedule_new d) ps = Some s ∧ sched_inv (reverse ps) s ∧
       layout_inv (reverse ps) s ∧ shape (data s) = shape d ∧
       length (table s) = machine_count d ∧
       (∀ q, dur_of (data s) q = dur_of d q).
Proof.
  intros Hwf Hco.
  destruct (run_tasks_layout ps [] (schedule_new d))
    as (s & Hrun & Hinv & Hlay & Hsh & Hlen & _ & Hdur);
    [by apply schedule_new_inv|by apply schedule_new_layout|done|].
  rewrite app_nil_r in Hinv, Hlay. exists s.
  split; [done|]. split; [done|]. split; [done|]. split; [done|].
  split; [|done].
  rewrite Hlen. simpl. by rewrite length_fmap, length_replicate.
Qed.
End Layout.

(** ** What a run guarantees besides the invariants of the specification *)
Section RunGuarantees.
Context `{TimeRep} `{StdSort}.

(** X2.  In a run on a dataset as the loader delivers it, after every call
    of the placement routine no two neighbouring intervals of a timeline
    are both free: every free interval is a whole gap between two blocks
    (or before the first block, or after the last). *)
Theorem free_intervals_never_adjacent d ps :
  wf_dataset d → call_order d [] ps →
  ∃ s, run_tasks (schedule_new d) ps = Some s ∧
       ∀ tl, tl ∈ table s → no_adjacent_free tl.
Proof.
  intros Hwf Hco.
  destruct (run_from_new_layout d ps Hwf Hco) as (s & Hrun & _ & Hlay & _).
  exists s. split; [done|]. intros tl [m Hm]%list_elem_of_lookup_1.
  eapply alternating_no_adjacent_free. by eapply (li_alternating _ _ Hlay).
Qed.

(** X3.  In a run on a dataset as the loader delivers it, after every call
    the occupied intervals of the table are exactly the blocks of the tasks
    placed so far: an interval bound to task [p] in the timeline of machine
    [m] means that [p] has been placed, that [m] is its machine and that the
    interval is [start, start + duration - 1] of [p]; and every placed task
    has this interval in the timeline of its machine. *)
Theorem occupied_intervals_are_placed_tasks d ps :
  wf_dataset d → call_order d [] ps →
  ∃ s, run_tasks (schedule_new d) ps = Some s ∧
    (∀ m tl a p, table s !! m = Some tl → a ∈ tl → itask a = Some p →
       p ∈ ps ∧ ∃ t, task_at (data s) p = Some t ∧
         Z.to_nat (machine_id t) = m ∧
         a = mk_interval (scheduled_time t)
               (scheduled_time t + duration t - 1) (Some p)) ∧
    (∀ p t, p ∈ ps → task_at (data s) p = Some t →
       ∃ tl, table s !! Z.to_nat (machine_id t) = Some tl ∧
         mk_interval (scheduled_time t)
           (scheduled_time t + duration t - 1) (Some p) ∈ tl).
Proof.
  intros Hwf Hco.
  destruct (run_from_new_layout d ps Hwf Hco) as (s & Hrun & Hinv & Hlay & _).
  exists s. split; [done|]. split.
  - intros m tl a p Htl Ha Hp.
    destruct (li_occupant _ _ Hlay m tl a p Htl Ha Hp)
      as (Hin & t & Ht & Hm & Hs & He).
    split; [by apply elem_of_reverse|]. exists t. split; [done|]. split; [done|].
    destruct a as [sa ea ta]. simpl in *. by subst.
  - intros p t Hp Ht. apply (si_block _ _ Hinv p t); [|done].
    by apply elem_of_reverse.
Qed.

Lemma last_placed (done : list task_ptr) s k i :
  sched_inv done s → (k, i) ∈ done →
  ∃ i', (i ≤ i')%nat ∧ (k, i') ∈ done ∧ (k, S i') ∉ done.
Proof.
  intros Hinv Hin.
  destruct (si_valid _ _ Hinv _ Hin) as [t (j & Hj & Ht)%task_at_Some].
  assert (Hbound : ∀ x, (k, x) ∈ done → (x < length (sequence j))%nat).
  { intros x Hx. destruct (si_valid _ _ Hinv _ Hx) as [tx (jx & Hjx & Htx)%task_at_Some].
    simplify_eq. by eapply lookup_lt_Some. }
  clear Ht t.
  remember (length (sequence j) - i)%nat as n eqn:Hn.
  revert i Hin Hn. induction n as [|n IH]; intros i Hin Hn.
  - apply Hbound in Hin. lia.
  - destruct (decide ((k, S i) ∈ done)) as [Hs|Hs].
    + destruct (IH (S i) Hs) as (i' & Hle & Hi' & Hn'); [lia|].
      exists i'. split; [lia|done].
    + exists i. done.
Qed.

(** X4.  In a run on a dataset as the loader delivers it, after every call
    the completion cursor of a job is [0] when none of its tasks has been
    placed, and otherwise the start plus the duration of the task of the
    job that was placed last. *)
Theorem cursor_is_last_completion d ps :
  wf_dataset d → call_order d [] ps →
  ∃ s, run_tasks (schedule_new d) ps = Some s ∧
    (∀ k j, jobs (data s) !! k = Some j → (∀ i, (k, i) ∉ ps) →
       last_scheduled_time j = 0) ∧
    (∀ k i j t, (k, i) ∈ ps → (k, S i) ∉ ps →
       jobs (data s) !! k = Some j → sequence j !! i = Some t →
       last_scheduled_time j = scheduled_time t + duration t).
Proof.
  intros Hwf Hco.
  destruct (run_from_new_layout d ps Hwf Hco) as (s & Hrun & _ & Hlay & _).
  exists s. split; [done|]. split.
  - intros k j Hj Hnone. apply (li_cursor_fresh _ _ Hlay k j Hj).
    intros i Hi. apply (Hnone i). by apply elem_of_reverse.
  - intros k i j t Hin Hnext. apply (li_cursor_last _ _ Hlay k i j t).
    + by apply elem_of_reverse.
    + intros Hi. apply Hnext. by apply elem_of_reverse.
Qed.

(** X5.  A task is placed once and for all: in a run on a dataset as the
    loader delivers it, the calls that follow the placement of a task
    change neither its start time nor anything else about it. *)
Theorem placed_task_never_moves d ps1 ps2 :
  wf_dataset d → call_order d [] (ps1 ++ ps2) →
  ∃ s1 s2,
    run_tasks (schedule_new d) ps1 = Some s1 ∧
    run_tasks s1 ps2 = Some s2 ∧
    run_tasks (schedule_new d) (ps1 ++ ps2) = Some s2 ∧
    ∀ p, p ∈ ps1 → task_at (data s2) p = task_at (data s1) p.
Proof.
  intros Hwf [Hco1 Hco2]%call_order_app.
  destruct (run_from_new_layout d ps1 Hwf Hco1)
    as (s1 & Hrun1 & Hinv1 & Hlay1 & Hsh1 & _).
  rewrite app_nil_r in Hco2.
  destruct (run_tasks_layout ps2 (reverse ps1) s1 Hinv1 Hlay1)
    as (s2 & Hrun2 & _ & _ & _ & _ & Hkeep & _).
  { eapply call_order_shape; [|done]. done. }
  exists s1, s2. split; [done|]. split; [done|].
  split; [by rewrite run_tasks_app, Hrun1|].
  intros p Hp. apply Hkeep. by apply elem_of_reverse.
Qed.
End RunGuarantees.

(** ** The makespan of a run *)
Section Makespan.
Context `{TimeRep} `{StdSort}.

Lemma timeline_length_cons a b tl :
  timeline_length (a :: b :: tl) = timeline_length (b :: tl).
Proof. unfold timeline_length. by rewrite last_cons_cons. Qed.

Lemma chain_length_bounds s tl a v :
  chain s tl → a ∈ tl → timeline_length tl = Some v →
  s ≤ v ∧ start a ≤ v ∧ (itask a ≠ None → end_ a < v).
Proof.
  intros Hc. revert a v.
  induction Hc as [s Hs|s e t rest Hse Hrest IH]; intros a v Ha Hv.
  - apply list_elem_of_singleton in Ha as ->. unfold timeline_length in Hv.
    simpl in Hv. injection Hv as <-. simpl. split; [lia|]. split; [lia|done].
  - destruct (chain_head _ _ Hrest) as (e' & t' & r' & -> & He').
    rewrite timeline_length_cons in Hv.
    destruct (IH (mk_interval (e + 1) e' t') v (list_elem_of_here _ _) Hv)
      as (Hsv & _ & _).
    apply elem_of_cons in Ha as [->|Ha].
    + simpl. split; [lia|]. split; [lia|]. intros _. lia.
    + destruct (IH a v Ha Hv) as (_ & ? & ?). split; [lia|]. done.
Qed.

Lemma chain_tail_block s tl pf v :
  chain s tl → alternating pf tl → timeline_length tl = Some v →
  tl = [mk_interval s infinity None] ∧ v = s ∨
  ∃ a, a ∈ tl ∧ itask a ≠ None ∧ v = end_ a + 1.
Proof.
  intros Hc. revert pf v.
  induction Hc as [s Hs|s e t rest Hse Hrest IH]; intros pf v Halt Hv.
  - left. split; [done|]. unfold timeline_length in Hv. simpl in Hv. congruence.
  - right. destruct (chain_head _ _ Hrest) as (e' & t' & r' & Heq & He').
    rewrite Heq in Hv. rewrite timeline_length_cons in Hv. rewrite <-Heq in Hv.
    destruct Halt as [_ Halt]. simpl in Halt.
    destruct (IH _ v Halt Hv) as [[Hsingle ->]|(a & Ha & Hocc & ->)].
    + exists (mk_interval s e t). split; [apply list_elem_of_here|].
      split; [|done]. simpl. rewrite Hsingle in Halt. simpl in Halt.
      destruct t; [done|]. by destruct Halt as [Hcontra _]; destruct Hcontra.
    + exists a. split; [by apply list_elem_of_further|done].
Qed.

Lemma longest_timeline_spec s m :
  longest_timeline s = Some m →
  (∃ tl, tl ∈ table s ∧ timeline_length tl = Some m) ∧
  (∀ tl, tl ∈ table s → ∃ l, timeline_length tl = Some l ∧ l ≤ m).
Proof.
  unfold longest_timeline, max_element. intros Hm.
  destruct (table s) as [|t rest]; [done|].
  destruct (max_element_from t rest) as [mx|] eqn:Hmax; [|done]. simpl in Hm.
  destruct (max_element_from_spec _ _ _ _ Hmax Hm) as [Hin Hle].
  split; [by exists mx|done].
Qed.

Lemma sum_durs_same d d' l :
  (∀ q, dur_of d' q = dur_of d q) → sum_durs d' l = sum_durs d l.
Proof.
  intros Hd. induction l as [|p l IH]; [done|].
  by rewrite !sum_durs_cons, Hd, IH.
Qed.

Lemma sum_durs_reverse d l : static_ok d → sum_durs d (reverse l) = sum_durs d l.
Proof.
  intros Hst. apply Z.le_antisymm; apply sum_durs_submseteq; try done.
  - apply Permutation_submseteq. apply reverse_Permutation.
  - apply Permutation_submseteq. symmetry. apply reverse_Permutation.
Qed.

Lemma run_makespan d ps :
  wf_dataset d → call_order d [] ps → (0 < machine_count d)%nat →
  ∃ s m,
    run_tasks (schedule_new d) ps = Some s ∧ longest_timeline s = Some m ∧
    sched_inv (reverse ps) s ∧ shape (data s) = shape d ∧
    0 ≤ m ≤ sum_durs d ps ∧
    (∀ p t, p ∈ ps → task_at (data s) p = Some t →
       scheduled_time t + duration t ≤ m) ∧
    (m = 0 ∨ ∃ p t, p ∈ ps ∧ task_at (data s) p = Some t ∧
               scheduled_time t + duration t = m) ∧
    (∀ j, j ∈ jobs (data s) → last_scheduled_time j ≤ m).
Proof.
  intros Hwf Hco Hmc.
  destruct (run_from_new_layout d ps Hwf Hco)
    as (s & Hrun & Hinv & Hlay & Hsh & Hlen & Hdur).
  assert (Hchain : ∀ tl, tl ∈ table s → chain 0 tl).
  { intros tl [i Hi]%list_elem_of_lookup_1. by destruct (si_chain _ _ Hinv i tl Hi). }
  destruct (longest_timeline_defined s) as [m Hm].
  { intros Hnil. rewrite Hnil in Hlen. simpl in Hlen. lia. }
  { intros tl Htl ->. by pose proof (Hchain _ Htl) as Hc; inversion Hc. }
  destruct (longest_timeline_spec s m Hm) as [(tlm & Htlm & Hlm) Hmax].
  assert (Hcompl : ∀ p t, p ∈ ps → task_at (data s) p = Some t →
            scheduled_time t + duration t ≤ m).
  { intros p t Hp Ht.
    destruct (si_block _ _ Hinv p t) as (tl & Htl & Hblk);
      [by apply elem_of_reverse|done|].
    apply list_elem_of_lookup_2 in Htl.
    destruct (Hmax tl Htl) as (l & Hl & Hle).
    destruct (chain_length_bounds 0 tl _ l (Hchain tl Htl) Hblk Hl) as (_ & _ & Hend).
    simpl in Hend. specialize (Hend ltac:(done)). lia. }
  exists s, m. split; [done|]. split; [done|]. split; [done|]. split; [done|].
  split; [|split; [done|split]].
  - pose proof (Hchain _ Htlm) as Hc.
    destruct (chain_last_free _ _ Hc) as (l & Hl & Hfree & _).
    assert (Hin : l ∈ tlm).
    { apply last_Some in Hl as [l' ->]. apply elem_of_app. right.
      apply list_elem_of_here. }
    destruct (chain_length_bounds 0 tlm l m Hc Hin Hlm) as (H0m & _ & _).
    split; [done|].
    apply list_elem_of_lookup_1 in Htlm as [i Hi].
    destruct (si_chain _ _ Hinv i tlm Hi) as [_ Hb].
    unfold timeline_length in Hlm. rewrite Hl, Hfree in Hlm. injection Hlm as <-.
    rewrite <-(sum_durs_reverse d ps) by (by destruct Hwf).
    rewrite <-(sum_durs_same d (data s)) by done. by apply Hb.
  - pose proof (Hchain _ Htlm) as Hc.
    apply list_elem_of_lookup_1 in Htlm as [i Hi].
    pose proof (li_alternating _ _ Hlay i tlm Hi) as Halt.
    destruct (chain_tail_block 0 tlm false m Hc Halt Hlm)
      as [[_ ->]|(a & Ha & Hocc & ->)]; [by left|right].
    destruct (itask a) as [p|] eqn:Hp; [|done].
    destruct (li_occupant _ _ Hlay i tlm a p Hi Ha Hp)
      as (Hin & t & Ht & _ & Hs & He).
    exists p, t. split; [by apply elem_of_reverse|]. split; [done|]. lia.
  - intros j [k Hj]%list_elem_of_lookup_1.
    assert (H0m : 0 ≤ m).
    { pose proof (Hchain _ Htlm) as Hc.
      destruct (chain_last_free _ _ Hc) as (l & Hl & _).
      assert (Hin : l ∈ tlm).
      { apply last_Some in Hl as [l' ->]. apply elem_of_app. right.
        apply list_elem_of_here. }
      by destruct (chain_length_bounds 0 tlm l m Hc Hin Hlm). }
    destruct (decide (Exists (λ p : task_ptr, p.1 = k) (reverse ps)))
      as [([k' i] & Hi & Hk)%Exists_exists|Hnone].
    + simpl in Hk. subst k'. destruct (last_placed _ s k i Hinv Hi) as (i' & _ & Hi' & Hnext).
      destruct (si_valid _ _ Hinv _ Hi') as [t (j' & Hj' & Ht)%task_at_Some].
      simplify_eq.
      rewrite (li_cursor_last _ _ Hlay k i' j t Hi' Hnext Hj Ht).
      apply (Hcompl (k, i') t); [by apply elem_of_reverse|].
      apply task_at_Some. eauto.
    + rewrite (li_cursor_fresh _ _ Hlay k j Hj); [done|].
      intros i Hi. apply Hnone. apply Exists_exists. by exists (k, i).
Qed.

(** X6.  In a run on a dataset as the loader delivers it with at least one
    machine, after every call [longest_timeline] returns the latest
    completion time: no placed task has a start plus duration beyond it, it
    is [0] or the start plus duration of some placed task, and no job has
    its cursor beyond it. *)
Theorem makespan_is_latest_completion d ps :
  wf_dataset d → call_order d [] ps → (0 < machine_count d)%nat →
  ∃ s m,
    run_tasks (schedule_new d) ps = Some s ∧ longest_timeline s = Some m ∧
    (∀ p t, p ∈ ps → task_at (data s) p = Some t →
       scheduled_time t + duration t ≤ m) ∧
    (m = 0 ∨ ∃ p t, p ∈ ps ∧ task_at (data s) p = Some t ∧
               scheduled_time t + duration t = m) ∧
    (∀ j, j ∈ jobs (data s) → last_scheduled_time j ≤ m).
Proof.
  intros Hwf Hco Hmc.
  destruct (run_makespan d ps Hwf Hco Hmc)
    as (s & m & Hrun & Hm & _ & _ & _ & Hall & Hsome & Hcur).
  by exists s, m.
Qed.

(** X7.  In a run on a dataset as the loader delivers it with at least one
    machine, the makespan never exceeds the sum of the durations of the
    tasks placed so far, which is at most the sum of all durations and so
    at most [infinity]. *)
Theorem makespan_at_most_total_work d ps :
  wf_dataset d → call_order d [] ps → (0 < machine_count d)%nat →
  ∃ s m,
    run_tasks (schedule_new d) ps = Some s ∧ longest_timeline s = Some m ∧
    0 ≤ m ≤ sum_durs d ps ∧ sum_durs d ps ≤ total_duration d ∧
    total_duration d ≤ infinity.
Proof.
  intros Hwf Hco Hmc.
  destruct (run_makespan d ps Hwf Hco Hmc)
    as (s & m & Hrun & Hm & Hinv & Hsh & Hbound & _).
  exists s, m. split; [done|]. split; [done|]. split; [done|].
  destruct Hwf as [Hst _]. split; [|by apply st_total].
  apply sum_durs_le_total; [done| |].
  - pose proof (si_nodup _ _ Hinv) as Hnd. by rewrite reverse_Permutation in Hnd.
  - intros p Hp. eapply valid_same_shape; [exact Hsh|].
    apply (si_valid _ _ Hinv). by apply elem_of_reverse.
Qed.
End Makespan.

(** ** The start a placement chooses *)
Section EarliestStart.
Context `{TimeRep} `{StdSort}.

(** X8.  In a run on a dataset as the loader delivers it, [add_task] gives
    a task the earliest start that is feasible: the start is at or after
    the cursor of the job, the machine is free throughout the chosen range
    [start, start + duration - 1], and for every earlier time [x] at or
    after the cursor the machine is busy at some time of
    [x, x + duration - 1]. *)
Theorem add_task_earliest_start d ps k i :
  wf_dataset d → call_order d [] (ps ++ [(k, i)]) →
  ∃ s s' j t tl t',
    run_tasks (schedule_new d) ps = Some s ∧ add_task s (k, i) = Some s' ∧
    jobs (data s) !! k = Some j ∧ sequence j !! i = Some t ∧
    table s !! Z.to_nat (machine_id t) = Some tl ∧
    task_at (data s') (k, i) = Some t' ∧
    last_scheduled_time j ≤ scheduled_time t' ∧
    (∀ u, scheduled_time t' ≤ u ≤ scheduled_time t' + duration t - 1 →
          free_at tl u) ∧
    (∀ x, last_scheduled_time j ≤ x < scheduled_time t' →
          ∃ u, x ≤ u ≤ x + duration t - 1 ∧ busy_at tl u).
Proof.
  intros Hwf [Hco1 Hco2]%call_order_app.
  destruct (run_from_new_layout d ps Hwf Hco1)
    as (s & Hrun & Hinv & Hlay & Hsh & _).
  inversion Hco2 as [|? ? ? ? Hval Hnot _ _]; simplify_eq.
  rewrite app_nil_r in Hnot.
  assert (Hval' : is_Some (task_at (data s) (k, i)))
    by (by eapply valid_same_shape).
  destruct (add_task_step_explicit _ s k i Hinv Hval' Hnot)
    as (j & t & tl & l1 & iv & l2 & Hj & Ht & Hpar & Hdur & Htl & Hc & Heq & Hfree
        & Hfind & Hje & HivB & Hb & HB & Hfit & Hadd).
  set (c := last_scheduled_time j) in *.
  set (st := Z.max (start iv) c) in *.
  set (B := sum_durs (data s) (reverse ps)) in *.
  eexists s, _, j, t, tl, (set_scheduled_time st t).
  split; [done|]. split; [exact Hadd|]. split; [done|]. split; [done|].
  split; [done|]. cbn [data].
  split; [by apply update_task_at_eq|].
  cbn [scheduled_time set_scheduled_time].
  assert (Hiv : iv ∈ tl).
  { rewrite Heq. apply elem_of_app. right. apply list_elem_of_here. }
  split; [lia|]. split.
  - intros u Hu. exists iv. split; [done|]. split; [lia|done].
  - intros x Hx.
    destruct (find_slot_spec _ _ _ _ Hfind)
      as (l1' & iv' & l2' & Heq' & Hlen' & Hfirst & _ & _ & Hskip).
    destruct (interval_at_chain tl c Hc) as (a0 & Ha0 & Hinc0); [lia|].
    unfold includes in Hinc0.
    destruct (proj2 (chain_union 0 tl x Hc)) as (b & Hbin & Hbx); [lia|].
    unfold includes in Hbx.
    apply list_elem_of_lookup_1 in Hbin as [jx Hjx].
    assert (Hit : tl !! length l1 = Some iv).
    { rewrite Heq. by apply list_lookup_middle. }
    assert (Hge : (interval_at tl c ≤ jx)%nat).
    { destruct (Nat.le_gt_cases (interval_at tl c) jx) as [|Hlt]; [done|].
      pose proof (chain_lookup_lt _ _ _ _ _ _ Hc Hlt Hjx Ha0). lia. }
    assert (Hlt : (jx < length l1)%nat).
    { destruct (Nat.lt_trichotomy jx (length l1)) as [|[->|Hgt]]; [done| |].
      - simplify_eq. lia.
      - pose proof (chain_lookup_lt _ _ _ _ _ _ Hc Hgt Hit Hjx). lia. }
    destruct (itask b) as [q|] eqn:Hq.
    { exists x. split; [lia|]. exists b.
      split; [by eapply list_elem_of_lookup_2|]. split; [lia|]. by rewrite Hq. }
    destruct (Hskip jx b ltac:(lia) Hjx) as [Hocc|Hshort].
    { apply occupied_true in Hocc. congruence. }
    assert (HbB : start b ≤ B) by (apply Hb; by eapply list_elem_of_lookup_2).
    pose proof (chain_elem _ _ _ Hc (list_elem_of_lookup_2 _ _ _ Hjx)) as Hbr.
    apply includes_from_false_plain in Hshort; [|lia..].
    destruct (lookup_lt_is_Some_2 tl (S jx)) as [b' Hb'].
    { apply lookup_lt_Some in Hit. lia. }
    pose proof (chain_lookup_succ _ _ _ _ _ Hc Hjx Hb') as Hnext.
    pose proof (chain_elem _ _ _ Hc (list_elem_of_lookup_2 _ _ _ Hb')) as Hbr'.
    pose proof (li_alternating _ _ Hlay _ _ Htl) as Halt.
    destruct (alternating_no_adjacent_free _ _ Halt jx b b' Hjx Hb') as [?|Hocc'];
      [congruence|].
    exists (end_ b + 1). split; [lia|]. exists b'.
    split; [by eapply list_elem_of_lookup_2|]. split; [lia|done].
Qed.
End EarliestStart.

(** ** The cells of a timeline *)
Section QuantizedFacts.
Context `{TimeRep} `{StdSort}.

Lemma quantized_interval_spec fuel d iv limit i c :
  cell_of d iv = Some c → 0 ≤ i → limit ≤ infinity →
  (Z.to_nat (limit - i) ≤ fuel)%nat →
  quantized_interval fuel d iv limit i =
  Some (replicate (Z.to_nat (Z.min (end_ iv + 1) limit - i)) c).
Proof.
  intros Hc. revert i. induction fuel as [|fuel IH]; intros i Hi Hlim Hfuel; simpl.
  - replace (Z.to_nat (Z.min (end_ iv + 1) limit - i)) with O by lia. done.
  - destruct (Z.leb_spec i (end_ iv)); destruct (Z.ltb_spec i limit); simpl.
    + rewrite Hc. simpl. rewrite tadd_small by lia.
      rewrite IH by lia. simpl.
      replace (Z.to_nat (Z.min (end_ iv + 1) limit - i))
        with (S (Z.to_nat (Z.min (end_ iv + 1) limit - (i + 1)))) by lia.
      done.
    + replace (Z.to_nat (Z.min (end_ iv + 1) limit - i)) with O by lia. done.
    + replace (Z.to_nat (Z.min (end_ iv + 1) limit - i)) with O by lia. done.
    + replace (Z.to_nat (Z.min (end_ iv + 1) limit - i)) with O by lia. done.
Qed.

Lemma quantized_cells_chain d s tl limit :
  chain s tl → 0 ≤ s → limit ≤ infinity →
  (∀ a, a ∈ tl → is_Some (cell_of d a)) →
  ∃ cells,
    quantized_cells d tl limit = Some cells ∧
    length cells = Z.to_nat (limit - s) ∧
    ∀ x, s ≤ x < limit →
      ∃ a, a ∈ tl ∧ start a ≤ x ≤ end_ a ∧
           cells !! Z.to_nat (x - s) = cell_of d a.
Proof.
  intros Hc. induction Hc as [s Hs|s e t rest Hse Hrest IH]; intros Hs0 Hlim Hcell.
  - destruct (Hcell _ (list_elem_of_here _ _)) as [c Hc].
    exists (replicate (Z.to_nat (limit - s)) c). simpl.
    rewrite (quantized_interval_spec _ d _ limit s c Hc) by (simpl; lia). simpl.
    replace (Z.to_nat (Z.min (infinity + 1) limit - s))
      with (Z.to_nat (limit - s)) by lia.
    rewrite app_nil_r. split; [done|]. split; [by rewrite length_replicate|].
    intros x Hx. eexists. split; [apply list_elem_of_here|]. simpl.
    split; [lia|]. rewrite Hc. apply lookup_replicate_2. lia.
  - destruct (Hcell _ (list_elem_of_here _ _)) as [c Hc].
    destruct IH as (cells & Hcells & Hlen & Hlook); [lia|done| |].
    { intros a Ha. apply Hcell. by apply list_elem_of_further. }
    set (n1 := Z.to_nat (Z.min (e + 1) limit - s)).
    exists (replicate n1 c ++ cells). simpl.
    rewrite (quantized_interval_spec _ d _ limit s c Hc) by (simpl; lia). simpl.
    rewrite Hcells. simpl. fold n1. split; [done|]. split.
    { rewrite length_app, length_replicate, Hlen. unfold n1. lia. }
    intros x Hx. destruct (Z.le_gt_cases x e) as [Hxe|Hxe].
    + eexists. split; [apply list_elem_of_here|]. simpl. split; [lia|].
      rewrite lookup_app_l by (rewrite length_replicate; unfold n1; lia).
      rewrite Hc. apply lookup_replicate_2. unfold n1. lia.
    + destruct (Hlook x) as (a & Ha & Hax & Hcx); [lia|].
      exists a. split; [by apply list_elem_of_further|]. split; [done|].
      rewrite lookup_app_r by (rewrite length_replicate; unfold n1; lia).
      rewrite length_replicate, <-Hcx. f_equal. unfold n1. lia.
Qed.

Lemma quantized_on_chain d tl limit :
  chain 0 tl → 0 ≤ limit ≤ infinity →
  (∀ a, a ∈ tl → is_Some (cell_of d a)) →
  ∃ cells,
    quantized d tl limit = Some (replicate (Z.to_nat limit) 0 ++ cells) ∧
    length cells = Z.to_nat limit ∧
    ∀ x, 0 ≤ x < limit →
      ∃ a, a ∈ tl ∧ start a ≤ x ≤ end_ a ∧
           cells !! Z.to_nat x = cell_of d a.
Proof.
  intros Hc Hlim Hcell.
  destruct (quantized_cells_chain d 0 tl limit Hc) as (cells & Hcells & Hlen & Hlook);
    [lia|lia|done|].
  exists cells. unfold quantized.
  destruct (Z.ltb_spec limit 0); [lia|]. rewrite Hcells. simpl.
  split; [done|]. split; [by rewrite Hlen, Z.sub_0_r|].
  intros x Hx. destruct (Hlook x Hx) as (a & Ha & Hax & Hcx).
  exists a. split; [done|]. split; [done|]. by rewrite Z.sub_0_r in Hcx.
Qed.

(** X9.  After any valid sequence of calls of [add_task] from the initial
    schedule, [quantized(limit)] of every timeline, for a limit from [0] to
    [infinity], returns the [limit] zeros the vector is created with followed
    by one cell for each time [0 .. limit - 1]: [-1] where the machine is
    free, and the id of the job whose placed task runs on the machine at that
    time otherwise. *)
Theorem quantized_of_run d ps limit :
  wf_dataset d → call_order d [] ps → 0 ≤ limit ≤ infinity →
  ∃ s, run_tasks (schedule_new d) ps = Some s ∧
    ∀ m tl, table s !! m = Some tl →
      ∃ cells,
        quantized (data s) tl limit =
          Some (replicate (Z.to_nat limit) 0 ++ cells) ∧
        length cells = Z.to_nat limit ∧
        ∀ x, 0 ≤ x < limit →
          (free_at tl x ∧ cells !! Z.to_nat x = Some (-1)) ∨
          (∃ k i j t,
             (k, i) ∈ ps ∧ jobs (data s) !! k = Some j ∧
             sequence j !! i = Some t ∧ Z.to_nat (machine_id t) = m ∧
             scheduled_time t ≤ x < scheduled_time t + duration t ∧
             cells !! Z.to_nat x = Some (job_id j)).
Proof.
  intros Hwf Hco Hlim.
  destruct (run_from_new_layout d ps Hwf Hco) as (s & Hrun & Hinv & Hlay & _).
  exists s. split; [done|]. intros m tl Htl.
  assert (Hocc : ∀ a p, a ∈ tl → itask a = Some p →
            ∃ j t, p ∈ ps ∧ jobs (data s) !! p.1 = Some j ∧
                   sequence j !! p.2 = Some t ∧ Z.to_nat (machine_id t) = m ∧
                   start a = scheduled_time t ∧
                   end_ a = scheduled_time t + duration t - 1 ∧
                   cell_of (data s) a = Some (job_id j)).
  { intros a p Ha Hp.
    destruct (li_occupant _ _ Hlay m tl a p Htl Ha Hp)
      as (Hin & t & Ht & Hm & Hst & Hen).
    pose proof Ht as (j & Hj & Hjt)%task_at_Some.
    destruct (st_task _ (si_static _ _ Hinv) _ _ _ _ Hj Hjt) as (Hpar & _).
    exists j, t. rewrite elem_of_reverse in Hin.
    repeat (split; [done|]).
    unfold cell_of. rewrite Hp, Ht. simpl. rewrite Hpar, Hj. reflexivity. }
  destruct (quantized_on_chain (data s) tl limit) as (cells & Hq & Hlen & Hlook).
  { by apply (si_chain _ _ Hinv m). }
  { done. }
  { intros a Ha. destruct (itask a) as [p|] eqn:Hp.
    - destruct (Hocc a p Ha Hp) as (j & t & _ & _ & _ & _ & _ & _ & Hc).
      rewrite Hc. by eexists.
    - unfold cell_of. rewrite Hp. by eexists. }
  exists cells. split; [done|]. split; [done|].
  intros x Hx. destruct (Hlook x Hx) as (a & Ha & Hax & Hcx).
  destruct (itask a) as [p|] eqn:Hp.
  - right. destruct (Hocc a p Ha Hp) as (j & t & Hin & Hj & Hjt & Hm & Hst & Hen & Hc).
    destruct p as [k i]. exists k, i, j, t.
    repeat (split; [done|]). split; [lia|]. by rewrite Hcx.
  - left. split; [by exists a|]. rewrite Hcx. unfold cell_of. by rewrite Hp.
Qed.
End QuantizedFacts.

(** ** Where the results are defined *)
Section Definedness.
Context `{TimeRep} `{StdSort}.

(** X10.  [longest_timeline] and [summary] have a result exactly when the
    table has at least one machine and no timeline is empty: with no
    machine [std::max_element] returns [end()], and [back()] of an empty
    list is not defined. *)
Theorem longest_timeline_defined_iff s :
  (is_Some (longest_timeline s) ↔
   table s ≠ [] ∧ ∀ tl, tl ∈ table s → tl ≠ []) ∧
  (is_Some (summary s) ↔ is_Some (longest_timeline s)).
Proof.
  split.
  - split.
    + intros [m Hm]. destruct (longest_timeline_spec s m Hm) as [(tl & Htl & _) Hall].
      split.
      * intros Hnil. rewrite Hnil in Htl. by apply elem_of_nil in Htl.
      * intros tl' Htl' ->. by destruct (Hall [] Htl') as (l & Hl & _).
    + intros [Hne Hall]. by apply longest_timeline_defined.
  - unfold summary. destruct (longest_timeline s); simpl.
    + split; intros _; by eexists.
    + split; intros [? ?]; done.
Qed.

(** X11.  [interval_at] returns [end()] exactly when no interval of the
    timeline contains the time; the scan of [add_task] then reads through
    [end()], so [add_task] has no defined result for a task whose job has
    its cursor in no interval of the timeline of its machine. *)
Theorem interval_at_end_iff tl time :
  (interval_at tl time = length tl ↔ ∀ a, a ∈ tl → includes a time = false) ∧
  (∀ dur, (∀ a, a ∈ tl → includes a time = false) →
     find_slot tl time dur = None) ∧
  (∀ s p t pj m,
     task_at (data s) p = Some t → jobs (data s) !! parent t = Some pj →
     machine_index t = Some m → table s !! m = Some tl →
     last_scheduled_time pj = time →
     (∀ a, a ∈ tl → includes a time = false) →
     add_task s p = None).
Proof.
  assert (Hiff : interval_at tl time = length tl ↔
            ∀ a, a ∈ tl → includes a time = false).
  { induction tl as [|b tl IH]; simpl.
    - split; [intros _ a Ha; by apply elem_of_nil in Ha|done].
    - destruct (includes b time) eqn:Hb; split.
      + done.
      + intros Hall. rewrite (Hall b) in Hb by apply list_elem_of_here. done.
      + intros [= Heq]. pose proof (proj1 IH Heq) as Hrest.
        intros a [->|Ha]%elem_of_cons; [done|by apply Hrest].
      + intros Hall. f_equal. apply (proj2 IH). intros a Ha. apply Hall.
        by apply list_elem_of_further. }
  assert (Hfind : ∀ dur, (∀ a, a ∈ tl → includes a time = false) →
            find_slot tl time dur = None).
  { intros dur Hall. unfold find_slot. rewrite (proj2 Hiff Hall).
    by rewrite drop_all. }
  split; [done|]. split; [done|].
  intros s p t pj m Ht Hpj Hm Htl Hcur Hall. unfold add_task.
  unfold task_at in Ht.
  destruct (jobs (data s) !! p.1) as [j|]; [|done]. simpl in *.
  rewrite Ht. simpl. rewrite Hm. simpl. rewrite Htl. simpl. rewrite Hpj. simpl.
  rewrite Hcur. by rewrite Hfind.
Qed.
End Definedness.

(** ** The order of dispatch of a stage *)
Section DispatchOrder.
Context `{TimeRep} `{StdSort}.

(** X12.  A round of the loop of [schedule_jobs], at a stage at which all
    jobs have an operation and with a heuristic that is a strict weak
    ordering, is a sequence of calls of [add_task] that takes the operation
    of every job once, in an order the heuristic agrees with: no job is
    taken before one that the heuristic ranks strictly ahead of it. *)
Theorem stage_dispatch_respects_heuristic h s i :
  heuristic_ok h →
  (∀ j, j ∈ jobs (data s) → (i < length (sequence j))%nat) →
  ∃ order,
    order ≡ₚ seq 0 (length (jobs (data s))) ∧
    stage h s i = run_tasks s (stage_ptrs i order) ∧
    ∀ a b ka kb ja jb, (a < b)%nat →
      order !! a = Some ka → order !! b = Some kb →
      jobs (data s) !! ka = Some ja → jobs (data s) !! kb = Some jb →
      h jb ja (Z.of_nat i) = false.
Proof.
  intros Hh Hlen. unfold stage.
  destruct (sort_spec nat (stage_cmp h (jobs (data s)) i)
              (seq 0 (length (jobs (data s)))))
    as [Hperm Hsorted].
  { by apply stage_cmp_swo. }
  eexists. split; [exact Hperm|]. split; [apply add_tasks_run|].
  intros a b ka kb ja jb Hab Ha Hb Hja Hjb.
  specialize (Hsorted a b ka kb Hab Ha Hb).
  unfold stage_cmp in Hsorted. by rewrite Hja, Hjb in Hsorted.
Qed.
End DispatchOrder.

(** ** [schedule_jobs] on jobs of different lengths *)
Section FirstJobLength.
Context `{TimeRep} `{StdSort}.

Lemma shape_bound_job d len j :
  Forall (λ m, (len ≤ m)%nat) (shape d) → j ∈ jobs d →
  (len ≤ length (sequence j))%nat.
Proof.
  intros Hall Hj. rewrite Forall_forall in Hall. apply Hall.
  unfold shape. apply list_elem_of_fmap. by exists j.
Qed.

Lemma shape_bound_valid d len k i :
  Forall (λ m, (len ≤ m)%nat) (shape d) →
  (k < length (jobs d))%nat → (i < len)%nat → is_Some (task_at d (k, i)).
Proof.
  intros Hall Hk Hi. apply valid_shape.
  destruct (lookup_lt_is_Some_2 (shape d) k) as [m Hm].
  { unfold shape. by rewrite length_fmap. }
  exists m. split; [done|]. rewrite Forall_forall in Hall.
  specialize (Hall m (list_elem_of_lookup_2 _ _ _ Hm)). simpl in Hall. lia.
Qed.

Lemma shape_jobs_length d d' : shape d = shape d' → length (jobs d) = length (jobs d').
Proof.
  intros Hsh. assert (Hl : length (shape d) = length (shape d')) by by rewrite Hsh.
  unfold shape in Hl. by rewrite !length_fmap in Hl.
Qed.

Lemma stages_run_prefix h len :
  heuristic_ok h →
  ∀ cnt i done s,
    (i + cnt = len)%nat →
    sched_inv done s →
    Forall (λ m, (len ≤ m)%nat) (shape (data s)) →
    (∀ k i', (k, i') ∈ done ↔ (k < length (jobs (data s)))%nat ∧ (i' < i)%nat) →
    ∃ ps s',
      stages h s (seq i cnt) = Some s' ∧
      run_tasks s ps = Some s' ∧
      call_order (data s) done ps ∧
      sched_inv (reverse ps ++ done) s' ∧
      shape (data s') = shape (data s) ∧
      (∀ k i', (k, i') ∈ reverse ps ++ done ↔
               (k < length (jobs (data s)))%nat ∧ (i' < i + cnt)%nat).
Proof.
  intros Hh. induction cnt as [|cnt IH]; intros i done s Hic Hinv Hsh Hdone.
  - exists [], s. simpl. split_and!; try done; [constructor|].
    intros k i'. rewrite Hdone. split; intros [? ?]; split; lia.
  - simpl.
    destruct (stage_run h s i Hh) as (order & Hperm & Hstage).
    { intros j Hj. pose proof (shape_bound_job _ _ _ Hsh Hj). lia. }
    assert (Hnd : NoDup order) by (rewrite Hperm; apply NoDup_seq).
    assert (Hin : ∀ k, k ∈ order ↔ (k < length (jobs (data s)))%nat).
    { intros k. rewrite Hperm, elem_of_seq. lia. }
    assert (Hco : call_order (data s) done (stage_ptrs i order)).
    { apply stage_call_order; [done|]. intros k Hk%Hin. split_and!.
      - apply (shape_bound_valid _ len); [done|done|lia].
      - rewrite Hdone. lia.
      - destruct i as [|i]; [by left|right]. apply Hdone. simpl. lia. }
    destruct (run_tasks_inv _ _ _ Hinv Hco) as (s1 & Hrun1 & Hinv1 & Hsh1 & Hmc1).
    rewrite Hstage, Hrun1. simpl.
    pose proof (shape_jobs_length _ _ Hsh1) as Hlen1.
    assert (Hdone1 : ∀ k i', (k, i') ∈ reverse (stage_ptrs i order) ++ done ↔
                             (k < length (jobs (data s1)))%nat ∧ (i' < S i)%nat).
    { intros k i'. rewrite Hlen1, elem_of_app, elem_of_reverse, Hdone.
      unfold stage_ptrs. rewrite list_elem_of_fmap. split.
      - intros [(k' & [= -> ->] & Hk'%Hin)|[? ?]]; lia.
      - intros [Hk Hi']. destruct (decide (i' = i)) as [->|?].
        + left. exists k. split; [done|]. by apply Hin.
        + right. lia. }
    destruct (IH (S i) _ s1 ltac:(lia) Hinv1 ltac:(by rewrite Hsh1) Hdone1)
      as (ps & s' & Hstages & Hrun & Hco' & Hinv' & Hsh' & Hdone').
    exists (stage_ptrs i order ++ ps), s'.
    split; [done|]. split; [by rewrite run_tasks_app, Hrun1|].
    split.
    { apply call_order_app. split; [done|].
      eapply call_order_shape; [|done]. done. }
    rewrite reverse_app, <-app_assoc.
    split; [done|]. split; [congruence|].
    intros k i'. rewrite Hdone', Hlen1. split; intros [? ?]; split; lia.
Qed.

(** X13.  [schedule_jobs] takes the number of stages from the first job.
    When no job has fewer operations than the first one, it has a result,
    which is the result of a valid sequence of calls of [add_task] that
    places operations [0 .. n - 1] of every job, [n] being the number of
    operations of the first job, followed by the sort of the jobs by id; an
    operation at position [n] or later is never placed and keeps the start
    time it had, in the state the calls leave and, at the place its job has
    moved to, in the state returned. *)
Theorem schedule_jobs_first_job_length d h j0 :
  wf_dataset d → heuristic_ok h → jobs d !! O = Some j0 →
  (∀ j, j ∈ jobs d → (length (sequence j0) ≤ length (sequence j))%nat) →
  ∃ ps s0,
    call_order d [] ps ∧
    (∀ k i, (k, i) ∈ ps ↔
       (k < length (jobs d))%nat ∧ (i < length (sequence j0))%nat) ∧
    run_tasks (schedule_new d) ps = Some s0 ∧
    schedule_jobs h (schedule_new d) = Some (sort_jobs s0) ∧
    jobs (data (sort_jobs s0)) ≡ₚ jobs (data s0) ∧
    (∀ q, q ∉ ps → task_at (data s0) q = task_at d q) ∧
    (∀ q, q ∉ ps →
       task_at (data (sort_jobs s0))
         (moved_to (sort tagged_id_less (imap pair (jobs (data s0)))) q.1, q.2)
       = task_at d q).
Proof.
  intros Hwf Hh Hj0 Hlen.
  destruct (stages_run_prefix h (length (sequence j0)) Hh (length (sequence j0))
              O [] (schedule_new d))
    as (ps & s0 & Hstages & Hrun & Hco & Hinv & Hsh & Hdone).
  { lia. }
  { by apply schedule_new_inv. }
  { apply Forall_forall. intros m (j & -> & Hj)%list_elem_of_fmap. by apply Hlen. }
  { intros k i'. split; [by intros ?%elem_of_nil|lia]. }
  rewrite app_nil_r in Hdone. exists ps, s0.
  split; [done|]. split.
  { intros k i. by rewrite <-elem_of_reverse, Hdone. }
  split; [done|]. split.
  { unfold schedule_jobs. cbn [schedule_new data jobs]. rewrite Hj0.
    cbn [mbind option_bind]. by rewrite Hstages. }
  split; [apply sorted_jobs_perm|].
  assert (Hkeep : ∀ q, q ∉ ps → task_at (data s0) q = task_at d q).
  { intros q Hq. by rewrite (run_tasks_untouched ps _ _ Hrun q Hq). }
  split; [done|].
  intros q Hq. rewrite sort_jobs_task_at. by apply Hkeep.
Qed.

(** X15.  The pointers of the table follow the tasks through the last sort
    of [schedule_jobs].  When no job has fewer operations than the first
    one, in the state [schedule_jobs] returns the occupied intervals are
    exactly the blocks of the placed tasks: an interval of the timeline of
    machine [m] that is bound to a task has this task among operations
    [0 .. n - 1] of a job, on machine [m], and is its range
    [start, start + duration - 1]; and each of these operations has its
    range, bound to it, in the timeline of its machine. *)
Theorem schedule_jobs_blocks d h j0 :
  wf_dataset d → heuristic_ok h → jobs d !! O = Some j0 →
  (∀ j, j ∈ jobs d → (length (sequence j0) ≤ length (sequence j))%nat) →
  ∃ s,
    schedule_jobs h (schedule_new d) = Some s ∧
    (∀ m tl a p, table s !! m = Some tl → a ∈ tl → itask a = Some p →
       (p.2 < length (sequence j0))%nat ∧
       ∃ t, task_at (data s) p = Some t ∧
         Z.to_nat (machine_id t) = m ∧
         a = mk_interval (scheduled_time t)
               (scheduled_time t + duration t - 1) (Some p)) ∧
    (∀ k i t, (i < length (sequence j0))%nat →
       task_at (data s) (k, i) = Some t →
       ∃ tl, table s !! Z.to_nat (machine_id t) = Some tl ∧
         mk_interval (scheduled_time t)
           (scheduled_time t + duration t - 1) (Some (k, i)) ∈ tl).
Proof.
  intros Hwf Hh Hj0 Hlen.
  destruct (stages_run_prefix h (length (sequence j0)) Hh (length (sequence j0))
              O [] (schedule_new d))
    as (ps & s0 & Hstages & Hrun & Hco & _ & Hsh & Hdone).
  { lia. }
  { by apply schedule_new_inv. }
  { apply Forall_forall. intros m (j & -> & Hj)%list_elem_of_fmap. by apply Hlen. }
  { intros k i'. split; [by intros ?%elem_of_nil|lia]. }
  rewrite app_nil_r in Hdone. cbn [schedule_new data] in Hco, Hdone, Hsh.
  destruct (run_from_new_layout d ps Hwf Hco)
    as (s0' & Hrun' & Hinv & Hlay & _).
  assert (s0' = s0) as -> by congruence.
  pose proof (shape_jobs_length _ _ Hsh) as Hjlen.
  set (sorted := sort tagged_id_less (imap pair (jobs (data s0)))).
  exists (sort_jobs s0). split.
  { unfold schedule_jobs. cbn [schedule_new data jobs]. rewrite Hj0.
    cbn [mbind option_bind]. by rewrite Hstages. }
  split.
  - intros m tl a p Htl Ha Hp. rewrite sort_jobs_table in Htl.
    destruct (table s0 !! m) as [tl0|] eqn:Htl0; [|done].
    simpl in Htl. injection Htl as <-.
    apply list_elem_of_fmap in Ha as (a0 & -> & Ha0).
    unfold follow in Hp. simpl in Hp.
    destruct (itask a0) as [p0|] eqn:Hp0; [|done].
    simpl in Hp. injection Hp as <-.
    destruct (li_occupant _ _ Hlay m tl0 a0 p0 Htl0 Ha0 Hp0)
      as (Hin & t & Ht & Hm & Hst & Hen).
    destruct p0 as [k0 i0]. apply Hdone in Hin as [_ Hi0].
    split; [done|]. exists t.
    split; [by rewrite <-Ht; apply (sort_jobs_task_at s0 (k0, i0))|].
    split; [done|].
    unfold follow. rewrite Hp0, Hst, Hen. done.
  - intros k i t Hi Ht.
    pose proof Ht as (j & Hj & Hjt)%task_at_Some.
    cbn [sort_jobs data set_jobs jobs] in Hj. fold sorted in Hj.
    rewrite list_lookup_fmap in Hj.
    destruct (sorted !! k) as [[k0 j']|] eqn:Hk; [|done].
    simpl in Hj. injection Hj as ->.
    pose proof (moved_to_lookup _ _ _ _ Hk) as Hmv. fold sorted in Hmv.
    pose proof Hk as Hk0%list_elem_of_lookup_2%sorted_elem.
    assert (Ht0 : task_at (data s0) (k0, i) = Some t).
    { apply task_at_Some. by exists j. }
    assert (Hin : (k0, i) ∈ reverse ps).
    { apply Hdone. split; [|done]. rewrite <-Hjlen.
      by eapply lookup_lt_Some. }
    destruct (si_block _ _ Hinv (k0, i) t Hin Ht0) as (tl0 & Htl0 & Hblock).
    exists (follow sorted <$> tl0). split.
    + rewrite sort_jobs_table. fold sorted. by rewrite Htl0.
    + apply list_elem_of_fmap. eexists. split; [|exact Hblock].
      unfold follow. simpl. by rewrite Hmv.
Qed.
End FirstJobLength.

(** ** The makespan along a run *)
Section Growth.
Context `{TimeRep} `{StdSort}.

(** X14.  Along a valid sequence of calls of [add_task] from the initial
    schedule of a dataset with at least one machine, [longest_timeline]
    never decreases: further calls leave it as it is or make it larger. *)
Theorem makespan_never_decreases d ps1 ps2 :
  wf_dataset d → call_order d [] (ps1 ++ ps2) → (0 < machine_count d)%nat →
  ∃ s1 s2 m1 m2,
    run_tasks (schedule_new d) ps1 = Some s1 ∧ run_tasks s1 ps2 = Some s2 ∧
    longest_timeline s1 = Some m1 ∧ longest_timeline s2 = Some m2 ∧
    m1 ≤ m2.
Proof.
  intros Hwf Hco Hmc.
  pose proof Hco as [Hco1 Hco2]%call_order_app.
  destruct (run_makespan d ps1 Hwf Hco1 Hmc)
    as (s1 & m1 & Hrun1 & Hm1 & _ & _ & Hb1 & _ & Hmax1 & _).
  destruct (run_makespan d (ps1 ++ ps2) Hwf Hco Hmc)
    as (s2 & m2 & Hrun2 & Hm2 & _ & _ & Hb2 & Hall2 & _).
  destruct (run_from_new_layout d ps1 Hwf Hco1)
    as (s1' & Hrun1' & Hinv1 & Hlay1 & Hsh1 & _).
  assert (s1' = s1) as -> by congruence.
  destruct (run_tasks_layout ps2 (reverse ps1) s1 Hinv1 Hlay1)
    as (s2' & Hrun12 & _ & _ & _ & _ & Hkeep & _).
  { rewrite app_nil_r in Hco2. eapply call_order_shape; [|exact Hco2]. done. }
  rewrite run_tasks_app, Hrun1 in Hrun2. simpl in Hrun2.
  assert (s2' = s2) as -> by congruence.
  exists s1, s2, m1, m2. split; [done|]. split; [done|]. split; [done|].
  split; [done|].
  destruct Hmax1 as [->|(p & t & Hp & Ht & <-)]; [lia|].
  apply (Hall2 p t).
  - apply elem_of_app. by left.
  - rewrite Hkeep; [done|]. by apply elem_of_reverse.
Qed.
End Growth.

(** ** The theorems at work on the scenario

    The time type is taken signed and [std::sort] is insertion sort. *)
#[local] Existing Instance int32_time.
#[local] Existing Instance insertion_StdSort.

Lemma scenario_wf : check_dataset scenario = true.
Proof. vm_compute. reflexivity. Qed.

Lemma scenario_uniform : check_uniform scenario 2 = true.
Proof. vm_compute. reflexivity. Qed.

Lemma timeline_partition_invariant_witness :
  wf_dataset scenario ∧
  ∃ s, schedule_jobs stachu_heuristic (schedule_new scenario) = Some s ∧
       ∀ tl, tl ∈ table s → timeline_inv tl.
Proof.
  split; [apply check_dataset_sound, scenario_wf|].
  apply (proj2 (proj2 (proj2 (timeline_partition_invariant scenario
           (check_dataset_sound _ scenario_wf)))) stachu_heuristic 2%nat).
  - apply check_uniform_sound, scenario_uniform.
  - apply stachu_heuristic_ok.
Defined.

Lemma no_overlap_witness :
  wf_dataset scenario ∧
  ∃ s, schedule_jobs stachu_heuristic (schedule_new scenario) = Some s ∧
       no_overlap_among s (λ _, True).
Proof.
  split; [apply check_dataset_sound, scenario_wf|].
  destruct (proj2 (no_overlap scenario (check_dataset_sound _ scenario_wf))
              stachu_heuristic 2%nat) as (_ & _ & s & _ & _ & _ & _ & Hs & Hno).
  - apply check_uniform_sound, scenario_uniform.
  - apply stachu_heuristic_ok.
  - by exists s.
Defined.

Lemma job_order_preserved_witness :
  wf_dataset scenario ∧
  ∃ s, schedule_jobs stachu_heuristic (schedule_new scenario) = Some s ∧
       job_order_among s (λ _, True).
Proof.
  split; [apply check_dataset_sound, scenario_wf|].
  apply (proj2 (proj2 (proj2
           (job_order_preserved scenario (check_dataset_sound _ scenario_wf))))
           stachu_heuristic 2%nat).
  - apply check_uniform_sound, scenario_uniform.
  - apply stachu_heuristic_ok.
Defined.

Lemma add_task_first_fit_witness :
  add_task scenario_first (1, 0)%nat <> None ∧
  ∃ s' tl it iv t',
    add_task scenario_first (1, 0)%nat = Some s' ∧
    table scenario_first !! O = Some tl ∧ tl !! it = Some iv ∧
    occupied iv = false ∧
    task_at (data s') (1, 0)%nat = Some t' ∧
    scheduled_time t' = Z.max (start iv) 0.
Proof.
  split; [vm_compute; discriminate|].
  destruct (add_task scenario_first (1, 0)%nat) as [s'|] eqn:Hadd;
    [|vm_compute in Hadd; discriminate].
  destruct (add_task_first_fit scenario_first (1, 0)%nat s' Hadd)
    as (t & pj & m & tl & a0 & it & iv & t' & Ht & Hpj & Hm & Htl & _ & _ & _ & _
        & _ & Hiv & Hfree & _ & Ht' & Hst & _).
  vm_compute in Ht. injection Ht as <-.
  vm_compute in Hpj. injection Hpj as <-.
  vm_compute in Hm. injection Hm as <-.
  exists s', tl, it, iv, t'. repeat split; assumption.
Defined.

Lemma schedule_task_split_witness :
  schedule_task scenario_first (1, 0)%nat 0 1 3 <> None ∧
  ∃ s' tl l1 iv l2 before after,
    schedule_task scenario_first (1, 0)%nat 0 1 3 = Some s' ∧
    table scenario_first !! O = Some tl ∧ tl = l1 ++ iv :: l2 ∧
    table s' =
      <[O := l1 ++ before ++ mk_interval 3 (tsub (tadd 3 2) 1) (Some (1, 0)%nat)
                 :: after ++ l2]> (table scenario_first).
Proof.
  split; [vm_compute; discriminate|].
  destruct (schedule_task scenario_first (1, 0)%nat 0 1 3) as [s'|] eqn:Hs;
    [|vm_compute in Hs; discriminate].
  destruct (schedule_task_split scenario_first (1, 0)%nat 0 1 3 s' Hs)
    as (t & tl & l1 & iv & l2 & before & after & Ht & Htl & Heq & _ & Htab & _).
  vm_compute in Ht. injection Ht as <-.
  exists s', tl, l1, iv, l2, before, after. repeat split; assumption.
Defined.

Lemma search_never_falls_off_witness :
  timeline_inv [mk_interval 0 2 (Some (0, 0)%nat); mk_interval 3 infinity None] ∧
  ∃ it iv,
    find_slot [mk_interval 0 2 (Some (0, 0)%nat); mk_interval 3 infinity None] 0 2
      = Some it ∧
    [mk_interval 0 2 (Some (0, 0)%nat); mk_interval 3 infinity None] !! it
      = Some iv ∧
    occupied iv = false.
Proof.
  assert (Hinv : timeline_inv
            [mk_interval 0 2 (Some (0, 0)%nat); mk_interval 3 infinity None]).
  { apply chain_timeline_inv. apply chain_cons; [lia|]. apply chain_last.
    vm_compute. discriminate. }
  split; [exact Hinv|].
  destruct (search_never_falls_off _ Hinv) as (_ & _ & Hscan).
  destruct (Hscan 0 2) as (it & iv & Hfind & _ & Hiv & Hfree & _).
  { vm_compute. split; discriminate. }
  by exists it, iv.
Defined.

Lemma summary_reports_makespan_witness :
  summary scenario_first <> None ∧
  ∃ out m,
    summary scenario_first = Some out ∧
    longest_timeline scenario_first = Some m ∧
    split_on newline_char out =
      show_time m :: (summary_line <$> jobs (data scenario_first)) ++ [EmptyString].
Proof.
  split; [vm_compute; discriminate|].
  destruct (summary scenario_first) as [out|] eqn:Hsum;
    [|vm_compute in Hsum; discriminate].
  destruct (summary_reports_makespan scenario_first out Hsum)
    as (m & Hm & _ & _ & Hlines & _).
  by exists out, m.
Defined.

Lemma shuffled_wf : check_dataset shuffled = true.
Proof. vm_compute. reflexivity. Qed.

Lemma shuffled_uniform : check_uniform shuffled 2 = true.
Proof. vm_compute. reflexivity. Qed.

Lemma jobs_sorted_by_id_witness :
  schedule_jobs stachu_heuristic (schedule_new shuffled) <> None ∧
  job_id <$> jobs shuffled = [5; 2] ∧
  ∃ s' m out,
    schedule_jobs stachu_heuristic (schedule_new shuffled) = Some s' ∧
    job_id <$> jobs (data s') = [2; 5] ∧
    (∀ i j a b, (i < j)%nat →
       jobs (data s') !! i = Some a → jobs (data s') !! j = Some b →
       job_id a ≤ job_id b) ∧
    longest_timeline s' = Some m ∧ summary s' = Some out ∧
    split_on newline_char out =
      show_time m :: (summary_line <$> jobs (data s')) ++ [EmptyString] ∧
    summary_line <$> jobs (data s') = ["3 5 "%string; "0 3 "%string].
Proof.
  split; [vm_compute; discriminate|]. split; [reflexivity|].
  destruct (schedule_jobs stachu_heuristic (schedule_new shuffled))
    as [s'|] eqn:Hs; [|vm_compute in Hs; discriminate].
  destruct (jobs_sorted_by_id stachu_heuristic (schedule_new shuffled) s' Hs)
    as (_ & Hsorted & _ & Hsum).
  destruct (Hsum shuffled 2%nat eq_refl (check_dataset_sound _ shuffled_wf)
              (check_uniform_sound _ _ shuffled_uniform) stachu_heuristic_ok)
    as (m & out & Hm & Hout & Hlines).
  { simpl. lia. }
  exists s', m, out. split; [done|].
  split; [vm_compute in Hs; injection Hs as <-; reflexivity|].
  split; [done|]. split; [done|]. split; [done|]. split; [done|].
  vm_compute in Hs. injection Hs as <-. reflexivity.
Defined.

Lemma scenario_schedule_witness :
  ∃ s, schedule_jobs stachu_heuristic (schedule_new scenario) = Some s ∧
       longest_timeline s = Some 9 ∧ summary s = Some scenario_summary.
Proof.
  destruct (proj2 (@scenario_schedule int32_time insertion_StdSort))
    as (s & Hs & _ & _ & _ & Hlen & Hsum).
  by exists s.
Defined.

(** A full run on the scenario, and its first two calls. *)
Lemma scenario_order :
  call_order scenario [] [(0, 0); (1, 0); (0, 1); (1, 1)]%nat.
Proof.
  repeat (first
    [ apply call_order_nil
    | apply call_order_cons;
      [ vm_compute; by eexists
      | let Hin := fresh in
        intros Hin;
        repeat (apply elem_of_cons in Hin as [Hin|Hin]; [discriminate Hin|]);
        by apply elem_of_nil in Hin
      | first [ by left
              | right; simpl;
                repeat first [apply list_elem_of_here | apply list_elem_of_further] ]
      | ] ]).
Qed.

Lemma scenario_order_prefix :
  call_order scenario [] [(0, 0); (1, 0)]%nat.
Proof.
  repeat (first
    [ apply call_order_nil
    | apply call_order_cons;
      [ vm_compute; by eexists
      | let Hin := fresh in
        intros Hin;
        repeat (apply elem_of_cons in Hin as [Hin|Hin]; [discriminate Hin|]);
        by apply elem_of_nil in Hin
      | first [ by left
              | right; simpl;
                repeat first [apply list_elem_of_here | apply list_elem_of_further] ]
      | ] ]).
Qed.

Lemma ragged_wf : check_dataset ragged = true.
Proof. vm_compute. reflexivity. Qed.

Lemma add_task_frame_witness :
  add_task scenario_first (1, 0)%nat <> None ∧
  ∃ s' l1 iv l2 before after t',
    add_task scenario_first (1, 0)%nat = Some s' ∧
    table scenario_first !! O = Some (l1 ++ iv :: l2) ∧ occupied iv = false ∧
    table s' =
      <[O := l1 ++ before ++
             mk_interval (scheduled_time t')
               (tsub (tadd (scheduled_time t') 2) 1) (Some (1, 0)%nat)
             :: after ++ l2]> (table scenario_first) ∧
    (length before ≤ 1)%nat ∧ (length after ≤ 1)%nat ∧
    task_at (data s') (1, 0)%nat = Some t' ∧
    ∀ q, q ≠ (1, 0)%nat →
      task_at (data s') q = task_at (data scenario_first) q.
Proof.
  split; [vm_compute; discriminate|].
  destruct (add_task scenario_first (1, 0)%nat) as [s'|] eqn:Hadd;
    [|vm_compute in Hadd; discriminate].
  destruct (add_task_frame scenario_first (1, 0)%nat s' Hadd)
    as (t & t' & m & l1 & iv & l2 & before & after & Ht & Hm & Htl & Hfree & Htab
        & Hb & Ha & _ & _ & Ht' & _ & _ & _ & Hother & _).
  vm_compute in Ht. injection Ht as <-.
  vm_compute in Hm. injection Hm as <-.
  exists s', l1, iv, l2, before, after, t'.
  split; [done|]. split; [exact Htl|]. split; [done|]. split; [exact Htab|].
  split; [done|]. split; [done|]. split; [done|]. exact Hother.
Defined.

Lemma free_intervals_never_adjacent_witness :
  wf_dataset scenario ∧
  call_order scenario [] [(0, 0); (1, 0); (0, 1); (1, 1)]%nat ∧
  ∃ s, run_tasks (schedule_new scenario) [(0, 0); (1, 0); (0, 1); (1, 1)]%nat
         = Some s ∧
       ∀ tl, tl ∈ table s → no_adjacent_free tl.
Proof.
  split; [apply check_dataset_sound, scenario_wf|].
  split; [apply scenario_order|].
  apply (free_intervals_never_adjacent scenario _
           (check_dataset_sound _ scenario_wf) scenario_order).
Defined.

Lemma occupied_intervals_are_placed_tasks_witness :
  wf_dataset scenario ∧
  call_order scenario [] [(0, 0); (1, 0); (0, 1); (1, 1)]%nat ∧
  ∃ s, run_tasks (schedule_new scenario) [(0, 0); (1, 0); (0, 1); (1, 1)]%nat
         = Some s ∧
    ∀ p t, p ∈ [(0, 0); (1, 0); (0, 1); (1, 1)]%nat →
      task_at (data s) p = Some t →
      ∃ tl, table s !! Z.to_nat (machine_id t) = Some tl ∧
        mk_interval (scheduled_time t)
          (scheduled_time t + duration t - 1) (Some p) ∈ tl.
Proof.
  split; [apply check_dataset_sound, scenario_wf|].
  split; [apply scenario_order|].
  destruct (occupied_intervals_are_placed_tasks scenario _
              (check_dataset_sound _ scenario_wf) scenario_order)
    as (s & Hrun & _ & Hplaced).
  by exists s.
Defined.

Lemma cursor_is_last_completion_witness :
  wf_dataset scenario ∧
  call_order scenario [] [(0, 0); (1, 0)]%nat ∧
  ∃ s, run_tasks (schedule_new scenario) [(0, 0); (1, 0)]%nat = Some s ∧
    ∀ k i j t, (k, i) ∈ [(0, 0); (1, 0)]%nat → (k, S i) ∉ [(0, 0); (1, 0)]%nat →
      jobs (data s) !! k = Some j → sequence j !! i = Some t →
      last_scheduled_time j = scheduled_time t + duration t.
Proof.
  split; [apply check_dataset_sound, scenario_wf|].
  split; [apply scenario_order_prefix|].
  destruct (cursor_is_last_completion scenario _
              (check_dataset_sound _ scenario_wf) scenario_order_prefix)
    as (s & Hrun & _ & Hlast).
  by exists s.
Defined.

Lemma placed_task_never_moves_witness :
  wf_dataset scenario ∧
  call_order scenario [] ([(0, 0); (1, 0)] ++ [(0, 1); (1, 1)])%nat ∧
  ∃ s1 s2,
    run_tasks (schedule_new scenario) [(0, 0); (1, 0)]%nat = Some s1 ∧
    run_tasks s1 [(0, 1); (1, 1)]%nat = Some s2 ∧
    ∀ p, p ∈ [(0, 0); (1, 0)]%nat → task_at (data s2) p = task_at (data s1) p.
Proof.
  split; [apply check_dataset_sound, scenario_wf|].
  split; [apply scenario_order|].
  destruct (placed_task_never_moves scenario
              [(0, 0); (1, 0)]%nat [(0, 1); (1, 1)]%nat
              (check_dataset_sound _ scenario_wf) scenario_order)
    as (s1 & s2 & Hrun1 & Hrun2 & _ & Hkeep).
  by exists s1, s2.
Defined.

Lemma makespan_is_latest_completion_witness :
  wf_dataset scenario ∧
  call_order scenario [] [(0, 0); (1, 0); (0, 1); (1, 1)]%nat ∧
  (0 < machine_count scenario)%nat ∧
  ∃ s m,
    run_tasks (schedule_new scenario) [(0, 0); (1, 0); (0, 1); (1, 1)]%nat
      = Some s ∧
    longest_timeline s = Some m ∧
    ∀ p t, p ∈ [(0, 0); (1, 0); (0, 1); (1, 1)]%nat →
      task_at (data s) p = Some t → scheduled_time t + duration t ≤ m.
Proof.
  split; [apply check_dataset_sound, scenario_wf|].
  split; [apply scenario_order|].
  split; [simpl; lia|].
  destruct (makespan_is_latest_completion scenario _
              (check_dataset_sound _ scenario_wf) scenario_order)
    as (s & m & Hrun & Hm & Hall & _).
  { simpl. lia. }
  by exists s, m.
Defined.

Lemma makespan_at_most_total_work_witness :
  wf_dataset scenario ∧
  call_order scenario [] [(0, 0); (1, 0); (0, 1); (1, 1)]%nat ∧
  (0 < machine_count scenario)%nat ∧
  ∃ s m,
    run_tasks (schedule_new scenario) [(0, 0); (1, 0); (0, 1); (1, 1)]%nat
      = Some s ∧
    longest_timeline s = Some m ∧
    0 ≤ m ≤ sum_durs scenario [(0, 0); (1, 0); (0, 1); (1, 1)]%nat.
Proof.
  split; [apply check_dataset_sound, scenario_wf|].
  split; [apply scenario_order|].
  split; [simpl; lia|].
  destruct (makespan_at_most_total_work scenario _
              (check_dataset_sound _ scenario_wf) scenario_order)
    as (s & m & Hrun & Hm & Hb & _).
  { simpl. lia. }
  by exists s, m.
Defined.

Lemma add_task_earliest_start_witness :
  wf_dataset scenario ∧
  call_order scenario [] ([(0, 0)] ++ [(1, 0)])%nat ∧
  ∃ s s' j t',
    run_tasks (schedule_new scenario) [(0, 0)%nat] = Some s ∧
    add_task s (1, 0)%nat = Some s' ∧
    jobs (data s) !! 1%nat = Some j ∧
    task_at (data s') (1, 0)%nat = Some t' ∧
    last_scheduled_time j ≤ scheduled_time t'.
Proof.
  split; [apply check_dataset_sound, scenario_wf|].
  split; [apply scenario_order_prefix|].
  destruct (add_task_earliest_start scenario [(0, 0)%nat] 1%nat O
              (check_dataset_sound _ scenario_wf) scenario_order_prefix)
    as (s & s' & j & t & tl & t' & Hrun & Hadd & Hj & _ & _ & Ht' & Hle & _).
  by exists s, s', j, t'.
Defined.

Lemma quantized_of_run_witness :
  wf_dataset scenario ∧
  call_order scenario [] [(0, 0); (1, 0); (0, 1); (1, 1)]%nat ∧
  0 ≤ 9 ≤ infinity ∧
  ∃ s, run_tasks (schedule_new scenario) [(0, 0); (1, 0); (0, 1); (1, 1)]%nat
         = Some s ∧
    ∀ m tl, table s !! m = Some tl →
      ∃ cells,
        quantized (data s) tl 9 = Some (replicate (Z.to_nat 9) 0 ++ cells) ∧
        length cells = Z.to_nat 9.
Proof.
  assert (Hlim : 0 ≤ 9 ≤ infinity) by (vm_compute; split; discriminate).
  split; [apply check_dataset_sound, scenario_wf|].
  split; [apply scenario_order|].
  split; [exact Hlim|].
  destruct (quantized_of_run scenario _ 9
              (check_dataset_sound _ scenario_wf) scenario_order Hlim)
    as (s & Hrun & Hq).
  exists s. split; [done|]. intros m tl Htl.
  destruct (Hq m tl Htl) as (cells & Hcells & Hlen & _). by exists cells.
Defined.

Lemma interval_at_end_iff_witness :
  (∀ a, a ∈ [mk_interval 0 infinity None] → includes a (-1) = false) ∧
  interval_at [mk_interval 0 infinity None] (-1) = 1%nat ∧
  add_task stray (0, 0)%nat = None.
Proof.
  assert (Hout : ∀ a, a ∈ [mk_interval 0 infinity None] →
                      includes a (-1) = false).
  { intros a Ha. apply list_elem_of_singleton in Ha as ->. reflexivity. }
  split; [exact Hout|].
  destruct (interval_at_end_iff [mk_interval 0 infinity None] (-1))
    as (Hiff & _ & Hadd).
  split; [exact (proj2 Hiff Hout)|].
  apply (Hadd stray (0, 0)%nat (mk_task 0 1 0 0)
           (mk_job 0 [mk_task 0 1 0 0] (-1)) O);
    [reflexivity..|exact Hout].
Defined.

Lemma stage_dispatch_respects_heuristic_witness :
  heuristic_ok stachu_heuristic ∧
  (∀ j, j ∈ jobs (data (schedule_new scenario)) →
        (0 < length (sequence j))%nat) ∧
  ∃ order,
    order ≡ₚ seq 0 (length (jobs (data (schedule_new scenario)))) ∧
    stage stachu_heuristic (schedule_new scenario) 0 =
      run_tasks (schedule_new scenario) (stage_ptrs 0 order) ∧
    ∀ a b ka kb ja jb, (a < b)%nat →
      order !! a = Some ka → order !! b = Some kb →
      jobs scenario !! ka = Some ja → jobs scenario !! kb = Some jb →
      stachu_heuristic jb ja 0 = false.
Proof.
  assert (Hlen : ∀ j, j ∈ jobs (data (schedule_new scenario)) →
                      (0 < length (sequence j))%nat).
  { apply Forall_forall. repeat constructor. }
  split; [apply stachu_heuristic_ok|].
  split; [exact Hlen|].
  apply (stage_dispatch_respects_heuristic stachu_heuristic
           (schedule_new scenario) 0 stachu_heuristic_ok Hlen).
Defined.

Lemma schedule_jobs_first_job_length_witness :
  wf_dataset ragged ∧
  (∀ j, j ∈ jobs ragged → (1 ≤ length (sequence j))%nat) ∧
  ∃ ps s0,
    (∀ k i, (k, i) ∈ ps ↔ (k < 2)%nat ∧ (i < 1)%nat) ∧
    run_tasks (schedule_new ragged) ps = Some s0 ∧
    schedule_jobs stachu_heuristic (schedule_new ragged) = Some (sort_jobs s0) ∧
    task_at (data s0) (1, 1)%nat = task_at ragged (1, 1)%nat.
Proof.
  assert (Hlen : ∀ j, j ∈ jobs ragged → (1 ≤ length (sequence j))%nat).
  { apply Forall_forall. repeat constructor. }
  split; [apply check_dataset_sound, ragged_wf|].
  split; [exact Hlen|].
  destruct (schedule_jobs_first_job_length ragged stachu_heuristic
              (mk_job 0 [mk_task 0 3 0 0] 0)
              (check_dataset_sound _ ragged_wf) stachu_heuristic_ok
              eq_refl Hlen)
    as (ps & s0 & _ & Hps & Hrun & Hsj & _ & Hkeep & _).
  exists ps, s0. split; [exact Hps|]. split; [done|]. split; [done|].
  apply Hkeep. intros Hin. apply Hps in Hin. simpl in Hin. lia.
Defined.

Lemma schedule_jobs_blocks_witness :
  wf_dataset shuffled ∧
  (∀ j, j ∈ jobs shuffled → (2 ≤ length (sequence j))%nat) ∧
  ∃ s,
    schedule_jobs stachu_heuristic (schedule_new shuffled) = Some s ∧
    table s =
      [ [ mk_interval 0 2 (Some (1, 0)%nat); mk_interval 3 4 (Some (0, 0)%nat);
          mk_interval 5 infinity None ];
        [ mk_interval 0 2 None; mk_interval 3 4 (Some (1, 1)%nat);
          mk_interval 5 8 (Some (0, 1)%nat); mk_interval 9 infinity None ] ] ∧
    (λ j, scheduled_time <$> sequence j) <$> jobs (data s) = [[3; 5]; [0; 3]] ∧
    ∀ k i t, (i < 2)%nat → task_at (data s) (k, i) = Some t →
      ∃ tl, table s !! Z.to_nat (machine_id t) = Some tl ∧
        mk_interval (scheduled_time t)
          (scheduled_time t + duration t - 1) (Some (k, i)) ∈ tl.
Proof.
  assert (Hlen : ∀ j, j ∈ jobs shuffled → (2 ≤ length (sequence j))%nat).
  { apply Forall_forall. repeat constructor. }
  split; [apply check_dataset_sound, shuffled_wf|].
  split; [exact Hlen|].
  destruct (schedule_jobs_blocks shuffled stachu_heuristic
              (mk_job 5 [mk_task 0 3 0 0; mk_task 1 2 0 0] 0)
              (check_dataset_sound _ shuffled_wf) stachu_heuristic_ok
              eq_refl Hlen)
    as (s & Hs & _ & Hblocks).
  exists s. split; [done|].
  split; [vm_compute in Hs; injection Hs as <-; reflexivity|].
  split; [vm_compute in Hs; injection Hs as <-; reflexivity|].
  exact Hblocks.
Defined.

Lemma makespan_never_decreases_witness :
  wf_dataset scenario ∧
  call_order scenario [] ([(0, 0)] ++ [(1, 0)])%nat ∧
  (0 < machine_count scenario)%nat ∧
  ∃ s1 s2 m1 m2,
    run_tasks (schedule_new scenario) [(0, 0)%nat] = Some s1 ∧
    run_tasks s1 [(1, 0)%nat] = Some s2 ∧
    longest_timeline s1 = Some m1 ∧ longest_timeline s2 = Some m2 ∧
    m1 ≤ m2.
Proof.
  split; [apply check_dataset_sound, scenario_wf|].
  split; [apply scenario_order_prefix|].
  split; [simpl; lia|].
  apply (makespan_never_decreases scenario [(0, 0)%nat] [(1, 0)%nat]
           (check_dataset_sound _ scenario_wf) scenario_order_prefix).
  simpl. lia.
Defined.
